(** * GPX Terrain Flyby: camera and track-playback engine

    A shallow embedding of the playback engine of [frontend/src/App.tsx]
    (the helper functions above the [App] component and the handlers inside
    it) and of the backend's GPX parser ([gpx.ts], module [Gpx] below),
    together with the properties the specification states about them and
    further properties read off the code.

    Numbers.  A finite JavaScript [number] is modelled as a rational [Q] and
    the arithmetic is exact.  Numeric equality ([===] on numbers) is [Qeq],
    written [==].  The program itself computes on binary64, where sums,
    products and quotients are rounded.  The theorems are therefore stated
    on what does not depend on the rounding: comparisons, clamps, indices,
    the order of values, and equalities between a result and the code's
    own expression for it; where exact arithmetic would give more (a
    [lerp] at the fraction 1 that is the right end, a sum of increments
    that is exactly 1), the theorem does not state it.  The module
    [Binary64] embeds the numeric helpers a second time on binary64, for
    the inputs on which the rounding shows.  The one special value the
    specification talks about, [NaN], is modelled in the module [JsNumber],
    whose operations agree with the rational ones on finite values.  The
    transcendental functions of the host ([Math.sin], [Math.cos],
    [Math.atan2], [Math.sqrt], [Math.PI]) have no exact rational value; the
    engine takes them as a parameter ([MathLib]). *)

From Stdlib Require Import QArith Qround Qabs Lqa ZArith Lia List Bool.
From Stdlib Require String.
From Corelib Require PrimFloat FloatOps SpecFloat.
Import ListNotations.
Open Scope Q_scope.

(** ** Comparisons and [Math.min] / [Math.max] on finite numbers *)

Definition Qltb (a b : Q) : bool := (Qnum a * QDen b <? Qnum b * QDen a)%Z.
Definition Qleb (a b : Q) : bool := (Qnum a * QDen b <=? Qnum b * QDen a)%Z.
Definition Qeqb (a b : Q) : bool := (Qnum a * QDen b =? Qnum b * QDen a)%Z.

Definition Math_max (a b : Q) : Q := if Qltb a b then b else a.
Definition Math_min (a b : Q) : Q := if Qltb b a then b else a.

(** [const clamp = (value, min, max) => Math.min(Math.max(value, min), max)] *)
Definition clamp (value min max : Q) : Q := Math_min (Math_max value min) max.

(** [const lerp = (a, b, t) => a + (b - a) * t] *)
Definition lerp (a b t : Q) : Q := a + (b - a) * t.

(** The [%] operator: the remainder of the division truncated towards zero,
    [a % b = a - b * trunc(a / b)]; it has the sign of the dividend. *)
Definition Qtrunc (q : Q) : Z := (Qnum q ÷ Zpos (Qden q))%Z.
Definition jsRem (a b : Q) : Q := a - b * inject_Z (Qtrunc (a / b)).

(** [const shortestAngleDiff = (from, to) => ((to - from + 540) % 360) - 180] *)
Definition shortestAngleDiff (from to : Q) : Q :=
  jsRem (to - from + 540) 360 - 180.


(** ** Numbers with [NaN]

    [Math.max] and [Math.min] return [NaN] as soon as one argument is [NaN],
    and so does every arithmetic operation.  On finite numbers the
    operations are the rational ones above. *)
Module JsNumber.

Inductive number : Type :=
| NaN : number
| Num (q : Q) : number.

Definition Math_max (a b : number) : number :=
  match a, b with
  | Num x, Num y => Num (Math_max x y)
  | _, _ => NaN
  end.

Definition Math_min (a b : number) : number :=
  match a, b with
  | Num x, Num y => Num (Math_min x y)
  | _, _ => NaN
  end.

Definition mul (a b : number) : number :=
  match a, b with
  | Num x, Num y => Num (x * y)
  | _, _ => NaN
  end.

(** [const clamp = (value, min, max) => Math.min(Math.max(value, min), max)] *)
Definition clamp (value min max : number) : number :=
  Math_min (Math_max value min) max.

(** [const targetDistance = clamp(value, 0, 1) * totalDistance]
    ([updateCameraAtProgress]; [drawRouteOverlay] computes its
    [revealDistance] by the same expression). *)
Definition targetDistance (value totalDistance : number) : number :=
  mul (clamp value (Num 0) (Num 1)) totalDistance.

(** The number is a real number of the interval [[lo, hi]]. *)
Definition within (lo hi : Q) (n : number) : Prop :=
  match n with
  | NaN => False
  | Num q => lo <= q <= hi
  end.

End JsNumber.

(** ** Geodesic helpers *)

(** The host's [Math] object, as far as the engine uses it. *)
Record MathLib : Type := {
  Math_PI : Q;
  Math_sin : Q -> Q;
  Math_cos : Q -> Q;
  Math_sqrt : Q -> Q;
  Math_atan2 : Q -> Q -> Q
}.

Section Geodesy.
Variable M : MathLib.

Definition toRad (deg : Q) : Q := (deg * Math_PI M) / 180.
Definition toDeg (rad : Q) : Q := (rad * 180) / Math_PI M.

Definition bearingDeg (lat1 lon1 lat2 lon2 : Q) : Q :=
  let phi1 := toRad lat1 in
  let phi2 := toRad lat2 in
  let lambda1 := toRad lon1 in
  let lambda2 := toRad lon2 in
  let y := Math_sin M (lambda2 - lambda1) * Math_cos M phi2 in
  let x :=
    Math_cos M phi1 * Math_sin M phi2 -
    Math_sin M phi1 * Math_cos M phi2 * Math_cos M (lambda2 - lambda1) in
  jsRem (toDeg (Math_atan2 M y x) + 360) 360.

Definition haversineMeters (lat1 lon1 lat2 lon2 : Q) : Q :=
  let R := 6371000 in
  let dLat := toRad (lat2 - lat1) in
  let dLon := toRad (lon2 - lon1) in
  let a :=
    Math_sin M (dLat / 2) ^ 2 +
    Math_cos M (toRad lat1) * Math_cos M (toRad lat2) * Math_sin M (dLon / 2) ^ 2 in
  2 * R * Math_atan2 M (Math_sqrt M a) (Math_sqrt M (1 - a)).
End Geodesy.

(** ** Track points and the distance index *)

(** [TrackPoint] of [api.ts]; [null] is [None]. *)
Record TrackPoint : Type := {
  lat : Q;
  lon : Q;
  ele : option Q;
  time : option String.string;
  distanceFromStartM : Q
}.

(** The value of [interpolatePointAtDistance]: [{ lat, lon, index }]. *)
Record InterpPoint : Type := {
  i_lat : Q;
  i_lon : Q;
  index : nat
}.

(** Default of the list accesses [points[i]]; every access of the engine is
    in range (see [lowerBound_range] and [index_in_range]). *)
Definition noPoint : TrackPoint :=
  {| lat := 0; lon := 0; ele := None; time := None; distanceFromStartM := 0 |}.

Definition at_ (points : list TrackPoint) (i : nat) : TrackPoint :=
  nth i points noPoint.

(** [clamp] on array indices. *)
Definition clampIndex (value min max : nat) : nat :=
  Nat.min (Nat.max value min) max.

(** The binary search of [interpolatePointAtDistance]:
<<
  while (low < high) {
    const mid = Math.floor((low + high) / 2);
    if (points[mid].distanceFromStartM < target) low = mid + 1;
    else high = mid;
  }
>>
    [fuel] bounds the number of iterations; [high - low] iterations are
    enough ([lowerBound_fuel]). *)
Fixpoint lowerBound (fuel : nat) (points : list TrackPoint) (target : Q)
    (low high : nat) : nat :=
  match fuel with
  | O => low
  | S fuel' =>
      if (low <? high)%nat then
        let mid := ((low + high) / 2)%nat in
        if Qltb (distanceFromStartM (at_ points mid)) target
        then lowerBound fuel' points target (mid + 1) high
        else lowerBound fuel' points target low mid
      else low
  end.

Definition interpolatePointAtDistance (points : list TrackPoint)
    (targetDistanceM : Q) : InterpPoint :=
  if (length points =? 0)%nat then {| i_lat := 0; i_lon := 0; index := 0 |}
  else if (length points =? 1)%nat then
    {| i_lat := lat (at_ points 0); i_lon := lon (at_ points 0); index := 0 |}
  else
    let maxDistance := distanceFromStartM (at_ points (length points - 1)) in
    let target := clamp targetDistanceM 0 (Math_max maxDistance 0) in
    let low := lowerBound (length points) points target 0 (length points - 1) in
    let rightIndex := clampIndex low 1 (length points - 1) in
    let leftIndex := (rightIndex - 1)%nat in
    let left := at_ points leftIndex in
    let right := at_ points rightIndex in
    let span :=
      Math_max (distanceFromStartM right - distanceFromStartM left) 0.0001 in
    let t := clamp ((target - distanceFromStartM left) / span) 0 1 in
    {| i_lat := lerp (lat left) (lat right) t;
       i_lon := lerp (lon left) (lon right) t;
       index := leftIndex |}.

(** ** The resampler *)

Definition ofNat (n : nat) : Q := inject_Z (Z.of_nat n).

(** [points[interp.index] ?? points[0]] *)
Definition nearestOf (points : list TrackPoint) (i : nat) : TrackPoint :=
  match nth_error points i with
  | Some p => p
  | None => at_ points 0
  end.

Definition buildPlaybackPoints (points : list TrackPoint) (maxPoints : nat)
    : list TrackPoint :=
  if (length points <=? 2)%nat || (length points <=? maxPoints)%nat then points
  else
    let totalDistance :=
      Math_max (distanceFromStartM (at_ points (length points - 1))) 1 in
    let targetCount := Nat.max 300 maxPoints in
    let interval := totalDistance / (ofNat targetCount - 1) in
    map (fun i =>
           let targetDistance := Math_min totalDistance (ofNat i * interval) in
           let interp := interpolatePointAtDistance points targetDistance in
           let nearest := nearestOf points (index interp) in
           {| lat := i_lat interp;
              lon := i_lon interp;
              ele := ele nearest;
              time := None;
              distanceFromStartM := targetDistance |})
        (seq 0 targetCount).

(** The point pushed by the [i]-th iteration of the loop of
    [buildPlaybackPoints], for the statements about single samples. *)
Definition sampleAt (points : list TrackPoint) (maxPoints i : nat) : TrackPoint :=
  let totalDistance :=
    Math_max (distanceFromStartM (at_ points (length points - 1))) 1 in
  let interval := totalDistance / (ofNat (Nat.max 300 maxPoints) - 1) in
  let targetDistance := Math_min totalDistance (ofNat i * interval) in
  let interp := interpolatePointAtDistance points targetDistance in
  {| lat := i_lat interp;
     lon := i_lon interp;
     ele := ele (nearestOf points (index interp));
     time := None;
     distanceFromStartM := targetDistance |}.

(** [points.map((point, i) => ...)] *)
Definition mapi {A B : Type} (f : A -> nat -> B) (l : list A) : list B :=
  map (fun ip => f (snd ip) (fst ip)) (combine (seq 0 (length l)) l).

(** The offsets [j = -radius, ..., radius] of the smoothing window. *)
Definition window (radius : Z) : list Z :=
  map (fun k => (Z.of_nat k - radius)%Z) (seq 0 (Z.to_nat (2 * radius + 1))).

Definition clampZ (value min max : Z) : Z := Z.min (Z.max value min) max.

Definition smoothPlaybackPoints (points : list TrackPoint) (radius : Z)
    : list TrackPoint :=
  if (length points <=? 4)%nat || (radius <=? 0)%Z then points
  else
    mapi (fun point i =>
            if (i =? 0)%nat || (i =? length points - 1)%nat then point
            else
              let '(latSum, lonSum, wSum) :=
                fold_left
                  (fun '(latSum, lonSum, wSum) j =>
                     let idx :=
                       Z.to_nat
                         (clampZ (Z.of_nat i + j) 0 (Z.of_nat (length points) - 1)) in
                     let weight := inject_Z (radius + 1 - Z.abs j) in
                     (latSum + lat (at_ points idx) * weight,
                      lonSum + lon (at_ points idx) * weight,
                      wSum + weight))
                  (window radius) (0, 0, 0) in
              {| lat := latSum / wSum;
                 lon := lonSum / wSum;
                 ele := ele point;
                 time := time point;
                 distanceFromStartM := distanceFromStartM point |})
         points.

(** The playback sequence of a track, as the effect on [selectedDetails]
    builds it: [smoothPlaybackPoints(buildPlaybackPoints(points, N), 2)]. *)
Definition playbackSequence (points : list TrackPoint) (maxPoints : nat)
    : list TrackPoint :=
  smoothPlaybackPoints (buildPlaybackPoints points maxPoints) 2.

(** ** The revealed route of [drawRouteOverlay] *)

(** The loop over the playback points:
<<
  for (let i = 0; i < playbackPoints.length; i += 1) {
    const point = playbackPoints[i];
    if (point.distanceFromStartM <= revealDistance) {
      revealLonLat.push([point.lon, point.lat]); continue; }
    if (i > 0) { const prev = playbackPoints[i - 1]; ... push the
      point interpolated between prev and point ... }
    break;
  }
>>
    [prev] is [playbackPoints[i - 1]], absent when [i = 0]; [rest] are the
    points from index [i] on. *)
Fixpoint revealLoop (prev : option TrackPoint) (rest : list TrackPoint)
    (revealDistance : Q) : list (Q * Q) :=
  match rest with
  | [] => []
  | point :: rest' =>
      if Qleb (distanceFromStartM point) revealDistance then
        (lon point, lat point) :: revealLoop (Some point) rest' revealDistance
      else
        match prev with
        | Some prev =>
            let span :=
              Math_max (distanceFromStartM point - distanceFromStartM prev) 0.0001 in
            let t := clamp ((revealDistance - distanceFromStartM prev) / span) 0 1 in
            [(lerp (lon prev) (lon point) t, lerp (lat prev) (lat point) t)]
        | None => []
        end
  end.

Definition revealDistanceOf (playbackPoints : list TrackPoint) (progress : Q) : Q :=
  let totalDistance :=
    Math_max (distanceFromStartM (at_ playbackPoints (length playbackPoints - 1))) 1 in
  clamp progress 0 1 * totalDistance.

Definition headOf (playbackPoints : list TrackPoint) (progress : Q) : InterpPoint :=
  interpolatePointAtDistance playbackPoints (revealDistanceOf playbackPoints progress).

(** [revealLonLat] when the drawing starts: the loop, then the head point
    appended unless the list already ends there. *)
Definition revealLonLat (playbackPoints : list TrackPoint) (progress : Q)
    : list (Q * Q) :=
  let revealDistance := revealDistanceOf playbackPoints progress in
  let revealed := revealLoop None playbackPoints revealDistance in
  let head := headOf playbackPoints progress in
  match revealed with
  | [] => [(i_lon head, i_lat head)]
  | _ :: _ =>
      let last := List.last revealed (0, 0) in
      if negb (Qeqb (fst last) (i_lon head)) || negb (Qeqb (snd last) (i_lat head))
      then revealed ++ [(i_lon head, i_lat head)]
      else revealed
  end.

(** ** Camera presets and camera state *)

Inductive CameraPresetId : Type := cinematic | balanced | chase.

Record CameraPreset : Type := {
  id : CameraPresetId;
  lookaheadMeters : Q;
  chaseMeters : Q;
  pitch : Q;
  zoomBase : Q;
  zoomMin : Q;
  zoomMax : Q;
  bearingSmoothing : Q
}.

Definition cameraPresets : list CameraPreset :=
  [ {| id := cinematic; lookaheadMeters := 320; chaseMeters := 135; pitch := 72;
       zoomBase := 13.6; zoomMin := 11.5; zoomMax := 14.2; bearingSmoothing := 0.14 |};
    {| id := balanced; lookaheadMeters := 250; chaseMeters := 105; pitch := 68;
       zoomBase := 13.8; zoomMin := 11.6; zoomMax := 14.3; bearingSmoothing := 0.16 |};
    {| id := chase; lookaheadMeters := 180; chaseMeters := 80; pitch := 62;
       zoomBase := 14.1; zoomMin := 11.8; zoomMax := 14.5; bearingSmoothing := 0.2 |} ].

Definition presetIdEqb (a b : CameraPresetId) : bool :=
  match a, b with
  | cinematic, cinematic | balanced, balanced | chase, chase => true
  | _, _ => false
  end.

(** [cameraPresets.find((preset) => preset.id === cameraPresetId) ?? cameraPresets[1]] *)
Definition cameraPresetOf (cameraPresetId : CameraPresetId) : CameraPreset :=
  match find (fun preset => presetIdEqb (id preset) cameraPresetId) cameraPresets with
  | Some preset => preset
  | None => nth 1 cameraPresets
              {| id := balanced; lookaheadMeters := 0; chaseMeters := 0; pitch := 0;
                 zoomBase := 0; zoomMin := 0; zoomMax := 0; bearingSmoothing := 0 |}
  end.

Record CameraState : Type := {
  cam_lon : Q;
  cam_lat : Q;
  cam_zoom : Q;
  cam_bearing : Q;
  cam_pitch : Q
}.

(** Two camera states hold the same numbers. *)
Definition sameCamera (a b : CameraState) : Prop :=
  cam_lon a == cam_lon b /\ cam_lat a == cam_lat b /\ cam_zoom a == cam_zoom b /\
  cam_bearing a == cam_bearing b /\ cam_pitch a == cam_pitch b.

(** The bearing smoother of [updateCameraAtProgress]:
<<
  const smoothedBearing = (() => {
    if (prevBearing === null) return rawBearing;
    const desired = (prevBearing +
        shortestAngleDiff(prevBearing, rawBearing) * cameraPreset.bearingSmoothing + 360) % 360;
    const turnStep = clamp(shortestAngleDiff(prevBearing, desired), -2.5, 2.5);
    return (prevBearing + turnStep + 360) % 360;
  })();
>> *)
Definition desiredBearing (prevBearing rawBearing smoothing : Q) : Q :=
  jsRem (prevBearing + shortestAngleDiff prevBearing rawBearing * smoothing + 360) 360.

Definition turnStep (prevBearing rawBearing smoothing : Q) : Q :=
  clamp (shortestAngleDiff prevBearing (desiredBearing prevBearing rawBearing smoothing))
        (-2.5) 2.5.

Definition smoothedBearing (prevBearing : option Q) (rawBearing smoothing : Q) : Q :=
  match prevBearing with
  | None => rawBearing
  | Some prevBearing =>
      jsRem (prevBearing + turnStep prevBearing rawBearing smoothing + 360) 360
  end.

(** ** The engine: the state of the [App] component *)

Inductive PlaybackState : Type := idle | playing | paused.

Definition isPlaying (p : PlaybackState) : bool :=
  match p with playing => true | _ => false end.

(** [Bounds], the bounding box of a track. *)
Record Bounds : Type := {
  minLat : Q;
  minLon : Q;
  maxLat : Q;
  maxLon : Q
}.

(** [TrackDetails]: of the summary [track] the engine reads [distanceM] and
    [bounds] only. *)
Record TrackDetails : Type := {
  distanceM : Q;
  bounds : Bounds;
  points : list TrackPoint
}.

(** One call [map.fitBounds([[west, south], [east, north]],
    { padding, maxZoom, duration, pitch, bearing })]. *)
Record FitBoundsCall : Type := {
  fit_southWest : Q * Q;
  fit_northEast : Q * Q;
  fit_padding : Q;
  fit_maxZoom : Q;
  fit_duration : Q;
  fit_pitch : Q;
  fit_bearing : Q
}.

(** The state cells ([useState]) and mutable references ([useRef]) the
    playback engine reads or writes.  [mapRef] tells whether the map object
    exists; [jumpToLog] records the poses passed to [map.jumpTo] and
    [fitBoundsLog] the calls of [map.fitBounds], newest first: the two
    calls by which the component moves the map's camera. *)
Record Engine : Type := {
  selectedDetails : option TrackDetails;
  playbackState : PlaybackState;
  progress : Q;
  speed : Q;
  zoomOffset : Q;
  cameraPresetId : CameraPresetId;
  mapRef : bool;
  playbackPointsRef : list TrackPoint;
  progressRef : Q;
  hasPlayedRef : bool;
  lastBearingRef : option Q;
  cameraStateRef : option CameraState;
  lastCameraUpdateMsRef : Q;
  lastFrameMsRef : option Q;
  lastUiFrameMsRef : option Q;
  jumpToLog : list CameraState;
  fitBoundsLog : list FitBoundsCall
}.

(** The state of a freshly mounted component. *)
Definition initialEngine (mapReady : bool) : Engine :=
  {| selectedDetails := None; playbackState := idle; progress := 0; speed := 2;
     zoomOffset := 0; cameraPresetId := cinematic; mapRef := mapReady;
     playbackPointsRef := []; progressRef := 0; hasPlayedRef := false;
     lastBearingRef := None; cameraStateRef := None; lastCameraUpdateMsRef := 0;
     lastFrameMsRef := None; lastUiFrameMsRef := None; jumpToLog := [];
     fitBoundsLog := [] |}.

(** *** Assignments to single cells *)

Definition setSelectedDetails (v : option TrackDetails) (s : Engine) : Engine :=
  {| selectedDetails := v; playbackState := playbackState s; progress := progress s;
     speed := speed s; zoomOffset := zoomOffset s; cameraPresetId := cameraPresetId s;
     mapRef := mapRef s; playbackPointsRef := playbackPointsRef s;
     progressRef := progressRef s; hasPlayedRef := hasPlayedRef s;
     lastBearingRef := lastBearingRef s; cameraStateRef := cameraStateRef s;
     lastCameraUpdateMsRef := lastCameraUpdateMsRef s;
     lastFrameMsRef := lastFrameMsRef s; lastUiFrameMsRef := lastUiFrameMsRef s;
     jumpToLog := jumpToLog s; fitBoundsLog := fitBoundsLog s |}.

Definition setPlaybackState (v : PlaybackState) (s : Engine) : Engine :=
  {| selectedDetails := selectedDetails s; playbackState := v; progress := progress s;
     speed := speed s; zoomOffset := zoomOffset s; cameraPresetId := cameraPresetId s;
     mapRef := mapRef s; playbackPointsRef := playbackPointsRef s;
     progressRef := progressRef s; hasPlayedRef := hasPlayedRef s;
     lastBearingRef := lastBearingRef s; cameraStateRef := cameraStateRef s;
     lastCameraUpdateMsRef := lastCameraUpdateMsRef s;
     lastFrameMsRef := lastFrameMsRef s; lastUiFrameMsRef := lastUiFrameMsRef s;
     jumpToLog := jumpToLog s; fitBoundsLog := fitBoundsLog s |}.

Definition setProgress (v : Q) (s : Engine) : Engine :=
  {| selectedDetails := selectedDetails s; playbackState := playbackState s; progress := v;
     speed := speed s; zoomOffset := zoomOffset s; cameraPresetId := cameraPresetId s;
     mapRef := mapRef s; playbackPointsRef := playbackPointsRef s;
     progressRef := progressRef s; hasPlayedRef := hasPlayedRef s;
     lastBearingRef := lastBearingRef s; cameraStateRef := cameraStateRef s;
     lastCameraUpdateMsRef := lastCameraUpdateMsRef s;
     lastFrameMsRef := lastFrameMsRef s; lastUiFrameMsRef := lastUiFrameMsRef s;
     jumpToLog := jumpToLog s; fitBoundsLog := fitBoundsLog s |}.

Definition setSpeed (v : Q) (s : Engine) : Engine :=
  {| selectedDetails := selectedDetails s; playbackState := playbackState s;
     progress := progress s; speed := v; zoomOffset := zoomOffset s;
     cameraPresetId := cameraPresetId s;
     mapRef := mapRef s; playbackPointsRef := playbackPointsRef s;
     progressRef := progressRef s; hasPlayedRef := hasPlayedRef s;
     lastBearingRef := lastBearingRef s; cameraStateRef := cameraStateRef s;
     lastCameraUpdateMsRef := lastCameraUpdateMsRef s;
     lastFrameMsRef := lastFrameMsRef s; lastUiFrameMsRef := lastUiFrameMsRef s;
     jumpToLog := jumpToLog s; fitBoundsLog := fitBoundsLog s |}.

Definition setZoomOffset (v : Q) (s : Engine) : Engine :=
  {| selectedDetails := selectedDetails s; playbackState := playbackState s;
     progress := progress s; speed := speed s; zoomOffset := v;
     cameraPresetId := cameraPresetId s;
     mapRef := mapRef s; playbackPointsRef := playbackPointsRef s;
     progressRef := progressRef s; hasPlayedRef := hasPlayedRef s;
     lastBearingRef := lastBearingRef s; cameraStateRef := cameraStateRef s;
     lastCameraUpdateMsRef := lastCameraUpdateMsRef s;
     lastFrameMsRef := lastFrameMsRef s; lastUiFrameMsRef := lastUiFrameMsRef s;
     jumpToLog := jumpToLog s; fitBoundsLog := fitBoundsLog s |}.

Definition setCameraPresetId (v : CameraPresetId) (s : Engine) : Engine :=
  {| selectedDetails := selectedDetails s; playbackState := playbackState s;
     progress := progress s; speed := speed s; zoomOffset := zoomOffset s;
     cameraPresetId := v;
     mapRef := mapRef s; playbackPointsRef := playbackPointsRef s;
     progressRef := progressRef s; hasPlayedRef := hasPlayedRef s;
     lastBearingRef := lastBearingRef s; cameraStateRef := cameraStateRef s;
     lastCameraUpdateMsRef := lastCameraUpdateMsRef s;
     lastFrameMsRef := lastFrameMsRef s; lastUiFrameMsRef := lastUiFrameMsRef s;
     jumpToLog := jumpToLog s; fitBoundsLog := fitBoundsLog s |}.

Definition setPlaybackPointsRef (v : list TrackPoint) (s : Engine) : Engine :=
  {| selectedDetails := selectedDetails s; playbackState := playbackState s;
     progress := progress s; speed := speed s; zoomOffset := zoomOffset s;
     cameraPresetId := cameraPresetId s;
     mapRef := mapRef s; playbackPointsRef := v;
     progressRef := progressRef s; hasPlayedRef := hasPlayedRef s;
     lastBearingRef := lastBearingRef s; cameraStateRef := cameraStateRef s;
     lastCameraUpdateMsRef := lastCameraUpdateMsRef s;
     lastFrameMsRef := lastFrameMsRef s; lastUiFrameMsRef := lastUiFrameMsRef s;
     jumpToLog := jumpToLog s; fitBoundsLog := fitBoundsLog s |}.

Definition setProgressRef (v : Q) (s : Engine) : Engine :=
  {| selectedDetails := selectedDetails s; playbackState := playbackState s;
     progress := progress s; speed := speed s; zoomOffset := zoomOffset s;
     cameraPresetId := cameraPresetId s;
     mapRef := mapRef s; playbackPointsRef := playbackPointsRef s;
     progressRef := v; hasPlayedRef := hasPlayedRef s;
     lastBearingRef := lastBearingRef s; cameraStateRef := cameraStateRef s;
     lastCameraUpdateMsRef := lastCameraUpdateMsRef s;
     lastFrameMsRef := lastFrameMsRef s; lastUiFrameMsRef := lastUiFrameMsRef s;
     jumpToLog := jumpToLog s; fitBoundsLog := fitBoundsLog s |}.

Definition setHasPlayedRef (v : bool) (s : Engine) : Engine :=
  {| selectedDetails := selectedDetails s; playbackState := playbackState s;
     progress := progress s; speed := speed s; zoomOffset := zoomOffset s;
     cameraPresetId := cameraPresetId s;
     mapRef := mapRef s; playbackPointsRef := playbackPointsRef s;
     progressRef := progressRef s; hasPlayedRef := v;
     lastBearingRef := lastBearingRef s; cameraStateRef := cameraStateRef s;
     lastCameraUpdateMsRef := lastCameraUpdateMsRef s;
     lastFrameMsRef := lastFrameMsRef s; lastUiFrameMsRef := lastUiFrameMsRef s;
     jumpToLog := jumpToLog s; fitBoundsLog := fitBoundsLog s |}.

Definition setLastBearingRef (v : option Q) (s : Engine) : Engine :=
  {| selectedDetails := selectedDetails s; playbackState := playbackState s;
     progress := progress s; speed := speed s; zoomOffset := zoomOffset s;
     cameraPresetId := cameraPresetId s;
     mapRef := mapRef s; playbackPointsRef := playbackPointsRef s;
     progressRef := progressRef s; hasPlayedRef := hasPlayedRef s;
     lastBearingRef := v; cameraStateRef := cameraStateRef s;
     lastCameraUpdateMsRef := lastCameraUpdateMsRef s;
     lastFrameMsRef := lastFrameMsRef s; lastUiFrameMsRef := lastUiFrameMsRef s;
     jumpToLog := jumpToLog s; fitBoundsLog := fitBoundsLog s |}.

Definition setCameraStateRef (v : option CameraState) (s : Engine) : Engine :=
  {| selectedDetails := selectedDetails s; playbackState := playbackState s;
     progress := progress s; speed := speed s; zoomOffset := zoomOffset s;
     cameraPresetId := cameraPresetId s;
     mapRef := mapRef s; playbackPointsRef := playbackPointsRef s;
     progressRef := progressRef s; hasPlayedRef := hasPlayedRef s;
     lastBearingRef := lastBearingRef s; cameraStateRef := v;
     lastCameraUpdateMsRef := lastCameraUpdateMsRef s;
     lastFrameMsRef := lastFrameMsRef s; lastUiFrameMsRef := lastUiFrameMsRef s;
     jumpToLog := jumpToLog s; fitBoundsLog := fitBoundsLog s |}.

Definition setLastCameraUpdateMsRef (v : Q) (s : Engine) : Engine :=
  {| selectedDetails := selectedDetails s; playbackState := playbackState s;
     progress := progress s; speed := speed s; zoomOffset := zoomOffset s;
     cameraPresetId := cameraPresetId s;
     mapRef := mapRef s; playbackPointsRef := playbackPointsRef s;
     progressRef := progressRef s; hasPlayedRef := hasPlayedRef s;
     lastBearingRef := lastBearingRef s; cameraStateRef := cameraStateRef s;
     lastCameraUpdateMsRef := v;
     lastFrameMsRef := lastFrameMsRef s; lastUiFrameMsRef := lastUiFrameMsRef s;
     jumpToLog := jumpToLog s; fitBoundsLog := fitBoundsLog s |}.

Definition setFrameRefs (frame ui : option Q) (s : Engine) : Engine :=
  {| selectedDetails := selectedDetails s; playbackState := playbackState s;
     progress := progress s; speed := speed s; zoomOffset := zoomOffset s;
     cameraPresetId := cameraPresetId s;
     mapRef := mapRef s; playbackPointsRef := playbackPointsRef s;
     progressRef := progressRef s; hasPlayedRef := hasPlayedRef s;
     lastBearingRef := lastBearingRef s; cameraStateRef := cameraStateRef s;
     lastCameraUpdateMsRef := lastCameraUpdateMsRef s;
     lastFrameMsRef := frame; lastUiFrameMsRef := ui;
     jumpToLog := jumpToLog s; fitBoundsLog := fitBoundsLog s |}.

(** [map.jumpTo({ center, bearing, pitch, zoom })] *)
Definition jumpTo (c : CameraState) (s : Engine) : Engine :=
  {| selectedDetails := selectedDetails s; playbackState := playbackState s;
     progress := progress s; speed := speed s; zoomOffset := zoomOffset s;
     cameraPresetId := cameraPresetId s;
     mapRef := mapRef s; playbackPointsRef := playbackPointsRef s;
     progressRef := progressRef s; hasPlayedRef := hasPlayedRef s;
     lastBearingRef := lastBearingRef s; cameraStateRef := cameraStateRef s;
     lastCameraUpdateMsRef := lastCameraUpdateMsRef s;
     lastFrameMsRef := lastFrameMsRef s; lastUiFrameMsRef := lastUiFrameMsRef s;
     jumpToLog := c :: jumpToLog s; fitBoundsLog := fitBoundsLog s |}.

(** [map.fitBounds(bounds, options)] *)
Definition fitBounds (call : FitBoundsCall) (s : Engine) : Engine :=
  {| selectedDetails := selectedDetails s; playbackState := playbackState s;
     progress := progress s; speed := speed s; zoomOffset := zoomOffset s;
     cameraPresetId := cameraPresetId s;
     mapRef := mapRef s; playbackPointsRef := playbackPointsRef s;
     progressRef := progressRef s; hasPlayedRef := hasPlayedRef s;
     lastBearingRef := lastBearingRef s; cameraStateRef := cameraStateRef s;
     lastCameraUpdateMsRef := lastCameraUpdateMsRef s;
     lastFrameMsRef := lastFrameMsRef s; lastUiFrameMsRef := lastUiFrameMsRef s;
     jumpToLog := jumpToLog s; fitBoundsLog := call :: fitBoundsLog s |}.

(** ** The engine: the handlers *)

(** [playbackPointsRef.current.length > 1 ? playbackPointsRef.current
                                          : details?.points ?? []] *)
Definition playbackPointsOf (s : Engine) : list TrackPoint :=
  if (1 <? length (playbackPointsRef s))%nat then playbackPointsRef s
  else match selectedDetails s with
       | Some details => points details
       | None => []
       end.

(** [const totalDistance =
       Math.max(playbackPoints[playbackPoints.length - 1].distanceFromStartM, 1)] *)
Definition totalDistanceOf (playbackPoints : list TrackPoint) : Q :=
  Math_max (distanceFromStartM (at_ playbackPoints (length playbackPoints - 1))) 1.

(** [const targetDistance = clamp(value, 0, 1) * totalDistance] *)
Definition targetDistanceOf (playbackPoints : list TrackPoint) (value : Q) : Q :=
  clamp value 0 1 * totalDistanceOf playbackPoints.

(** [const follow = playbackState === "playing" ? 0.14 : 0.28] *)
Definition followOf (p : PlaybackState) : Q :=
  if isPlaying p then 0.14 else 0.28.

(** The pose the camera is steered to, apart from the bearing: the position
    [lerp(current, behind, 0.74)], the clamped zoom and the preset's pitch. *)
Definition desiredLon (playbackPoints : list TrackPoint) (preset : CameraPreset)
    (value : Q) : Q :=
  let targetDistance := targetDistanceOf playbackPoints value in
  let current := interpolatePointAtDistance playbackPoints targetDistance in
  let behind :=
    interpolatePointAtDistance playbackPoints (targetDistance - chaseMeters preset) in
  lerp (i_lon current) (i_lon behind) 0.74.

Definition desiredLat (playbackPoints : list TrackPoint) (preset : CameraPreset)
    (value : Q) : Q :=
  let targetDistance := targetDistanceOf playbackPoints value in
  let current := interpolatePointAtDistance playbackPoints targetDistance in
  let behind :=
    interpolatePointAtDistance playbackPoints (targetDistance - chaseMeters preset) in
  lerp (i_lat current) (i_lat behind) 0.74.

Definition desiredZoom (preset : CameraPreset) (zoomOffset : Q) : Q :=
  clamp (zoomBase preset + zoomOffset) (zoomMin preset) (zoomMax preset).

(** [setZoomOffset((prev) => clamp(prev + 0.2, -1.5, 1.5))] and its mirror. *)
Definition zoomInStep (prev : Q) : Q := clamp (prev + 0.2) (-1.5) 1.5.
Definition zoomOutStep (prev : Q) : Q := clamp (prev - 0.2) (-1.5) 1.5.

Section Handlers.
Variable M : MathLib.

(** The raw bearing: the bearing from the camera point to the lookahead
    point, or the previous bearing when the two are closer than 5 m. *)
Definition rawBearingOf (playbackPoints : list TrackPoint) (preset : CameraPreset)
    (lastBearing : option Q) (value : Q) : Q :=
  let targetDistance := targetDistanceOf playbackPoints value in
  let current := interpolatePointAtDistance playbackPoints targetDistance in
  let lookahead :=
    interpolatePointAtDistance playbackPoints (targetDistance + lookaheadMeters preset) in
  let lookLon := i_lon lookahead in
  let lookLat := i_lat lookahead in
  let camLon := i_lon current in
  let camLat := i_lat current in
  let lookDistance := haversineMeters M camLat camLon lookLat lookLon in
  match lastBearing with
  | Some last => if Qltb lookDistance 5 then last
                 else bearingDeg M camLat camLon lookLat lookLon
  | None => bearingDeg M camLat camLon lookLat lookLon
  end.

(** The pose stored and sent to the map: the desired pose itself when
    there is no previous camera state, else the previous state moved
    towards it by [follow]. *)
Definition blendCamera (prevCamera : option CameraState) (follow : Q)
    (desiredLon desiredLat zoom smoothed desiredPitch : Q) : CameraState :=
  match prevCamera with
  | Some prevCamera =>
      {| cam_lon := lerp (cam_lon prevCamera) desiredLon follow;
         cam_lat := lerp (cam_lat prevCamera) desiredLat follow;
         cam_zoom := lerp (cam_zoom prevCamera) zoom follow;
         cam_bearing :=
           jsRem (cam_bearing prevCamera +
                  shortestAngleDiff (cam_bearing prevCamera) smoothed * follow +
                  360) 360;
         cam_pitch := lerp (cam_pitch prevCamera) desiredPitch follow |}
  | None =>
      {| cam_lon := desiredLon; cam_lat := desiredLat; cam_zoom := zoom;
         cam_bearing := smoothed; cam_pitch := desiredPitch |}
  end.

(** [updateCameraAtProgress(value, nowMs, force)].  The overlay drawing
    and the diagnostics it ends with do not touch the cells of [Engine]
    and are left out. *)
Definition updateCameraAtProgress (value nowMs : Q) (force : bool) (s : Engine)
    : Engine :=
  let playbackPoints := playbackPointsOf s in
  match selectedDetails s with
  | None => s
  | Some _ =>
    if negb (mapRef s) || (length playbackPoints <? 2)%nat then s
    else if negb force && Qltb (nowMs - lastCameraUpdateMsRef s) 16 then s
    else
      let cameraPreset := cameraPresetOf (cameraPresetId s) in
      let rawBearing :=
        rawBearingOf playbackPoints cameraPreset (lastBearingRef s) value in
      let smoothed :=
        smoothedBearing (lastBearingRef s) rawBearing (bearingSmoothing cameraPreset) in
      let smoothedCamera :=
        blendCamera (cameraStateRef s) (followOf (playbackState s))
          (desiredLon playbackPoints cameraPreset value)
          (desiredLat playbackPoints cameraPreset value)
          (desiredZoom cameraPreset (zoomOffset s))
          smoothed
          (pitch cameraPreset) in
      jumpTo smoothedCamera
        (setCameraStateRef (Some smoothedCamera)
           (setLastBearingRef (Some smoothed)
              (setLastCameraUpdateMsRef nowMs s)))
  end.

(** The playback effect is set up again whenever [playbackState],
    [selectedDetails], [speed], the preset or [zoomOffset] change; it
    clears the two frame references. *)
Definition resetFrames (s : Engine) : Engine := setFrameRefs None None s.

(** One animation frame, [tick(timestamp)]; frames are scheduled only
    while a track is loaded and the state is ["playing"]. *)
Definition tick (timestamp : Q) (s : Engine) : Engine :=
  match selectedDetails s with
  | None => s
  | Some details =>
    if negb (isPlaying (playbackState s)) then s
    else
      let baseDurationMs := clamp (distanceM details * 6) 25000 150000 in
      let lastFrame :=
        match lastFrameMsRef s with Some t => t | None => timestamp end in
      let delta := timestamp - lastFrame in
      let increment := delta / (baseDurationMs / speed s) in
      let next := clamp (progressRef s + increment) 0 1 in
      let s1 :=
        setProgressRef next (setFrameRefs (Some timestamp) (lastUiFrameMsRef s) s) in
      let s2 := updateCameraAtProgress next timestamp false s1 in
      let publish :=
        match lastUiFrameMsRef s2 with
        | None => true
        | Some lastUiFrame => Qltb 80 (timestamp - lastUiFrame) || Qleb 1 next
        end in
      let s3 :=
        if publish
        then setProgress next (setFrameRefs (lastFrameMsRef s2) (Some timestamp) s2)
        else s2 in
      if Qleb 1 next then resetFrames (setPlaybackState paused s3) else s3
  end.

(** [togglePlay], clicked at time [nowMs]. *)
Definition togglePlay (nowMs : Q) (s : Engine) : Engine :=
  match selectedDetails s with
  | None => s
  | Some _ =>
    if isPlaying (playbackState s) then resetFrames (setPlaybackState paused s)
    else
      let s1 :=
        if Qleb 1 (progress s)
        then updateCameraAtProgress 0 nowMs true
               (setLastBearingRef None (setProgressRef 0 (setProgress 0 s)))
        else s in
      let s2 := if Qltb (progress s) 1 then setProgressRef (progress s) s1 else s1 in
      resetFrames (setPlaybackState playing (setHasPlayedRef true s2))
  end.

(** [onScrub]: the slider is moved to [value] (0 to 100) at time [nowMs]. *)
Definition onScrub (value nowMs : Q) (s : Engine) : Engine :=
  let next := value / 100 in
  updateCameraAtProgress next nowMs true
    (setProgressRef next
       (setProgress next
          (setHasPlayedRef (hasPlayedRef s || Qltb 0 next) s))).

(** The effect on [zoomOffset] and [cameraPresetId]:
    [if (!selectedDetails) return;
     updateCameraAtProgress(progressRef.current, performance.now(), true)]. *)
Definition poseEffect (nowMs : Q) (s : Engine) : Engine :=
  updateCameraAtProgress (progressRef s) nowMs true s.

(** The zoom buttons.  A state cell set to the value it already holds
    causes no render, hence no effect. *)
Definition onZoomIn (nowMs : Q) (s : Engine) : Engine :=
  let next := zoomInStep (zoomOffset s) in
  if Qeqb next (zoomOffset s) then s
  else poseEffect nowMs (resetFrames (setZoomOffset next s)).

Definition onZoomOut (nowMs : Q) (s : Engine) : Engine :=
  let next := zoomOutStep (zoomOffset s) in
  if Qeqb next (zoomOffset s) then s
  else poseEffect nowMs (resetFrames (setZoomOffset next s)).

(** The preset selector: [lastBearingRef.current = null; setCameraPresetId(...)]. *)
Definition onPreset (presetId : CameraPresetId) (nowMs : Q) (s : Engine) : Engine :=
  if presetIdEqb presetId (cameraPresetId s) then setLastBearingRef None s
  else poseEffect nowMs
         (resetFrames (setCameraPresetId presetId (setLastBearingRef None s))).

(** The speed selector. *)
Definition onSpeed (multiplier : Q) (s : Engine) : Engine :=
  if Qeqb multiplier (speed s) then s else resetFrames (setSpeed multiplier s).

(** The call of [map.fitBounds] in the effect on [selectedDetails]: the
    track's bounding box, seen at pitch 68 and bearing 0. *)
Definition fitBoundsOf (details : TrackDetails) : FitBoundsCall :=
  let b := bounds details in
  {| fit_southWest := (minLon b, minLat b);
     fit_northEast := (maxLon b, maxLat b);
     fit_padding := 40;
     fit_maxZoom := 14;
     fit_duration := 0;
     fit_pitch := 68;
     fit_bearing := 0 |}.

(** A track is selected and its details arrive: the effects on
    [selectedTrackId] and on [selectedDetails].  With a map, the second
    one fits the map to the track's bounds, whatever the number of
    points, and then asks for a camera update. *)
Definition onTrackLoaded (details : TrackDetails) (nowMs : Q) (s : Engine) : Engine :=
  let s1 :=
    setCameraStateRef None
      (setLastBearingRef None
         (setHasPlayedRef false
            (setProgressRef 0
               (setProgress 0 (resetFrames (setPlaybackState idle s)))))) in
  let smoothed := playbackSequence (points details) 1800 in
  let s2 := setPlaybackPointsRef smoothed (setSelectedDetails (Some details) s1) in
  if mapRef s2
  then
    let s3 := fitBounds (fitBoundsOf details) s2 in
    updateCameraAtProgress (progressRef s3) nowMs false (setLastBearingRef None s3)
  else s2.

(** What the user and the host can do to the engine. *)
Inductive Event : Type :=
| TrackLoaded (details : TrackDetails) (nowMs : Q)
| TogglePlay (nowMs : Q)
| Frame (timestamp : Q)
| Scrub (value nowMs : Q)
| ZoomIn (nowMs : Q)
| ZoomOut (nowMs : Q)
| Preset (presetId : CameraPresetId) (nowMs : Q)
| Speed (multiplier : Q).

Definition step (s : Engine) (e : Event) : Engine :=
  match e with
  | TrackLoaded details nowMs => onTrackLoaded details nowMs s
  | TogglePlay nowMs => togglePlay nowMs s
  | Frame timestamp => tick timestamp s
  | Scrub value nowMs => onScrub value nowMs s
  | ZoomIn nowMs => onZoomIn nowMs s
  | ZoomOut nowMs => onZoomOut nowMs s
  | Preset presetId nowMs => onPreset presetId nowMs s
  | Speed multiplier => onSpeed multiplier s
  end.

Definition run (s : Engine) (events : list Event) : Engine :=
  fold_left step events s.
End Handlers.

(** Every track an event loads has fewer than two points. *)
Definition loadsShortTracks (e : Event) : Prop :=
  match e with
  | TrackLoaded details _ => (length (points details) < 2)%nat
  | _ => True
  end.

(** The calls of [map.fitBounds] a sequence of events makes on an engine
    with a map, added to [log], newest first: one for every track loaded. *)
Fixpoint fitBoundsCalls (events : list Event) (log : list FitBoundsCall)
    : list FitBoundsCall :=
  match events with
  | [] => log
  | TrackLoaded details _ :: rest => fitBoundsCalls rest (fitBoundsOf details :: log)
  | _ :: rest => fitBoundsCalls rest log
  end.

(** An inhabitant of [MathLib] for running the engine on concrete inputs: a
    crude small-angle stand-in.  Every theorem below quantifies over the
    [MathLib]; the concrete runs read only results that do not depend on it. *)
Definition smallAngleMath : MathLib :=
  {| Math_PI := 3.141592653589793;
     Math_sin := fun x => x;
     Math_cos := fun x => 1 - x * x / 2;
     Math_sqrt := fun x => (x + 1) / 2;
     Math_atan2 := fun y x => if Qeqb x 0 then 0 else y / x |}.

(** ** The specification's words, for comparison with the code *)

(** "The nearest original sample": the sample whose distance from the start
    is closest to the target distance (the first one among equally close
    ones). *)
Definition nearestSample (points : list TrackPoint) (targetDistance : Q) : TrackPoint :=
  fold_left
    (fun best p =>
       if Qltb (Qabs (distanceFromStartM p - targetDistance))
               (Qabs (distanceFromStartM best - targetDistance))
       then p else best)
    (tl points) (at_ points 0).

(** A sequence's distances never decrease. *)
Fixpoint nondecreasingFrom (prev : Q) (rest : list TrackPoint) : bool :=
  match rest with
  | [] => true
  | p :: rest' =>
      Qleb prev (distanceFromStartM p) && nondecreasingFrom (distanceFromStartM p) rest'
  end.

Definition nondecreasing (points : list TrackPoint) : bool :=
  match points with
  | [] => true
  | p :: rest => nondecreasingFrom (distanceFromStartM p) rest
  end.

(** A sequence's distances strictly increase. *)
Fixpoint increasingFrom (prev : Q) (rest : list TrackPoint) : bool :=
  match rest with
  | [] => true
  | p :: rest' =>
      Qltb prev (distanceFromStartM p) && increasingFrom (distanceFromStartM p) rest'
  end.

Definition increasing (points : list TrackPoint) : bool :=
  match points with
  | [] => true
  | p :: rest => increasingFrom (distanceFromStartM p) rest
  end.

(** Two positions hold the same numbers. *)
Definition samePosition (aLat aLon bLat bLon : Q) : Prop :=
  aLat == bLat /\ aLon == bLon.

(** ** Sample inputs *)

Definition point (lat lon : Q) (ele : option Q) (d : Q) : TrackPoint :=
  {| lat := lat; lon := lon; ele := ele; time := None; distanceFromStartM := d |}.

(** The three-point track of the specification's end-to-end scenario: one
    point every 1112 m along the equator. *)
Definition threePoints : list TrackPoint :=
  [ point 0 0 (Some 10) 0; point 0 0.01 (Some 20) 1112; point 0 0.02 (Some 30) 2224 ].

(** Two points 0.05 mm apart along the route. *)
Definition hairWidth : list TrackPoint :=
  [ point 0 0 None 0; point 1 1 None 0.00005 ].

(** A walk of half a metre. *)
Definition halfMetre : list TrackPoint :=
  [ point 0 0 None 0; point 0 0.000002 None 0.25; point 0 0.000004 None 0.5 ].

(** A track whose last two samples are recorded at the same distance. *)
Definition stalledEnd : list TrackPoint :=
  [ point 0 0 None 0; point 1 1 None 10; point 2 2 None 10 ].

(** A track of one point. *)
Definition onePoint : TrackDetails :=
  {| distanceM := 0;
     bounds := {| minLat := 0; minLon := 0; maxLat := 0; maxLon := 0 |};
     points := [ point 0 0 None 0 ] |}.

Definition threePointTrack : TrackDetails :=
  {| distanceM := 2224;
     bounds := {| minLat := 0; minLon := 0; maxLat := 0; maxLon := 0.02 |};
     points := threePoints |}.

(** The timestamps of successive animation frames never decrease (the host's
    clock is monotonic): [start <= t1 <= t2 <= ...]. *)
Fixpoint ascendingFrom (start : Q) (timestamps : list Q) : bool :=
  match timestamps with
  | [] => true
  | t :: rest => Qleb start t && ascendingFrom t rest
  end.

(** [const baseDurationMs = clamp(details.track.distanceM * 6, 25_000, 150_000)] *)
Definition baseDurationMs (details : TrackDetails) : Q :=
  clamp (distanceM details * 6) 25000 150000.

(** The zoom and pitch ranges the three presets span together. *)
Definition poseInRange (c : CameraState) : Prop :=
  (11.5 <= cam_zoom c <= 14.5) /\ (62 <= cam_pitch c <= 72).

(** A compass bearing. *)
Definition bearingInRange (bearing : Q) : Prop := 0 <= bearing < 360.

(** What the engine needs of the host's [Math.atan2] and [Math.PI]: the
    angle returned lies in [[-PI, PI]]. *)
Definition atan2InRange (M : MathLib) : Prop :=
  0 < Math_PI M /\
  forall y x : Q, - Math_PI M <= Math_atan2 M y x <= Math_PI M.

(** An inhabitant of [MathLib] with [atan2InRange], for concrete runs: as
    [smallAngleMath], with the angle cut to [[-PI, PI]]. *)
Definition boundedMath : MathLib :=
  {| Math_PI := 3.141592653589793;
     Math_sin := fun x => x;
     Math_cos := fun x => 1 - x * x / 2;
     Math_sqrt := fun x => (x + 1) / 2;
     Math_atan2 := fun y x =>
       clamp (if Qeqb x 0 then 0 else y / x) (-3.141592653589793) 3.141592653589793 |}.

(** A 10 km track of two points. *)
Definition tenKilometres : TrackDetails :=
  {| distanceM := 10000;
     bounds := {| minLat := 0; minLon := 0; maxLat := 0; maxLon := 0.09 |};
     points := [ point 0 0 None 0; point 0 0.09 None 10000 ] |}.

(** A straight track of 400 points, 10 m apart. *)
Definition longTrack : list TrackPoint :=
  map (fun i => point 0 (ofNat i / 10000) None (ofNat i * 10)) (seq 0 400).

(** A straight track of 2000 points, 1 m apart, the elevation of each point
    its number: long enough to be resampled under the cap 1800 of the
    playback. *)
Definition denseTrack : list TrackPoint :=
  map (fun i => point 0 (ofNat i / 100000) (Some (ofNat i)) (ofNat i)) (seq 0 2000).

(** * The GPX parser of the backend ([gpx.ts])

    [parseGpx] turns an uploaded file into the points the engine above
    plays.  The XML parser is a library; the model starts from what
    [parseGpx] reads of its result: the [trkpt] elements of all track
    segments ([trackPointsRaw]) and the [rtept] elements of the route
    ([routePointsRaw]).  A raw point carries the results of
    [toFiniteNumber] on its [lat], [lon] and [ele] ([None] for [null]) and
    its [time] when that is a string.  The track name, which [parseGpx]
    picks from three places, is left out. *)
Module Gpx.

Import String.StringSyntax.
#[local] Delimit Scope string_scope with string.

Record RawPoint : Type := {
raw_lat : option Q;
raw_lon : option Q;
raw_ele : option Q;
raw_time : option String.string
}.

(** The running minima and maxima start at [Number.POSITIVE_INFINITY] and
  [Number.NEGATIVE_INFINITY]. *)
Inductive Extended : Type :=
| NegativeInfinity
| Finite (q : Q)
| PositiveInfinity.

(** [Math.min(running, x)] and [Math.max(running, x)] for a finite [x]. *)
Definition ext_min (running : Extended) (x : Q) : Extended :=
match running with
| PositiveInfinity => Finite x
| Finite q => Finite (Math_min q x)
| NegativeInfinity => NegativeInfinity
end.

Definition ext_max (running : Extended) (x : Q) : Extended :=
match running with
| NegativeInfinity => Finite x
| Finite q => Finite (Math_max q x)
| PositiveInfinity => PositiveInfinity
end.

(** [Number.isFinite(v) ? v : null] *)
Definition finiteOrNull (v : Extended) : option Q :=
match v with
| Finite q => Some q
| _ => None
end.

Record Bounds : Type := {
minLat : Extended;
minLon : Extended;
maxLat : Extended;
maxLon : Extended
}.

Record ParsedGpx : Type := {
points : list TrackPoint;
distanceM : Q;
minEleM : option Q;
maxEleM : option Q;
bounds : Bounds
}.

(** [parseGpx] returns or throws an [Error] with a message. *)
Inductive Result : Type :=
| Ok (parsed : ParsedGpx)
| Error (message : String.string).

(** The variables of the loop over the raw points. *)
Record Loop : Type := {
acc_distanceM : Q;
acc_bounds : Bounds;
acc_minEleM : Extended;
acc_maxEleM : Extended;
acc_points : list TrackPoint
}.

Definition start : Loop :=
{| acc_distanceM := 0;
   acc_bounds := {| minLat := PositiveInfinity; minLon := PositiveInfinity;
                    maxLat := NegativeInfinity; maxLon := NegativeInfinity |};
   acc_minEleM := PositiveInfinity;
   acc_maxEleM := NegativeInfinity;
   acc_points := [] |}.

(** [trackPointsRaw.length > 0 ? trackPointsRaw : routePointsRaw] *)
Definition rawPointsOf (trackPointsRaw routePointsRaw : list RawPoint) : list RawPoint :=
match trackPointsRaw with
| [] => routePointsRaw
| _ :: _ => trackPointsRaw
end.

Section Parser.
Variable M : MathLib.

(** The backend's copy of the great-circle distance. *)
Definition haversineMeters (lat1 lon1 lat2 lon2 : Q) : Q :=
  let R := 6371000 in
  let dLat := toRad M (lat2 - lat1) in
  let dLon := toRad M (lon2 - lon1) in
  let a :=
Math_sin M (dLat / 2) ^ 2 +
Math_cos M (toRad M lat1) * Math_cos M (toRad M lat2) * Math_sin M (dLon / 2) ^ 2 in
  let c := 2 * Math_atan2 M (Math_sqrt M a) (Math_sqrt M (1 - a)) in
  R * c.

(** One turn of [for (const raw of rawPoints)]: a raw point without a
finite latitude or longitude is skipped; any other is pushed with the
distance travelled so far, the first one with 0. *)
Definition visit (st : Loop) (raw : RawPoint) : Loop :=
  match raw_lat raw, raw_lon raw with
  | Some lat_, Some lon_ =>
  let eleValue := raw_ele raw in
  let distanceM_ :=
    match acc_points st with
    | [] => acc_distanceM st
    | first :: rest =>
        let prev := last rest first in
        acc_distanceM st + haversineMeters (lat prev) (lon prev) lat_ lon_
    end in
  let point :=
    {| lat := lat_; lon := lon_; ele := eleValue; time := raw_time raw;
       distanceFromStartM := distanceM_ |} in
  {| acc_distanceM := distanceM_;
     acc_bounds :=
       {| minLat := ext_min (minLat (acc_bounds st)) lat_;
          minLon := ext_min (minLon (acc_bounds st)) lon_;
          maxLat := ext_max (maxLat (acc_bounds st)) lat_;
          maxLon := ext_max (maxLon (acc_bounds st)) lon_ |};
     acc_minEleM :=
       match eleValue with
       | Some e => ext_min (acc_minEleM st) e
       | None => acc_minEleM st
       end;
     acc_maxEleM :=
       match eleValue with
       | Some e => ext_max (acc_maxEleM st) e
       | None => acc_maxEleM st
       end;
     acc_points := acc_points st ++ [point] |}
  | _, _ => st
  end.

Definition parseGpx (trackPointsRaw routePointsRaw : list RawPoint) : Result :=
  let rawPoints := rawPointsOf trackPointsRaw routePointsRaw in
  if (length rawPoints <? 2)%nat
  then Error "GPX must contain at least 2 points."%string
  else
let st := fold_left visit rawPoints start in
if (length (acc_points st) <? 2)%nat
then Error "GPX must contain at least 2 valid latitude/longitude points."%string
else
  Ok {| points := acc_points st;
        distanceM := acc_distanceM st;
        minEleM := finiteOrNull (acc_minEleM st);
        maxEleM := finiteOrNull (acc_maxEleM st);
        bounds := acc_bounds st |}.

End Parser.

(** A raw point with a finite latitude and longitude. *)
Definition hasCoordinates (raw : RawPoint) : bool :=
match raw_lat raw, raw_lon raw with
| Some _, Some _ => true
| _, _ => false
end.

(** A parsed point carries the numbers of a raw point. *)
Definition carries (p : TrackPoint) (raw : RawPoint) : Prop :=
raw_lat raw = Some (lat p) /\ raw_lon raw = Some (lon p) /\
raw_ele raw = ele p /\ raw_time raw = time p.

(** A finite bound that is at most, or at least, [x]. *)
Definition below (bound : Extended) (x : Q) : Prop :=
match bound with
| Finite q => q <= x
| _ => False
end.

Definition above (bound : Extended) (x : Q) : Prop :=
match bound with
| Finite q => x <= q
| _ => False
end.

(** A point lies in a bounding box. *)
Definition inBounds (b : Bounds) (p : TrackPoint) : Prop :=
below (minLat b) (lat p) /\ above (maxLat b) (lat p) /\
below (minLon b) (lon p) /\ above (maxLon b) (lon p).

(** The elevations of the points that have one lie between the reported
  minimum and maximum, and there is no minimum or maximum exactly when no
  point has an elevation. *)
Definition elevationsWithin (lo hi : option Q) (pts : list TrackPoint) : Prop :=
match lo, hi with
| Some l, Some h =>
    Forall (fun p => forall e, ele p = Some e -> l <= e <= h) pts /\
    Exists (fun p => ele p <> None) pts
| None, None => Forall (fun p => ele p = None) pts
| _, _ => False
end.

End Gpx.

(** What the distances need of the host: a square root is not negative,
    and [atan2(y, x)] is not negative when [y] is not. *)
Definition distanceMath (M : MathLib) : Prop :=
  (forall x : Q, 0 <= Math_sqrt M x) /\
  (forall y x : Q, 0 <= y -> 0 <= Math_atan2 M y x).

(** An inhabitant of [MathLib] with [distanceMath], for concrete runs. *)
Definition flatMath : MathLib :=
  {| Math_PI := 3.141592653589793;
     Math_sin := fun x => x;
     Math_cos := fun _ => 1;
     Math_sqrt := fun x => Qabs x;
     Math_atan2 := fun y _ => y |}.

(** Four raw track points, the second without a longitude. *)
Definition rawTrack : list Gpx.RawPoint :=
  [ {| Gpx.raw_lat := Some 54; Gpx.raw_lon := Some (-2); Gpx.raw_ele := Some 120;
       Gpx.raw_time := None |};
    {| Gpx.raw_lat := Some 54.001; Gpx.raw_lon := None; Gpx.raw_ele := Some 900;
       Gpx.raw_time := None |};
    {| Gpx.raw_lat := Some 54.002; Gpx.raw_lon := Some (-2.001); Gpx.raw_ele := None;
       Gpx.raw_time := None |};
    {| Gpx.raw_lat := Some 54.001; Gpx.raw_lon := Some (-2.003); Gpx.raw_ele := Some 95;
       Gpx.raw_time := None |} ].

(** The value [parseGpx] returns, for a run that is known to return. *)
Definition parsedOf (r : Gpx.Result) : Gpx.ParsedGpx :=
  match r with
  | Gpx.Ok parsed => parsed
  | Gpx.Error _ =>
      {| Gpx.points := []; Gpx.distanceM := 0; Gpx.minEleM := None; Gpx.maxEleM := None;
         Gpx.bounds := Gpx.acc_bounds Gpx.start |}
  end.

(** The invariants of the parser's loop.  On the distances: the first point
    is at 0, the running distance is the last point's, and each point is
    one great-circle step further than the one before. *)
Definition distancesChained (M : MathLib) (st : Gpx.Loop) : Prop :=
  let pts := Gpx.acc_points st in
  (pts = [] -> Gpx.acc_distanceM st = 0) /\
  (pts <> [] ->
   distanceFromStartM (at_ pts 0) = 0 /\
   distanceFromStartM (at_ pts (length pts - 1)) = Gpx.acc_distanceM st) /\
  (forall i, (S i < length pts)%nat ->
     distanceFromStartM (at_ pts (S i))
     = distanceFromStartM (at_ pts i)
       + Gpx.haversineMeters M (lat (at_ pts i)) (lon (at_ pts i))
           (lat (at_ pts (S i))) (lon (at_ pts (S i)))).

(** On the bounding box: no side has run off to the wrong infinity, and
    the points so far lie inside. *)
Definition boxed (st : Gpx.Loop) : Prop :=
  let b := Gpx.acc_bounds st in
  (Gpx.minLat b <> Gpx.NegativeInfinity /\ Gpx.minLon b <> Gpx.NegativeInfinity /\
   Gpx.maxLat b <> Gpx.PositiveInfinity /\ Gpx.maxLon b <> Gpx.PositiveInfinity) /\
  Forall (Gpx.inBounds b) (Gpx.acc_points st).

(** On the elevations: the running minimum and maximum are both still
    infinite and no point has an elevation, or both are finite and enclose
    the elevations seen. *)
Definition elevationsTracked (st : Gpx.Loop) : Prop :=
  match Gpx.acc_minEleM st, Gpx.acc_maxEleM st with
  | Gpx.PositiveInfinity, Gpx.NegativeInfinity =>
      Forall (fun p => ele p = None) (Gpx.acc_points st)
  | Gpx.Finite l, Gpx.Finite h =>
      Forall (fun p => forall e, ele p = Some e -> l <= e <= h) (Gpx.acc_points st) /\
      Exists (fun p => ele p <> None) (Gpx.acc_points st)
  | _, _ => False
  end.

(** * The arithmetic of the code on binary64

    The definitions above compute with exact rationals.  The program
    computes with IEEE 754 binary64 numbers, and where a property depends
    on how a sum or a product is rounded the two differ.  This module
    embeds the numeric helpers of [App.tsx] a second time, on Rocq's
    primitive floats (binary64, round to nearest even, as JavaScript), to
    run them on concrete inputs.  The theorems of this file are stated so
    that they do not depend on the rounding: they speak of comparisons,
    clamps, indices and of the code's own expressions. *)
Module Binary64.

Import PrimFloat FloatOps SpecFloat.
#[local] Set Warnings "-inexact-float".
#[local] Open Scope float_scope.

(** [Math.max] and [Math.min] of two numbers: [NaN] if either is [NaN],
  and [+0] is larger than [-0]. *)
Definition Math_max (a b : float) : float :=
if is_nan a || is_nan b then nan
else if a <? b then b
else if b <? a then a
else if get_sign a then b else a.

Definition Math_min (a b : float) : float :=
if is_nan a || is_nan b then nan
else if a <? b then a
else if b <? a then b
else if get_sign a then a else b.

(** [const clamp = (value, min, max) => Math.min(Math.max(value, min), max)] *)
Definition clamp (value min max : float) : float := Math_min (Math_max value min) max.

(** [const lerp = (a, b, t) => a + (b - a) * t] *)
Definition lerp (a b t : float) : float := a + (b - a) * t.

(** The [%] operator: the exact remainder of the division truncated
  towards zero, with the sign of the dividend; it is always a binary64
  number, so nothing is rounded.  [NaN] for an infinite dividend or a
  zero divisor; the dividend itself for an infinite divisor. *)
Definition jsRem (a b : float) : float :=
match Prim2SF a, Prim2SF b with
| S754_nan, _ => nan
| _, S754_nan => nan
| S754_infinity _, _ => nan
| _, S754_zero _ => nan
| S754_zero _, _ => a
| S754_finite _ _ _, S754_infinity _ => a
| S754_finite sa ma ea, S754_finite _ mb eb =>
    let e := Z.min ea eb in
    let dividend := (Zpos ma * 2 ^ (ea - e))%Z in
    let divisor := (Zpos mb * 2 ^ (eb - e))%Z in
    match (dividend mod divisor)%Z with
    | Zpos r => SF2Prim (S754_finite sa r e)
    | _ => if sa then neg_zero else zero
    end
end.

(** [const shortestAngleDiff = (from, to) => ((to - from + 540) % 360) - 180] *)
Definition shortestAngleDiff (from to : float) : float :=
jsRem (to - from + 540) 360 - 180.

(** The bearing smoother of [updateCameraAtProgress], as [smoothedBearing]
  above. *)
Definition desiredBearing (prevBearing rawBearing smoothing : float) : float :=
jsRem (prevBearing + shortestAngleDiff prevBearing rawBearing * smoothing + 360) 360.

Definition turnStep (prevBearing rawBearing smoothing : float) : float :=
clamp (shortestAngleDiff prevBearing (desiredBearing prevBearing rawBearing smoothing))
      (-2.5) 2.5.

Definition smoothedBearing (prevBearing : option float) (rawBearing smoothing : float)
  : float :=
match prevBearing with
| None => rawBearing
| Some prevBearing =>
    jsRem (prevBearing + turnStep prevBearing rawBearing smoothing + 360) 360
end.

(** The distance of the [i]-th sample of [buildPlaybackPoints]:
  [Math.min(totalDistance, i * interval)] with
  [interval = totalDistance / (targetCount - 1)]. *)
Definition targetDistanceAt (totalDistance targetCount i : float) : float :=
let interval := totalDistance / (targetCount - 1) in
Math_min totalDistance (i * interval).

End Binary64.
Lemma Qltb_spec (a b : Q) : BoolSpec (a < b) (b <= a) (Qltb a b).
Proof.
  unfold Qltb, Qlt, Qle.
  destruct (Z.ltb_spec (Qnum a * QDen b) (Qnum b * QDen a)); constructor; lia.
Qed.

Lemma Qleb_spec (a b : Q) : BoolSpec (a <= b) (b < a) (Qleb a b).
Proof.
  unfold Qleb, Qlt, Qle.
  destruct (Z.leb_spec (Qnum a * QDen b) (Qnum b * QDen a)); constructor; lia.
Qed.

Lemma Qeqb_spec (a b : Q) : BoolSpec (a == b) (~ a == b) (Qeqb a b).
Proof.
  unfold Qeqb, Qeq.
  destruct (Z.eqb_spec (Qnum a * QDen b) (Qnum b * QDen a)); constructor; lia.
Qed.

(** Case analysis on the comparisons that [Math.min], [Math.max] and [clamp]
    hide, leaving linear arithmetic. *)
Ltac no_cmp t :=
  lazymatch t with
  | context [Qltb _ _] => fail
  | context [Qleb _ _] => fail
  | context [Qeqb _ _] => fail
  | _ => idtac
  end.
Ltac qcmp :=
  repeat match goal with
         | |- context [Qltb ?a ?b] => no_cmp a; no_cmp b; destruct (Qltb_spec a b)
         | |- context [Qleb ?a ?b] => no_cmp a; no_cmp b; destruct (Qleb_spec a b)
         | |- context [Qeqb ?a ?b] => no_cmp a; no_cmp b; destruct (Qeqb_spec a b)
         end.
Ltac qminmax := unfold clamp, Math_min, Math_max in *; qcmp; try lra.

Lemma Math_max_ge_l a b : a <= Math_max a b.
Proof. qminmax. Qed.
Lemma Math_max_ge_r a b : b <= Math_max a b.
Proof. qminmax. Qed.
Lemma clamp_bounds v lo hi : lo <= hi -> lo <= clamp v lo hi <= hi.
Proof. intros; qminmax. Qed.
Lemma clamp_id v lo hi : lo <= v <= hi -> clamp v lo hi == v.
Proof. intros; qminmax. Qed.
Lemma clamp_low v lo hi : v <= lo -> lo <= hi -> clamp v lo hi == lo.
Proof. intros; qminmax. Qed.
Lemma clamp_high v lo hi : hi <= v -> lo <= hi -> clamp v lo hi == hi.
Proof. intros; qminmax. Qed.

#[global] Instance Math_max_Proper : Proper (Qeq ==> Qeq ==> Qeq) Math_max.
Proof. intros a a' Ha b b' Hb. unfold Math_max. qcmp; lra. Qed.
#[global] Instance Math_min_Proper : Proper (Qeq ==> Qeq ==> Qeq) Math_min.
Proof. intros a a' Ha b b' Hb. unfold Math_min. qcmp; lra. Qed.
#[global] Instance clamp_Proper : Proper (Qeq ==> Qeq ==> Qeq ==> Qeq) clamp.
Proof. intros a a' Ha b b' Hb c c' Hc. unfold clamp. now rewrite Ha, Hb, Hc. Qed.
#[global] Instance lerp_Proper : Proper (Qeq ==> Qeq ==> Qeq ==> Qeq) lerp.
Proof. intros a a' Ha b b' Hb c c' Hc. unfold lerp. now rewrite Ha, Hb, Hc. Qed.

Lemma lerp_0 a b t : t == 0 -> lerp a b t == a.
Proof. intros H; unfold lerp; rewrite H; ring. Qed.
Lemma lerp_1 a b t : t == 1 -> lerp a b t == b.
Proof. intros H; unfold lerp; rewrite H; ring. Qed.

(** *** The remainder on a non-negative dividend *)

Lemma Qtrunc_nonneg q : 0 <= q -> Qtrunc q = Qfloor q.
Proof.
  destruct q as [n d]; unfold Qtrunc, Qfloor, Qle; simpl; intros H.
  apply Z.quot_div_nonneg; lia.
Qed.

Lemma jsRem_nonneg a b :
  0 <= a -> 0 < b ->
  0 <= jsRem a b < b /\
  exists k : Z, (0 <= k)%Z /\ jsRem a b == a - b * inject_Z k.
Proof.
  intros Ha Hb. unfold jsRem.
  assert (Hq : 0 <= a / b).
  { apply Qle_shift_div_l; lra. }
  rewrite (Qtrunc_nonneg _ Hq).
  pose proof (Qfloor_le (a / b)) as Hlo.
  pose proof (Qlt_floor (a / b)) as Hhi.
  rewrite inject_Z_plus in Hhi. change (inject_Z 1) with 1 in Hhi.
  set (k := inject_Z (Qfloor (a / b))) in *.
  assert (Hab : a == (a / b) * b) by (field; lra).
  split; [split|].
  - assert (k * b <= (a / b) * b) by (apply Qmult_le_compat_r; lra). lra.
  - assert ((a / b) * b < (k + 1) * b) by (apply Qmult_lt_compat_r; lra). lra.
  - exists (Qfloor (a / b)). split; [|reflexivity].
    change 0%Z with (Qfloor 0). apply Qfloor_resp_le. exact Hq.
Qed.

(** A value already in [[0, b)] is its own remainder after adding [b]. *)
Lemma jsRem_unique a b r (k : Z) :
  0 <= a -> 0 < b -> 0 <= r < b -> a == r + b * inject_Z k -> jsRem a b == r.
Proof.
  intros Ha Hb Hr Hk.
  destruct (jsRem_nonneg a b Ha Hb) as [[H0 H1] [k' [_ Hk']]].
  assert (E : b * inject_Z (k - k') == jsRem a b - r).
  { unfold Z.sub. rewrite inject_Z_plus, inject_Z_opp. lra. }
  assert (Hz : (k - k' = 0)%Z).
  { destruct (Z.lt_trichotomy (k - k') 0) as [Hn|[He|Hp]]; [exfalso|exact He|exfalso].
    - assert (inject_Z (k - k') <= -1).
      { change (-1) with (inject_Z (-1)). rewrite <- Zle_Qle. lia. }
      assert (b * inject_Z (k - k') <= b * -1) by (apply Qmult_le_l; lra). lra.
    - assert (1 <= inject_Z (k - k')).
      { change 1 with (inject_Z 1). rewrite <- Zle_Qle. lia. }
      assert (b * 1 <= b * inject_Z (k - k')) by (apply Qmult_le_l; lra). lra. }
  rewrite Hz in E. change (inject_Z 0) with 0 in E. lra.
Qed.

(** * Properties *)

(** ** Angles *)

Lemma shortestAngleDiff_spec (from to : Q) :
  -540 <= to - from ->
  -180 <= shortestAngleDiff from to < 180 /\
  exists k : Z, shortestAngleDiff from to == to - from + 360 * inject_Z k.
Proof.
  intros H. unfold shortestAngleDiff.
  destruct (jsRem_nonneg (to - from + 540) 360) as [[H0 H1] [k [_ Hk]]]; try lra.
  split; [lra|].
  exists (1 - k)%Z. unfold Z.sub. rewrite inject_Z_plus, inject_Z_opp.
  change (inject_Z 1) with 1. lra.
Qed.

(** A difference that is already the short way round is returned as it is. *)
Lemma shortestAngleDiff_short (from to delta : Q) (k : Z) :
  -540 <= to - from -> -180 <= delta < 180 ->
  to - from == delta + 360 * inject_Z k ->
  shortestAngleDiff from to == delta.
Proof.
  intros H Hd Hk. unfold shortestAngleDiff.
  rewrite (jsRem_unique (to - from + 540) 360 (delta + 180) (k + 1)); try lra.
  rewrite inject_Z_plus. change (inject_Z 1) with 1. lra.
Qed.

Lemma shortestAngleDiff_350_10 : shortestAngleDiff 350 10 == 20.
Proof. reflexivity. Qed.

Lemma shortestAngleDiff_10_350 : shortestAngleDiff 10 350 == -20.
Proof. reflexivity. Qed.

(** C7, as the code has it: for bearings no more than 540 degrees apart
    ([to - from >= -540], which covers all pairs of bearings in [[0, 360)]),
    [shortestAngleDiff from to] is the signed shortest rotation from [from]
    to [to]: it differs from [to - from] by a whole number of turns and lies
    in the half-open interval [[-180, 180)], closed at -180 and open at 180;
    [shortestAngleDiff 350 10 = 20] and [shortestAngleDiff 10 350 = -20]. *)
Theorem shortestAngleDiff_signed_shortest (from to : Q) :
  -540 <= to - from ->
  (-180 <= shortestAngleDiff from to < 180) /\
  (exists k : Z, shortestAngleDiff from to == to - from + 360 * inject_Z k) /\
  shortestAngleDiff 350 10 == 20 /\
  shortestAngleDiff 10 350 == -20.
Proof.
  intros H. destruct (shortestAngleDiff_spec from to H) as [Hr Hk].
  split; [exact Hr|]. split; [exact Hk|].
  split; [exact shortestAngleDiff_350_10 | exact shortestAngleDiff_10_350].
Qed.

Lemma shortestAngleDiff_signed_shortest_witness :
  -540 <= 90 - 270 /\
  (-180 <= shortestAngleDiff 270 90 < 180) /\
  (exists k : Z, shortestAngleDiff 270 90 == 90 - 270 + 360 * inject_Z k) /\
  shortestAngleDiff 350 10 == 20 /\
  shortestAngleDiff 10 350 == -20.
Proof.
  split; [lra | apply (shortestAngleDiff_signed_shortest 270 90); lra].
Defined.

(** C7 as stated fails: a half turn is reported as -180, which is outside
    the interval (-180, 180] of the claim. *)
Lemma shortestAngleDiff_half_turn :
  shortestAngleDiff 0 180 == -180 /\
  ~ (-180 < shortestAngleDiff 0 180 <= 180).
Proof.
  assert (E : shortestAngleDiff 0 180 == -180) by reflexivity.
  split; [exact E|]. rewrite E. lra.
Qed.

(** ** The bearing smoother *)

Lemma turnStep_bounds (prev raw smoothing : Q) :
  -2.5 <= turnStep prev raw smoothing <= 2.5.
Proof. unfold turnStep. apply clamp_bounds. lra. Qed.

Lemma smoothedBearing_range (prev raw smoothing : Q) :
  0 <= prev < 360 ->
  0 <= smoothedBearing (Some prev) raw smoothing < 360.
Proof.
  intros Hp. pose proof (turnStep_bounds prev raw smoothing) as Ht. simpl.
  apply jsRem_nonneg; lra.
Qed.

(** In exact arithmetic the stored bearing is exactly the turn step away
    from the previous one. *)
Lemma smoothedBearing_step (prev raw smoothing : Q) :
  0 <= prev < 360 ->
  shortestAngleDiff prev (smoothedBearing (Some prev) raw smoothing)
  == turnStep prev raw smoothing.
Proof.
  intros Hp. pose proof (turnStep_bounds prev raw smoothing) as Ht.
  pose proof (smoothedBearing_range prev raw smoothing Hp) as Hr.
  simpl in *.
  set (ts := turnStep prev raw smoothing) in *.
  destruct (jsRem_nonneg (prev + ts + 360) 360) as [_ [k [_ Hk]]]; try lra.
  apply (shortestAngleDiff_short _ _ _ (1 - k)); try lra.
  unfold Z.sub. rewrite inject_Z_plus, inject_Z_opp. change (inject_Z 1) with 1.
  lra.
Qed.



(** ** Progress values and [NaN] *)

Lemma JsNumber_clamp_finite (value lo hi : Q) :
  JsNumber.clamp (JsNumber.Num value) (JsNumber.Num lo) (JsNumber.Num hi)
  = JsNumber.Num (clamp value lo hi).
Proof. reflexivity. Qed.

Lemma JsNumber_targetDistance_finite (value total : Q) :
  JsNumber.targetDistance (JsNumber.Num value) (JsNumber.Num total)
  = JsNumber.Num (clamp value 0 1 * total).
Proof. reflexivity. Qed.

(** C1, as the code has it: every progress value that is a real number, in
    or out of range, is clamped into [[0, 1]] before use, and the target
    distance of the camera update is that clamped value times the total
    length (the value [targetDistanceOf] computes).  [NaN] is not clamped:
    [Math.max] and [Math.min] return [NaN], and so is the target distance. *)
Theorem progress_clamped_unless_NaN (value : Q) (playbackPoints : list TrackPoint) :
  (exists c : Q,
     JsNumber.clamp (JsNumber.Num value) (JsNumber.Num 0) (JsNumber.Num 1)
     = JsNumber.Num c /\
     0 <= c <= 1 /\
     JsNumber.targetDistance (JsNumber.Num value)
       (JsNumber.Num (totalDistanceOf playbackPoints))
     = JsNumber.Num (c * totalDistanceOf playbackPoints) /\
     targetDistanceOf playbackPoints value = c * totalDistanceOf playbackPoints /\
     0 <= targetDistanceOf playbackPoints value <= totalDistanceOf playbackPoints) /\
  JsNumber.clamp JsNumber.NaN (JsNumber.Num 0) (JsNumber.Num 1) = JsNumber.NaN /\
  JsNumber.targetDistance JsNumber.NaN (JsNumber.Num (totalDistanceOf playbackPoints))
  = JsNumber.NaN.
Proof.
  split; [|split; reflexivity].
  exists (clamp value 0 1).
  assert (Hc : 0 <= clamp value 0 1 <= 1) by (apply clamp_bounds; lra).
  assert (Ht : 1 <= totalDistanceOf playbackPoints) by apply Math_max_ge_r.
  split; [reflexivity|]. split; [exact Hc|]. split; [reflexivity|].
  split; [reflexivity|]. unfold targetDistanceOf. split.
  - apply Qmult_le_0_compat; lra.
  - assert (clamp value 0 1 * totalDistanceOf playbackPoints
            <= 1 * totalDistanceOf playbackPoints)
      by (apply Qmult_le_compat_r; lra).
    lra.
Qed.

(** C1 as stated fails at [NaN]: the clamped progress is [NaN], not a number
    of [[0, 1]], and the target distance on a 1000 m route is [NaN]. *)
Lemma progress_NaN_not_clamped :
  ~ JsNumber.within 0 1
      (JsNumber.clamp JsNumber.NaN (JsNumber.Num 0) (JsNumber.Num 1)) /\
  JsNumber.targetDistance JsNumber.NaN (JsNumber.Num 1000) = JsNumber.NaN.
Proof. split; [intros H; exact H | reflexivity]. Qed.

(** ** Sequences of track points *)


Lemma nondecreasingFrom_bound (l : list TrackPoint) :
  forall prev j, nondecreasingFrom prev l = true -> (j < length l)%nat ->
                 prev <= distanceFromStartM (at_ l j).
Proof.
  unfold at_. induction l as [|p l IH]; simpl; intros prev j H Hj; [lia|].
  apply andb_prop in H as [H1 H2].
  destruct (Qleb_spec prev (distanceFromStartM p)) as [Hle|]; [|discriminate].
  destruct j as [|j]; [exact Hle|].
  apply Qle_trans with (distanceFromStartM p); [exact Hle|]. apply IH; [exact H2|lia].
Qed.

Lemma nondecreasingFrom_tail (l : list TrackPoint) :
  forall prev, nondecreasingFrom prev l = true -> nondecreasing l = true.
Proof.
  destruct l as [|p l]; simpl; intros prev H; [reflexivity|].
  apply andb_prop in H as [_ H]. exact H.
Qed.

Lemma nondecreasing_le (l : list TrackPoint) :
  nondecreasing l = true ->
  forall i j, (i <= j < length l)%nat -> distanceFromStartM (at_ l i) <= distanceFromStartM (at_ l j).
Proof.
  induction l as [|p l IH]; intros H i j Hij; [simpl in Hij; lia|].
  simpl in H, Hij. destruct i as [|i], j as [|j]; try lia.
  - apply Qle_refl.
  - apply (nondecreasingFrom_bound l (distanceFromStartM p) j H). lia.
  - apply (IH (nondecreasingFrom_tail l _ H) i j). lia.
Qed.

Lemma increasingFrom_bound (l : list TrackPoint) :
  forall prev j, increasingFrom prev l = true -> (j < length l)%nat ->
                 prev < distanceFromStartM (at_ l j).
Proof.
  unfold at_. induction l as [|p l IH]; simpl; intros prev j H Hj; [lia|].
  apply andb_prop in H as [H1 H2].
  destruct (Qltb_spec prev (distanceFromStartM p)) as [Hlt|]; [|discriminate].
  destruct j as [|j]; [exact Hlt|].
  apply Qlt_trans with (distanceFromStartM p); [exact Hlt|]. apply IH; [exact H2|lia].
Qed.

Lemma increasingFrom_tail (l : list TrackPoint) :
  forall prev, increasingFrom prev l = true -> increasing l = true.
Proof.
  destruct l as [|p l]; simpl; intros prev H; [reflexivity|].
  apply andb_prop in H as [_ H]. exact H.
Qed.

Lemma increasing_lt (l : list TrackPoint) :
  increasing l = true ->
  forall i j, (i < j < length l)%nat -> distanceFromStartM (at_ l i) < distanceFromStartM (at_ l j).
Proof.
  induction l as [|p l IH]; intros H i j Hij; [simpl in Hij; lia|].
  simpl in H, Hij. destruct i as [|i], j as [|j]; try lia.
  - apply (increasingFrom_bound l (distanceFromStartM p) j H). lia.
  - apply (IH (increasingFrom_tail l _ H) i j). lia.
Qed.

Lemma increasing_nondecreasing (l : list TrackPoint) :
  increasing l = true -> nondecreasing l = true.
Proof.
  destruct l as [|p l]; [reflexivity|]. simpl. revert p.
  induction l as [|q l IH]; simpl; intros p H; [reflexivity|].
  apply andb_prop in H as [H1 H2]. rewrite (IH q H2), andb_true_r.
  destruct (Qltb_spec (distanceFromStartM p) (distanceFromStartM q)); [|discriminate].
  destruct (Qleb_spec (distanceFromStartM p) (distanceFromStartM q)); [reflexivity|lra].
Qed.

(** ** The binary search *)

Lemma mid_bounds (low high : nat) :
  (low < high)%nat -> (low <= (low + high) / 2 < high)%nat.
Proof.
  intros H. split.
  - apply Nat.div_le_lower_bound; lia.
  - apply Nat.Div0.div_lt_upper_bound; lia.
Qed.

(** The search stays between its bounds, so every [points[mid]] and the
    indices derived from the result are in range. *)
Lemma lowerBound_range (fuel : nat) (points : list TrackPoint) (target : Q) :
  forall low high, (low <= high)%nat ->
    (low <= lowerBound fuel points target low high <= high)%nat.
Proof.
  induction fuel as [|fuel IH]; cbn [lowerBound]; intros low high H; [lia|].
  destruct (Nat.ltb_spec low high) as [Hlt|]; [|lia].
  pose proof (mid_bounds low high Hlt) as Hm.
  set (mid := ((low + high) / 2)%nat) in *.
  destruct (Qltb _ target).
  - assert (Hle : (mid + 1 <= high)%nat) by lia.
    pose proof (IH (mid + 1)%nat high Hle). lia.
  - assert (Hle : (low <= mid)%nat) by lia.
    pose proof (IH low mid Hle). lia.
Qed.

(** The loop has ended after [high - low] iterations: more fuel changes
    nothing. *)
Lemma lowerBound_fuel (points : list TrackPoint) (target : Q) (fuel : nat) :
  forall extra low high, (high - low <= fuel)%nat ->
    lowerBound (fuel + extra) points target low high
    = lowerBound fuel points target low high.
Proof.
  induction fuel as [|fuel IH]; intros extra low high H.
  - cbn [lowerBound Nat.add]. destruct extra; cbn [lowerBound]; [reflexivity|].
    destruct (Nat.ltb_spec low high); [lia|reflexivity].
  - cbn [lowerBound Nat.add]. destruct (Nat.ltb_spec low high) as [Hlt|]; [|reflexivity].
    pose proof (mid_bounds low high Hlt) as Hm.
    destruct (Qltb _ target); apply IH; lia.
Qed.

(** When the loop ends the bounds have met. *)
Lemma lowerBound_exit (points : list TrackPoint) (target : Q) (fuel : nat) :
  forall low high, (low <= high)%nat -> (high - low <= fuel)%nat ->
    lowerBound 1 points target
      (lowerBound fuel points target low high)
      (lowerBound fuel points target low high)
    = lowerBound fuel points target low high.
Proof. intros. cbn [lowerBound]. now rewrite Nat.ltb_irrefl. Qed.

(** No sample below [high] lies before the target: the search returns [low]. *)
Lemma lowerBound_all_ge (fuel : nat) (points : list TrackPoint) (target : Q) (low : nat) :
  forall high,
    (forall i, (i < high)%nat -> target <= distanceFromStartM (at_ points i)) ->
    lowerBound fuel points target low high = low.
Proof.
  induction fuel as [|fuel IH]; cbn [lowerBound]; intros high H; [reflexivity|].
  destruct (Nat.ltb_spec low high) as [Hlt|]; [|reflexivity].
  pose proof (mid_bounds low high Hlt) as Hm.
  destruct (Qltb_spec (distanceFromStartM (at_ points ((low + high) / 2))) target) as [Hc|Hc].
  - assert (target <= distanceFromStartM (at_ points ((low + high) / 2)))
      by (apply H; lia).
    lra.
  - apply IH. intros i Hi. apply H. lia.
Qed.

(** Every sample from [low] up to [high] lies before the target: the search
    returns [high]. *)
Lemma lowerBound_all_lt (fuel : nat) (points : list TrackPoint) (target : Q) (high : nat) :
  forall low,
    (low <= high)%nat -> (high - low <= fuel)%nat ->
    (forall i, (low <= i < high)%nat -> distanceFromStartM (at_ points i) < target) ->
    lowerBound fuel points target low high = high.
Proof.
  induction fuel as [|fuel IH]; cbn [lowerBound]; intros low Hle Hf H; [lia|].
  destruct (Nat.ltb_spec low high) as [Hlt|]; [|lia].
  pose proof (mid_bounds low high Hlt) as Hm.
  destruct (Qltb_spec (distanceFromStartM (at_ points ((low + high) / 2))) target) as [Hc|Hc].
  - apply IH; try lia. intros i Hi. apply H. lia.
  - assert (distanceFromStartM (at_ points ((low + high) / 2)) < target)
      by (apply H; lia).
    lra.
Qed.

(** ** The distance index *)

Lemma interpolate_long (points : list TrackPoint) (targetDistanceM : Q) :
  (2 <= length points)%nat ->
  interpolatePointAtDistance points targetDistanceM
  = let maxDistance := distanceFromStartM (at_ points (length points - 1)) in
    let target := clamp targetDistanceM 0 (Math_max maxDistance 0) in
    let low := lowerBound (length points) points target 0 (length points - 1) in
    let rightIndex := clampIndex low 1 (length points - 1) in
    let leftIndex := (rightIndex - 1)%nat in
    let left := at_ points leftIndex in
    let right := at_ points rightIndex in
    let span := Math_max (distanceFromStartM right - distanceFromStartM left) 0.0001 in
    let t := clamp ((target - distanceFromStartM left) / span) 0 1 in
    {| i_lat := lerp (lat left) (lat right) t;
       i_lon := lerp (lon left) (lon right) t;
       index := leftIndex |}.
Proof.
  intros H. unfold interpolatePointAtDistance.
  destruct (Nat.eqb_spec (length points) 0); [lia|].
  destruct (Nat.eqb_spec (length points) 1); [lia|]. reflexivity.
Qed.

(** The index of the result is a valid index, and so is its successor when
    the sequence has two points or more. *)
Lemma index_in_range (points : list TrackPoint) (targetDistanceM : Q) :
  (index (interpolatePointAtDistance points targetDistanceM) <= length points - 2)%nat /\
  ((1 <= length points)%nat ->
   (index (interpolatePointAtDistance points targetDistanceM) < length points)%nat).
Proof.
  destruct (Nat.le_gt_cases 2 (length points)) as [H|H].
  - rewrite (interpolate_long _ _ H). simpl. unfold clampIndex. lia.
  - unfold interpolatePointAtDistance.
    destruct (Nat.eqb_spec (length points) 0); [simpl; lia|].
    destruct (Nat.eqb_spec (length points) 1); [simpl; lia|lia].
Qed.

(** The lookup at a distance of 0 or less, when no sample lies before 0. *)
Lemma interpolate_at_start (points : list TrackPoint) (targetDistanceM : Q) :
  (2 <= length points)%nat ->
  (forall i, (i < length points)%nat -> 0 <= distanceFromStartM (at_ points i)) ->
  distanceFromStartM (at_ points 0) == 0 ->
  targetDistanceM <= 0 ->
  let r := interpolatePointAtDistance points targetDistanceM in
  i_lat r == lat (at_ points 0) /\ i_lon r == lon (at_ points 0) /\ index r = 0%nat.
Proof.
  intros Hn Hpos H0 Ht. rewrite (interpolate_long _ _ Hn). cbv zeta.
  set (maxDistance := distanceFromStartM (at_ points (length points - 1))).
  set (target := clamp targetDistanceM 0 (Math_max maxDistance 0)).
  assert (Htarget : target == 0).
  { unfold target. apply clamp_low; [exact Ht|]. apply Math_max_ge_r. }
  rewrite lowerBound_all_ge.
  2:{ intros i Hi. rewrite Htarget. apply Hpos. lia. }
  replace (clampIndex 0 1 (length points - 1)) with 1%nat by (unfold clampIndex; lia).
  simpl.
  set (span := Math_max (distanceFromStartM (at_ points 1) - distanceFromStartM (at_ points 0)) 0.0001).
  assert (Hspan : 0 < span).
  { pose proof (Math_max_ge_r (distanceFromStartM (at_ points 1) - distanceFromStartM (at_ points 0)) 0.0001).
    fold span in H. lra. }
  assert (Hq : (target - distanceFromStartM (at_ points 0)) / span == 0).
  { rewrite Htarget, H0. field. lra. }
  assert (Hc : clamp ((target - distanceFromStartM (at_ points 0)) / span) 0 1 == 0).
  { rewrite Hq. reflexivity. }
  split; [|split]; [apply lerp_0; exact Hc | apply lerp_0; exact Hc | reflexivity].
Qed.

(** The lookup at the total length or beyond, when the last sample is the
    only one that far: it is made on the last segment, at the fraction 1
    when the segment is no shorter than the floor 0.0001 of the span, and
    at the fraction segment / 0.0001 otherwise. *)
Lemma interpolate_last_segment (points : list TrackPoint) (targetDistanceM : Q) :
  (2 <= length points)%nat ->
  (forall i, (i < length points - 1)%nat ->
             distanceFromStartM (at_ points i) < distanceFromStartM (at_ points (length points - 1))) ->
  0 <= distanceFromStartM (at_ points (length points - 1)) ->
  distanceFromStartM (at_ points (length points - 1)) <= targetDistanceM ->
  let r := interpolatePointAtDistance points targetDistanceM in
  let left := at_ points (length points - 2) in
  let right := at_ points (length points - 1) in
  let segment := distanceFromStartM right - distanceFromStartM left in
  index r = (length points - 2)%nat /\
  (0.0001 <= segment ->
   i_lat r == lerp (lat left) (lat right) 1 /\
   i_lon r == lerp (lon left) (lon right) 1) /\
  (segment < 0.0001 ->
   i_lat r == lerp (lat left) (lat right) (segment / 0.0001) /\
   i_lon r == lerp (lon left) (lon right) (segment / 0.0001)).
Proof.
  intros Hn Hlt Hpos Ht. rewrite (interpolate_long _ _ Hn). cbv zeta.
  set (maxDistance := distanceFromStartM (at_ points (length points - 1))) in *.
  set (target := clamp targetDistanceM 0 (Math_max maxDistance 0)).
  assert (Hmax : Math_max maxDistance 0 == maxDistance) by (unfold Math_max; qcmp; lra).
  assert (Htarget : target == maxDistance).
  { unfold target. rewrite Hmax. apply clamp_high; lra. }
  rewrite lowerBound_all_lt; try lia.
  2:{ intros i Hi. rewrite Htarget. apply Hlt. lia. }
  replace (clampIndex (length points - 1) 1 (length points - 1))
    with (length points - 1)%nat by (unfold clampIndex; lia).
  replace (length points - 1 - 1)%nat with (length points - 2)%nat by lia.
  fold maxDistance.
  assert (Hseg0 : distanceFromStartM (at_ points (length points - 2)) < maxDistance)
    by (apply Hlt; lia).
  set (dl := distanceFromStartM (at_ points (length points - 2))) in *.
  cbn [index i_lat i_lon].
  split; [reflexivity|]. split.
  - intros Hseg.
    assert (Hspan : Math_max (maxDistance - dl) 0.0001 == maxDistance - dl)
      by (unfold Math_max; qcmp; lra).
    assert (Hq : (target - dl) / Math_max (maxDistance - dl) 0.0001 == 1).
    { rewrite Hspan, Htarget. field. lra. }
    assert (Hc : clamp ((target - dl) / Math_max (maxDistance - dl) 0.0001) 0 1 == 1).
    { rewrite Hq. reflexivity. }
    split; rewrite Hc; apply Qeq_refl.
  - intros Hseg.
    assert (Hspan : Math_max (maxDistance - dl) 0.0001 == 0.0001)
      by (unfold Math_max; qcmp; lra).
    assert (Hq : (target - dl) / Math_max (maxDistance - dl) 0.0001
                 == (maxDistance - dl) / 0.0001).
    { rewrite Hspan, Htarget. apply Qeq_refl. }
    assert (Hr : 0 <= (maxDistance - dl) / 0.0001 <= 1).
    { split; [apply Qle_shift_div_l; lra | apply Qle_shift_div_r; lra]. }
    assert (Hc : clamp ((target - dl) / Math_max (maxDistance - dl) 0.0001) 0 1
                 == (maxDistance - dl) / 0.0001).
    { rewrite Hq. apply clamp_id. exact Hr. }
    split; rewrite Hc; apply Qeq_refl.
Qed.

(** C5, as the code has it: for every sequence of two points or more whose
    distances strictly increase from 0, the lookup at distance 0 returns
    the first point's position, and the lookup at the total length is made
    on the last segment: at the fraction 1 when that segment is at least
    0.0001 long (the floor the code puts under the span of a segment), so
    that the result is [lerp(left, right, 1)], which is the last point's
    position in exact arithmetic and can differ from it in the last digit
    on binary64; and at the fraction segment / 0.0001, below 1, when the
    segment is shorter, so that the result stops short of the last
    point. *)
Theorem distance_index_boundaries (points : list TrackPoint) :
  (2 <= length points)%nat ->
  increasing points = true ->
  distanceFromStartM (at_ points 0) == 0 ->
  let atStart := interpolatePointAtDistance points 0 in
  let atEnd :=
    interpolatePointAtDistance points
      (distanceFromStartM (at_ points (length points - 1))) in
  let left := at_ points (length points - 2) in
  let right := at_ points (length points - 1) in
  let segment := distanceFromStartM right - distanceFromStartM left in
  samePosition (i_lat atStart) (i_lon atStart) (lat (at_ points 0)) (lon (at_ points 0)) /\
  index atStart = 0%nat /\
  index atEnd = (length points - 2)%nat /\
  (0.0001 <= segment ->
   samePosition (i_lat atEnd) (i_lon atEnd)
     (lerp (lat left) (lat right) 1) (lerp (lon left) (lon right) 1)) /\
  (segment < 0.0001 ->
   segment / 0.0001 < 1 /\
   samePosition (i_lat atEnd) (i_lon atEnd)
     (lerp (lat left) (lat right) (segment / 0.0001))
     (lerp (lon left) (lon right) (segment / 0.0001))).
Proof.
  intros Hn Hinc H0 atStart atEnd left right segment.
  pose proof (nondecreasing_le points (increasing_nondecreasing _ Hinc)) as Hle.
  pose proof (increasing_lt points Hinc) as Hlt.
  assert (Hpos : forall i, (i < length points)%nat -> 0 <= distanceFromStartM (at_ points i)).
  { intros i Hi. rewrite <- H0. apply Hle. lia. }
  destruct (interpolate_at_start points 0 Hn Hpos H0 (Qle_refl 0)) as [A [B C]].
  fold atStart in A, B, C.
  assert (Hlast : forall i, (i < length points - 1)%nat ->
                    distanceFromStartM (at_ points i)
                    < distanceFromStartM (at_ points (length points - 1)))
    by (intros i Hi; apply Hlt; lia).
  assert (Hpos' : 0 <= distanceFromStartM (at_ points (length points - 1)))
    by (apply Hpos; lia).
  destruct (interpolate_last_segment points
              (distanceFromStartM (at_ points (length points - 1)))
              Hn Hlast Hpos' (Qle_refl _)) as [D [E F]].
  fold atEnd left right segment in D, E, F.
  split; [split; [exact A|exact B]|]. split; [exact C|]. split; [exact D|].
  split.
  - intros Hseg. destruct (E Hseg) as [E1 E2]. split; [exact E1|exact E2].
  - intros Hseg. destruct (F Hseg) as [F1 F2].
    split; [apply Qlt_shift_div_r; lra|]. split; [exact F1|exact F2].
Qed.

(** Closed numeric side conditions at concrete inputs. *)
Ltac concrete :=
  first [ reflexivity
        | lia
        | lra
        | vm_compute; first [ reflexivity | lia | discriminate
                            | intuition discriminate ] ].

Lemma distance_index_boundaries_witness :
  let atStart := interpolatePointAtDistance threePoints 0 in
  let atEnd :=
    interpolatePointAtDistance threePoints
      (distanceFromStartM (at_ threePoints (length threePoints - 1))) in
  let left := at_ threePoints (length threePoints - 2) in
  let right := at_ threePoints (length threePoints - 1) in
  let segment := distanceFromStartM right - distanceFromStartM left in
  samePosition (i_lat atStart) (i_lon atStart)
    (lat (at_ threePoints 0)) (lon (at_ threePoints 0)) /\
  index atStart = 0%nat /\
  index atEnd = (length threePoints - 2)%nat /\
  (0.0001 <= segment ->
   samePosition (i_lat atEnd) (i_lon atEnd)
     (lerp (lat left) (lat right) 1) (lerp (lon left) (lon right) 1)) /\
  (segment < 0.0001 ->
   segment / 0.0001 < 1 /\
   samePosition (i_lat atEnd) (i_lon atEnd)
     (lerp (lat left) (lat right) (segment / 0.0001))
     (lerp (lon left) (lon right) (segment / 0.0001))).
Proof.
  apply (distance_index_boundaries threePoints); concrete.
Defined.

(** C5 as stated fails: the two points of [hairWidth] are 0.05 mm apart, the
    distances strictly increase from 0, and the lookup at the total length
    returns the midpoint (0.5, 0.5), not the last point (1, 1). *)
Lemma distance_index_short_last_segment :
  (2 <= length hairWidth)%nat /\
  increasing hairWidth = true /\
  distanceFromStartM (at_ hairWidth 0) == 0 /\
  distanceFromStartM (at_ hairWidth 1) == 0.00005 /\
  i_lat (interpolatePointAtDistance hairWidth 0.00005) == 0.5 /\
  i_lon (interpolatePointAtDistance hairWidth 0.00005) == 0.5 /\
  lat (at_ hairWidth 1) == 1 /\
  lon (at_ hairWidth 1) == 1.
Proof. repeat split; concrete. Qed.

(** ** The resampler *)

Lemma at_map {A : Type} (f : A -> TrackPoint) (l : list A) (a : A) (i : nat) :
  (i < length l)%nat -> at_ (map f l) i = f (nth i l a).
Proof.
  intros H. unfold at_.
  rewrite (nth_indep (map f l) noPoint (f a)) by (rewrite length_map; exact H).
  apply map_nth.
Qed.

Lemma length_mapi {A B : Type} (f : A -> nat -> B) (l : list A) :
  length (mapi f l) = length l.
Proof.
  unfold mapi. rewrite length_map, length_combine, length_seq. apply Nat.min_id.
Qed.

Lemma at_mapi (f : TrackPoint -> nat -> TrackPoint) (l : list TrackPoint) (i : nat) :
  (i < length l)%nat -> at_ (mapi f l) i = f (at_ l i) i.
Proof.
  intros H. unfold mapi.
  rewrite (at_map _ _ (0%nat, noPoint)) by (rewrite length_combine, length_seq; lia).
  rewrite combine_nth by apply length_seq.
  rewrite seq_nth by exact H. reflexivity.
Qed.

Lemma buildPlaybackPoints_short (points : list TrackPoint) (maxPoints : nat) :
  (length points <= 2)%nat \/ (length points <= maxPoints)%nat ->
  buildPlaybackPoints points maxPoints = points.
Proof.
  intros H. unfold buildPlaybackPoints.
  destruct (Nat.leb_spec (length points) 2); [reflexivity|].
  destruct (Nat.leb_spec (length points) maxPoints); [reflexivity|lia].
Qed.

Lemma buildPlaybackPoints_long (points : list TrackPoint) (maxPoints : nat) :
  (2 < length points)%nat -> (maxPoints < length points)%nat ->
  buildPlaybackPoints points maxPoints
  = map (sampleAt points maxPoints) (seq 0 (Nat.max 300 maxPoints)).
Proof.
  intros H2 Hm. unfold buildPlaybackPoints.
  destruct (Nat.leb_spec (length points) 2); [lia|].
  destruct (Nat.leb_spec (length points) maxPoints); [lia|]. reflexivity.
Qed.

Lemma buildPlaybackPoints_length (points : list TrackPoint) (maxPoints : nat) :
  (length (buildPlaybackPoints points maxPoints) <= Nat.max maxPoints 300)%nat /\
  ((2 < length points)%nat -> (maxPoints < length points)%nat ->
   length (buildPlaybackPoints points maxPoints) = Nat.max 300 maxPoints).
Proof.
  destruct (Nat.le_gt_cases (length points) 2) as [H2|H2].
  { rewrite buildPlaybackPoints_short by (left; exact H2). lia. }
  destruct (Nat.le_gt_cases (length points) maxPoints) as [Hm|Hm].
  { rewrite buildPlaybackPoints_short by (right; exact Hm). lia. }
  rewrite (buildPlaybackPoints_long _ _ H2 Hm), length_map, length_seq. lia.
Qed.

Lemma buildPlaybackPoints_at (points : list TrackPoint) (maxPoints i : nat) :
  (2 < length points)%nat -> (maxPoints < length points)%nat ->
  (i < Nat.max 300 maxPoints)%nat ->
  at_ (buildPlaybackPoints points maxPoints) i = sampleAt points maxPoints i.
Proof.
  intros H2 Hm Hi. rewrite (buildPlaybackPoints_long _ _ H2 Hm).
  rewrite (at_map _ _ 0%nat) by (rewrite length_seq; exact Hi).
  rewrite seq_nth by exact Hi. reflexivity.
Qed.

Lemma smoothPlaybackPoints_length (points : list TrackPoint) (radius : Z) :
  length (smoothPlaybackPoints points radius) = length points.
Proof.
  unfold smoothPlaybackPoints.
  destruct (_ || _); [reflexivity|apply length_mapi].
Qed.

(** Smoothing leaves the two end points as they are, and everywhere the
    elevation, the time and the distance. *)
Lemma smoothPlaybackPoints_at (points : list TrackPoint) (radius : Z) (i : nat) :
  (i < length points)%nat ->
  let p := at_ points i in
  let q := at_ (smoothPlaybackPoints points radius) i in
  ele q = ele p /\ time q = time p /\ distanceFromStartM q = distanceFromStartM p /\
  (i = 0%nat \/ i = (length points - 1)%nat -> q = p).
Proof.
  intros Hi p q. unfold q, p, smoothPlaybackPoints.
  destruct (_ || _); [repeat split; reflexivity|].
  rewrite at_mapi by exact Hi.
  destruct (Nat.eqb_spec i 0) as [E0|N0]; simpl orb.
  { repeat split; reflexivity. }
  destruct (Nat.eqb_spec i (length points - 1)) as [E1|N1].
  { repeat split; reflexivity. }
  destruct (fold_left _ _ _) as [[latSum lonSum] wSum]. simpl.
  repeat split; try reflexivity. intros [E|E]; contradiction.
Qed.

Lemma playbackSequence_length (points : list TrackPoint) (maxPoints : nat) :
  length (playbackSequence points maxPoints)
  = length (buildPlaybackPoints points maxPoints).
Proof. apply smoothPlaybackPoints_length. Qed.

Lemma ofNat_ge_300 (maxPoints : nat) : 300 <= ofNat (Nat.max 300 maxPoints).
Proof.
  unfold ofNat. change 300 with (inject_Z 300). rewrite <- Zle_Qle. lia.
Qed.

Lemma sampleAt_first_distance (points : list TrackPoint) (maxPoints : nat) :
  distanceFromStartM (sampleAt points maxPoints 0) == 0.
Proof.
  unfold sampleAt. cbn [distanceFromStartM].
  set (total := Math_max _ 1).
  assert (1 <= total) by apply Math_max_ge_r.
  assert (E : ofNat 0 * (total / (ofNat (Nat.max 300 maxPoints) - 1)) == 0).
  { unfold ofNat. simpl. change (inject_Z 0) with 0. ring. }
  rewrite E. unfold Math_min. qcmp; lra.
Qed.

Lemma smoothPlaybackPoints_ends (points : list TrackPoint) (radius : Z) :
  at_ (smoothPlaybackPoints points radius) 0 = at_ points 0 /\
  at_ (smoothPlaybackPoints points radius) (length points - 1)
  = at_ points (length points - 1).
Proof.
  destruct points as [|p l] eqn:E; [split; reflexivity|]. rewrite <- E.
  assert (Hn : (0 < length points)%nat) by (rewrite E; simpl; lia).
  split.
  - apply (smoothPlaybackPoints_at points radius 0 Hn). left; reflexivity.
  - apply (smoothPlaybackPoints_at points radius (length points - 1)); [lia|].
    right; reflexivity.
Qed.

(** C4, as the code has it: for every input whose distances never decrease
    and start at 0, the playback sequence has at most max(N, 300) points
    and its first position is the first input position.  An input that is
    returned as it is (at most 2 points, or at most N points) keeps its
    last point too.  An input that is resampled gives max(300, N) points,
    the last of them sampled at the distance
    [Math.min(totalDistance, (T - 1) * (totalDistance / (T - 1)))] with
    [totalDistance = Math.max(total, 1)], never beyond [totalDistance],
    and placed by the distance lookup there.  In exact arithmetic that
    distance is [totalDistance]; on binary64 the product is rounded and can
    fall just below it, so the theorem does not equate the last distance or
    position with the input's. *)
Theorem resampler_guarantee (points : list TrackPoint) (maxPoints : nat) :
  nondecreasing points = true ->
  distanceFromStartM (at_ points 0) == 0 ->
  let out := playbackSequence points maxPoints in
  let targetCount := Nat.max 300 maxPoints in
  let totalDistance :=
    Math_max (distanceFromStartM (at_ points (length points - 1))) 1 in
  let lastTarget :=
    Math_min totalDistance
      (ofNat (targetCount - 1) * (totalDistance / (ofNat targetCount - 1))) in
  (length out <= Nat.max maxPoints 300)%nat /\
  samePosition (lat (at_ out 0)) (lon (at_ out 0))
               (lat (at_ points 0)) (lon (at_ points 0)) /\
  ((length points <= 2)%nat \/ (length points <= maxPoints)%nat ->
   length out = length points /\
   at_ out (length out - 1) = at_ points (length points - 1)) /\
  ((2 < length points)%nat -> (maxPoints < length points)%nat ->
   length out = targetCount /\
   distanceFromStartM (at_ out (length out - 1)) = lastTarget /\
   lastTarget <= totalDistance /\
   lat (at_ out (length out - 1)) = i_lat (interpolatePointAtDistance points lastTarget) /\
   lon (at_ out (length out - 1)) = i_lon (interpolatePointAtDistance points lastTarget)).
Proof.
  intros Hsorted H0 out targetCount totalDistance lastTarget.
  pose proof (buildPlaybackPoints_length points maxPoints) as [Hlen HlenT].
  pose proof (smoothPlaybackPoints_ends (buildPlaybackPoints points maxPoints) 2)
    as [Hfirst Hlast].
  unfold out. rewrite playbackSequence_length. unfold playbackSequence.
  rewrite Hfirst, Hlast.
  split; [exact Hlen|].
  split.
  { destruct (Nat.le_gt_cases (length points) 2) as [H2|H2].
    { rewrite buildPlaybackPoints_short by (left; exact H2). split; reflexivity. }
    destruct (Nat.le_gt_cases (length points) maxPoints) as [Hm|Hm].
    { rewrite buildPlaybackPoints_short by (right; exact Hm). split; reflexivity. }
    rewrite buildPlaybackPoints_at by lia.
    pose proof (nondecreasing_le points Hsorted) as Hle.
    assert (Hpos : forall i, (i < length points)%nat ->
                             0 <= distanceFromStartM (at_ points i)).
    { intros i Hi. rewrite <- H0. apply Hle. lia. }
    pose proof (sampleAt_first_distance points maxPoints) as Hd0.
    destruct (interpolate_at_start points
                (distanceFromStartM (sampleAt points maxPoints 0)))
      as [A [B _]]; try assumption; try lia.
    - rewrite Hd0. apply Qle_refl.
    - split; [exact A|exact B]. }
  split.
  { intros Hcase. rewrite buildPlaybackPoints_short by exact Hcase.
    split; reflexivity. }
  intros H2 Hm. rewrite (HlenT H2 Hm).
  rewrite buildPlaybackPoints_at by lia.
  split; [reflexivity|]. split; [reflexivity|].
  split; [unfold lastTarget, Math_min; qcmp; lra|].
  split; reflexivity.
Qed.

Lemma resampler_guarantee_witness :
  let out := playbackSequence threePoints 2 in
  let targetCount := Nat.max 300 2 in
  let totalDistance :=
    Math_max (distanceFromStartM (at_ threePoints (length threePoints - 1))) 1 in
  let lastTarget :=
    Math_min totalDistance
      (ofNat (targetCount - 1) * (totalDistance / (ofNat targetCount - 1))) in
  (length out <= Nat.max 2 300)%nat /\
  samePosition (lat (at_ out 0)) (lon (at_ out 0))
               (lat (at_ threePoints 0)) (lon (at_ threePoints 0)) /\
  ((length threePoints <= 2)%nat \/ (length threePoints <= 2)%nat ->
   length out = length threePoints /\
   at_ out (length out - 1) = at_ threePoints (length threePoints - 1)) /\
  ((2 < length threePoints)%nat -> (2 < length threePoints)%nat ->
   length out = targetCount /\
   distanceFromStartM (at_ out (length out - 1)) = lastTarget /\
   lastTarget <= totalDistance /\
   lat (at_ out (length out - 1))
   = i_lat (interpolatePointAtDistance threePoints lastTarget) /\
   lon (at_ out (length out - 1))
   = i_lon (interpolatePointAtDistance threePoints lastTarget)).
Proof.
  apply (resampler_guarantee threePoints 2); concrete.
Defined.

(** C4 as stated fails.  Both inputs below have distances that never
    decrease and start at 0, and both are resampled under the cap 2.  The
    walk [halfMetre] is 0.5 m long, yet its playback sequence ends at a
    distance of 1 (within rounding).  The last two samples of [stalledEnd]
    share the distance 10; its playback sequence ends at the position
    (1, 1) of the first of them (within rounding), not at the last input
    position (2, 2). *)
Lemma resampler_guarantee_fails :
  (nondecreasing halfMetre = true /\
   distanceFromStartM (at_ halfMetre 0) == 0 /\
   length (playbackSequence halfMetre 2) = 300%nat /\
   (0.99 < distanceFromStartM (at_ (playbackSequence halfMetre 2) 299) <= 1) /\
   distanceFromStartM (at_ halfMetre 2) == 0.5) /\
  (nondecreasing stalledEnd = true /\
   distanceFromStartM (at_ stalledEnd 0) == 0 /\
   length (playbackSequence stalledEnd 2) = 300%nat /\
   (0.99 < lat (at_ (playbackSequence stalledEnd 2) 299) <= 1) /\
   (0.99 < lon (at_ (playbackSequence stalledEnd 2) 299) <= 1) /\
   lat (at_ stalledEnd 2) == 2 /\
   lon (at_ stalledEnd 2) == 2).
Proof. vm_compute. repeat split; concrete. Qed.

(** ** Elevation and time of resampled points *)

Lemma nearestOf_in_range (points : list TrackPoint) (i : nat) :
  (i < length points)%nat -> nearestOf points i = at_ points i.
Proof.
  intros H. unfold nearestOf, at_.
  rewrite (nth_error_nth' points noPoint H). reflexivity.
Qed.

(** Where the elevation of a resampled point comes from: when the
    resampler samples a new point at a target distance, the point's
    position is the distance lookup at that distance, its elevation is the
    elevation of the original sample at the index the lookup returns (the
    left end of the segment the position is interpolated on, whichever end
    is nearer), and its timestamp is [null]; smoothing keeps both.  This
    holds for every input that triggers resampling and for every sample. *)
Theorem resampled_elevation_from_left_sample
    (points : list TrackPoint) (maxPoints i : nat) :
  (2 < length points)%nat -> (maxPoints < length points)%nat ->
  (i < Nat.max 300 maxPoints)%nat ->
  let sampled := at_ (buildPlaybackPoints points maxPoints) i in
  let interp := interpolatePointAtDistance points (distanceFromStartM sampled) in
  (index interp + 1 < length points)%nat /\
  lat sampled = i_lat interp /\
  lon sampled = i_lon interp /\
  ele sampled = ele (at_ points (index interp)) /\
  time sampled = None /\
  ele (at_ (playbackSequence points maxPoints) i) = ele sampled /\
  time (at_ (playbackSequence points maxPoints) i) = None.
Proof.
  intros H2 Hm Hi sampled interp.
  assert (Hs : sampled = sampleAt points maxPoints i)
    by (apply buildPlaybackPoints_at; assumption).
  pose proof (index_in_range points (distanceFromStartM sampled)) as [Hidx _].
  fold interp in Hidx.
  assert (Hin : (index interp + 1 < length points)%nat) by lia.
  assert (Hlen : (i < length (buildPlaybackPoints points maxPoints))%nat).
  { destruct (buildPlaybackPoints_length points maxPoints) as [_ HT].
    rewrite (HT H2 Hm). exact Hi. }
  destruct (smoothPlaybackPoints_at (buildPlaybackPoints points maxPoints) 2 i Hlen)
    as [He [Ht _]].
  fold sampled in He, Ht.
  assert (Htime : time sampled = None) by (rewrite Hs; reflexivity).
  split; [exact Hin|].
  split; [unfold interp; rewrite Hs; reflexivity|].
  split; [unfold interp; rewrite Hs; reflexivity|].
  split.
  { unfold interp. rewrite Hs. cbn [ele sampleAt distanceFromStartM].
    apply f_equal, nearestOf_in_range.
    unfold interp in Hin. rewrite Hs in Hin. cbn [sampleAt distanceFromStartM] in Hin.
    lia. }
  split; [exact Htime|].
  split; [exact He|]. unfold playbackSequence. rewrite Ht. exact Htime.
Qed.

Lemma resampled_elevation_from_left_sample_witness :
  let sampled := at_ (buildPlaybackPoints threePoints 2) 149 in
  let interp := interpolatePointAtDistance threePoints (distanceFromStartM sampled) in
  (index interp + 1 < length threePoints)%nat /\
  lat sampled = i_lat interp /\
  lon sampled = i_lon interp /\
  ele sampled = ele (at_ threePoints (index interp)) /\
  time sampled = None /\
  ele (at_ (playbackSequence threePoints 2) 149) = ele sampled /\
  time (at_ (playbackSequence threePoints 2) 149) = None.
Proof.
  apply (resampled_elevation_from_left_sample threePoints 2 149); concrete.
Defined.

(** C8 at two failing inputs.  The code calls the sample it copies the
    elevation from [nearest], but it takes the left end of the segment the
    position is interpolated on, whichever end is nearer.  Resampling
    [threePoints] (elevations 10, 20, 30 at the distances 0, 1112, 2224)
    under the cap 2 gives 300 samples.  The 150th is taken between 1108 m
    and 1109 m, less than 4 m before the second input point, by far the
    nearest original sample, yet gets the elevation 10 of the first point.
    The last one is taken at the end of the track (within a metre of the
    last input point, whose elevation is 30) and gets the elevation 20 of
    the point before it.  Smoothing keeps the elevations.  Under the cap
    1800 of the playback, the 2000 points of [denseTrack] give 1800
    samples, the last of them at the end of the track, on the last input
    point (elevation 1999), with the elevation 1998 of the point before
    it. *)
Lemma resampled_elevation_misses_nearest :
  let sampled := buildPlaybackPoints threePoints 2 in
  let middle := at_ sampled 149 in
  let final := at_ sampled 299 in
  let dense := buildPlaybackPoints denseTrack 1800 in
  let denseFinal := at_ dense 1799 in
  ((2 < length threePoints)%nat /\
   length sampled = 300%nat /\
   (1108 < distanceFromStartM middle < 1109) /\
   nearestSample threePoints (distanceFromStartM middle) = at_ threePoints 1 /\
   ele (at_ threePoints 1) = Some 20 /\
   ele middle = Some 10 /\
   (2223 < distanceFromStartM final <= 2224) /\
   nearestSample threePoints (distanceFromStartM final) = at_ threePoints 2 /\
   ele (at_ threePoints 2) = Some 30 /\
   ele final = Some 20 /\
   ele (at_ (playbackSequence threePoints 2) 149) = Some 10 /\
   ele (at_ (playbackSequence threePoints 2) 299) = Some 20) /\
  (length denseTrack = 2000%nat /\
   length dense = 1800%nat /\
   (1998 < distanceFromStartM denseFinal <= 1999) /\
   ele (nearestSample denseTrack (distanceFromStartM denseFinal)) = Some 1999 /\
   ele denseFinal = Some 1998).
Proof. vm_compute. repeat split; concrete. Qed.

(** ** The revealed route *)

(** X1: whatever the playback points and the progress, the revealed route
    drawn on the map is never empty and its last coordinate is the head, the
    position interpolated at the reveal distance. *)
Lemma revealLonLat_ends_at_head (playbackPoints : list TrackPoint) (progress : Q) :
  let revealed := revealLonLat playbackPoints progress in
  let head := headOf playbackPoints progress in
  revealed <> [] /\
  fst (last revealed (0, 0)) == i_lon head /\
  snd (last revealed (0, 0)) == i_lat head.
Proof.
  cbv zeta. unfold revealLonLat.
  set (head := headOf playbackPoints progress).
  destruct (revealLoop None playbackPoints _) as [|c revealed] eqn:E.
  - split; [discriminate|]. split; reflexivity.
  - set (l := c :: revealed) in *.
    destruct (Qeqb_spec (fst (last l (0, 0))) (i_lon head)) as [Hx|Hx];
      destruct (Qeqb_spec (snd (last l (0, 0))) (i_lat head)) as [Hy|Hy];
      cbn [negb orb].
    + split; [discriminate|]. split; assumption.
    + split; [intros H; apply app_eq_nil in H as [H _]; discriminate|].
      rewrite last_last. split; reflexivity.
    + split; [intros H; apply app_eq_nil in H as [H _]; discriminate|].
      rewrite last_last. split; reflexivity.
    + split; [intros H; apply app_eq_nil in H as [H _]; discriminate|].
      rewrite last_last. split; reflexivity.
Qed.

(** C9 at a failing input: on [threePoints] at progress 0.5 the reveal
    distance is exactly the distance of the second point; the loop pushes
    that point and then the point interpolated at [t = 0] on the next
    segment, which is the same coordinate, and both equal the head: the
    revealed route is [p0, p1, p1] with head [p1], the head twice in a row
    at its end. *)
Lemma reveal_repeats_head_at_sample :
  let revealed := revealLonLat threePoints 0.5 in
  let head := headOf threePoints 0.5 in
  length revealed = 3%nat /\
  i_lon head == 0.01 /\ i_lat head == 0 /\
  fst (nth 1 revealed (0, 0)) == i_lon head /\
  snd (nth 1 revealed (0, 0)) == i_lat head /\
  fst (nth 2 revealed (0, 0)) == i_lon head /\
  snd (nth 2 revealed (0, 0)) == i_lat head.
Proof. vm_compute. repeat split; reflexivity. Qed.

(** ** The engine *)

Section EngineProperties.
Variable M : MathLib.

(** A camera update either does nothing or stores the time, the bearing
    and the pose and sends the pose to the map. *)
Lemma updateCamera_cases (value nowMs : Q) (force : bool) (s : Engine) :
  updateCameraAtProgress M value nowMs force s = s \/
  exists c b,
    updateCameraAtProgress M value nowMs force s
    = jumpTo c (setCameraStateRef (Some c)
                  (setLastBearingRef (Some b) (setLastCameraUpdateMsRef nowMs s))).
Proof.
  unfold updateCameraAtProgress.
  destruct (selectedDetails s); [|left; reflexivity].
  destruct (_ || _); [left; reflexivity|].
  destruct (_ && _); [left; reflexivity|].
  right. eexists. eexists. reflexivity.
Qed.

(** With fewer than two playback points a camera update does nothing. *)
Lemma updateCamera_inert (value nowMs : Q) (force : bool) (s : Engine) :
  (length (playbackPointsOf s) < 2)%nat ->
  updateCameraAtProgress M value nowMs force s = s.
Proof.
  intros H. unfold updateCameraAtProgress.
  destruct (selectedDetails s); [|reflexivity].
  destruct (Nat.ltb_spec (length (playbackPointsOf s)) 2); [|lia].
  rewrite orb_true_r. reflexivity.
Qed.

(** A forced camera update on a loaded track with a map does happen. *)
Lemma updateCamera_forced (value nowMs : Q) (s : Engine) :
  selectedDetails s <> None -> mapRef s = true ->
  (2 <= length (playbackPointsOf s))%nat ->
  updateCameraAtProgress M value nowMs true s
  = let cameraPreset := cameraPresetOf (cameraPresetId s) in
    let playbackPoints := playbackPointsOf s in
    let smoothed :=
      smoothedBearing (lastBearingRef s)
        (rawBearingOf M playbackPoints cameraPreset (lastBearingRef s) value)
        (bearingSmoothing cameraPreset) in
    let smoothedCamera :=
      blendCamera (cameraStateRef s) (followOf (playbackState s))
        (desiredLon playbackPoints cameraPreset value)
        (desiredLat playbackPoints cameraPreset value)
        (desiredZoom cameraPreset (zoomOffset s))
        smoothed (pitch cameraPreset) in
    jumpTo smoothedCamera
      (setCameraStateRef (Some smoothedCamera)
         (setLastBearingRef (Some smoothed) (setLastCameraUpdateMsRef nowMs s))).
Proof.
  intros Hd Hm Hn. unfold updateCameraAtProgress.
  destruct (selectedDetails s); [|congruence].
  rewrite Hm. destruct (Nat.ltb_spec (length (playbackPointsOf s)) 2); [lia|].
  reflexivity.
Qed.

Lemma updateCamera_zoomOffset (value nowMs : Q) (force : bool) (s : Engine) :
  zoomOffset (updateCameraAtProgress M value nowMs force s) = zoomOffset s.
Proof.
  destruct (updateCamera_cases value nowMs force s) as [E|[c [b E]]];
    rewrite E; reflexivity.
Qed.

(** *** The zoom offset *)

Lemma step_zoomOffset (s : Engine) (e : Event) :
  match e with
  | ZoomIn _ => zoomOffset (step M s e) == clamp (zoomOffset s + 0.2) (-1.5) 1.5
  | ZoomOut _ => zoomOffset (step M s e) == clamp (zoomOffset s - 0.2) (-1.5) 1.5
  | _ => zoomOffset (step M s e) = zoomOffset s
  end.
Proof.
  destruct e; cbn [step].
  - unfold onTrackLoaded. cbv zeta.
    destruct (mapRef _); [rewrite updateCamera_zoomOffset|]; reflexivity.
  - unfold togglePlay.
    destruct (selectedDetails s); [|reflexivity].
    destruct (isPlaying _); [reflexivity|]. cbv zeta.
    destruct (Qleb 1 (progress s)), (Qltb (progress s) 1);
      cbn; rewrite ?updateCamera_zoomOffset; reflexivity.
  - unfold tick.
    destruct (selectedDetails s); [|reflexivity].
    destruct (negb _); [reflexivity|]. cbv zeta.
    destruct (Qleb 1 _);
      destruct (match lastUiFrameMsRef _ with Some _ => _ | None => _ end);
      cbn; rewrite ?updateCamera_zoomOffset; reflexivity.
  - unfold onScrub. cbv zeta. rewrite updateCamera_zoomOffset. reflexivity.
  - unfold onZoomIn. cbv zeta. fold (zoomInStep (zoomOffset s)).
    destruct (Qeqb_spec (zoomInStep (zoomOffset s)) (zoomOffset s)) as [E|E].
    + symmetry. exact E.
    + unfold poseEffect. rewrite updateCamera_zoomOffset. reflexivity.
  - unfold onZoomOut. cbv zeta. fold (zoomOutStep (zoomOffset s)).
    destruct (Qeqb_spec (zoomOutStep (zoomOffset s)) (zoomOffset s)) as [E|E].
    + symmetry. exact E.
    + unfold poseEffect. rewrite updateCamera_zoomOffset. reflexivity.
  - unfold onPreset.
    destruct (presetIdEqb _ _); [reflexivity|].
    unfold poseEffect. rewrite updateCamera_zoomOffset. reflexivity.
  - unfold onSpeed. destruct (Qeqb _ _); reflexivity.
Qed.

Lemma step_zoomOffset_bounded (s : Engine) (e : Event) :
  -1.5 <= zoomOffset s <= 1.5 -> -1.5 <= zoomOffset (step M s e) <= 1.5.
Proof.
  intros H. pose proof (step_zoomOffset s e) as E.
  destruct e; try (rewrite E; exact H);
    rewrite E; apply clamp_bounds; lra.
Qed.

Lemma run_zoomOffset_bounded (events : list Event) :
  forall s, -1.5 <= zoomOffset s <= 1.5 ->
            -1.5 <= zoomOffset (run M s events) <= 1.5.
Proof.
  unfold run. induction events as [|e events IH]; intros s H; [exact H|].
  cbn [fold_left]. apply IH, step_zoomOffset_bounded, H.
Qed.

(** *** Tracks of fewer than two points *)

Lemma short_playbackSequence (pts : list TrackPoint) (maxPoints : nat) :
  (length pts < 2)%nat -> playbackSequence pts maxPoints = pts.
Proof.
  intros H. unfold playbackSequence.
  rewrite buildPlaybackPoints_short by lia.
  unfold smoothPlaybackPoints.
  destruct (Nat.leb_spec (length pts) 4); [reflexivity|lia].
Qed.

Lemma step_inert (s : Engine) (e : Event) :
  (length (playbackPointsOf s) < 2)%nat -> loadsShortTracks e ->
  (length (playbackPointsOf (step M s e)) < 2)%nat /\
  jumpToLog (step M s e) = jumpToLog s.
Proof.
  intros H He. destruct e; cbn [step].
  - cbn [loadsShortTracks] in He. unfold onTrackLoaded. cbv zeta.
    rewrite (short_playbackSequence _ _ He).
    assert (Hp : forall x : Engine,
               playbackPointsOf
                 (setLastBearingRef None
                    (fitBounds (fitBoundsOf details)
                       (setPlaybackPointsRef (points details)
                          (setSelectedDetails (Some details) x))))
               = points details).
    { intros x. unfold playbackPointsOf.
      cbn [playbackPointsRef selectedDetails setLastBearingRef fitBounds
           setPlaybackPointsRef setSelectedDetails].
      destruct (_ <? _)%nat; reflexivity. }
    destruct (mapRef _).
    + rewrite updateCamera_inert by (rewrite Hp; exact He).
      rewrite Hp. split; [exact He|reflexivity].
    + split; [|reflexivity].
      unfold playbackPointsOf.
      cbn [playbackPointsRef selectedDetails setPlaybackPointsRef setSelectedDetails].
      destruct (_ <? _)%nat; exact He.
  - unfold togglePlay.
    destruct (selectedDetails s) eqn:Ed; [|split; [exact H|reflexivity]].
    destruct (isPlaying _); [split; [exact H|reflexivity]|]. cbv zeta.
    rewrite updateCamera_inert by exact H.
    destruct (Qleb 1 (progress s)), (Qltb (progress s) 1);
      (split; [exact H|reflexivity]).
  - unfold tick.
    destruct (selectedDetails s) eqn:Ed; [|split; [exact H|reflexivity]].
    destruct (negb _); [split; [exact H|reflexivity]|]. cbv zeta.
    rewrite updateCamera_inert by exact H.
    destruct (Qleb 1 _);
      destruct (match lastUiFrameMsRef _ with Some _ => _ | None => _ end);
      (split; [exact H|reflexivity]).
  - unfold onScrub. cbv zeta. rewrite updateCamera_inert by exact H.
    split; [exact H|reflexivity].
  - unfold onZoomIn, poseEffect. cbv zeta.
    destruct (Qeqb _ _); [split; [exact H|reflexivity]|].
    rewrite updateCamera_inert by exact H. split; [exact H|reflexivity].
  - unfold onZoomOut, poseEffect. cbv zeta.
    destruct (Qeqb _ _); [split; [exact H|reflexivity]|].
    rewrite updateCamera_inert by exact H. split; [exact H|reflexivity].
  - unfold onPreset, poseEffect.
    destruct (presetIdEqb _ _); [split; [exact H|reflexivity]|].
    rewrite updateCamera_inert by exact H. split; [exact H|reflexivity].
  - unfold onSpeed. destruct (Qeqb _ _); split; assumption || reflexivity.
Qed.

Lemma run_inert (events : list Event) :
  forall s, (length (playbackPointsOf s) < 2)%nat ->
            Forall loadsShortTracks events ->
            (length (playbackPointsOf (run M s events)) < 2)%nat /\
            jumpToLog (run M s events) = jumpToLog s.
Proof.
  unfold run. induction events as [|e events IH]; intros s H Hev.
  - split; [exact H|reflexivity].
  - inversion Hev as [|e' events' He Hevs]; subst. cbn [fold_left].
    destruct (step_inert s e H He) as [H1 H2].
    destruct (IH (step M s e) H1 Hevs) as [H3 H4].
    split; [exact H3|]. rewrite H4. exact H2.
Qed.
(** *** The calls of [map.fitBounds] *)

Lemma updateCamera_mapRef (value nowMs : Q) (force : bool) (s : Engine) :
  mapRef (updateCameraAtProgress M value nowMs force s) = mapRef s.
Proof.
  destruct (updateCamera_cases value nowMs force s) as [E|[c [b E]]];
    rewrite E; reflexivity.
Qed.

Lemma updateCamera_fitBoundsLog (value nowMs : Q) (force : bool) (s : Engine) :
  fitBoundsLog (updateCameraAtProgress M value nowMs force s) = fitBoundsLog s.
Proof.
  destruct (updateCamera_cases value nowMs force s) as [E|[c [b E]]];
    rewrite E; reflexivity.
Qed.

(** Loading a track on an engine with a map fits the map to the track's
    bounds; nothing else calls [map.fitBounds]. *)
Lemma step_fitBoundsLog (s : Engine) (e : Event) :
  mapRef (step M s e) = mapRef s /\
  fitBoundsLog (step M s e)
  = match e with
    | TrackLoaded details _ =>
        if mapRef s then fitBoundsOf details :: fitBoundsLog s else fitBoundsLog s
    | _ => fitBoundsLog s
    end.
Proof.
  destruct e; cbn [step].
  - unfold onTrackLoaded. cbv zeta.
    cbn [mapRef setPlaybackPointsRef setSelectedDetails setCameraStateRef
         setLastBearingRef setHasPlayedRef setProgressRef setProgress resetFrames
         setFrameRefs setPlaybackState].
    destruct (mapRef s) eqn:Em.
    + rewrite updateCamera_mapRef, updateCamera_fitBoundsLog.
      cbn [mapRef fitBoundsLog fitBounds setPlaybackPointsRef setSelectedDetails
           setCameraStateRef setLastBearingRef setHasPlayedRef setProgressRef
           setProgress resetFrames setFrameRefs setPlaybackState].
      split; [exact Em|reflexivity].
    + cbn [mapRef fitBoundsLog setPlaybackPointsRef setSelectedDetails
           setCameraStateRef setLastBearingRef setHasPlayedRef setProgressRef
           setProgress resetFrames setFrameRefs setPlaybackState].
      split; [exact Em|reflexivity].
  - unfold togglePlay.
    destruct (selectedDetails s); [|split; reflexivity].
    destruct (isPlaying _); [split; reflexivity|]. cbv zeta.
    destruct (Qleb 1 (progress s)), (Qltb (progress s) 1);
      cbn [mapRef fitBoundsLog resetFrames setFrameRefs setPlaybackState
           setHasPlayedRef setProgressRef];
      rewrite ?updateCamera_mapRef, ?updateCamera_fitBoundsLog;
      split; reflexivity.
  - unfold tick.
    destruct (selectedDetails s); [|split; reflexivity].
    destruct (negb _); [split; reflexivity|]. cbv zeta.
    destruct (Qleb 1 _);
      destruct (match lastUiFrameMsRef _ with Some _ => _ | None => _ end);
      cbn [mapRef fitBoundsLog resetFrames setFrameRefs setPlaybackState setProgress];
      rewrite ?updateCamera_mapRef, ?updateCamera_fitBoundsLog;
      split; reflexivity.
  - unfold onScrub. cbv zeta.
    rewrite updateCamera_mapRef, updateCamera_fitBoundsLog. split; reflexivity.
  - unfold onZoomIn, poseEffect. cbv zeta.
    destruct (Qeqb _ _); [split; reflexivity|].
    rewrite updateCamera_mapRef, updateCamera_fitBoundsLog. split; reflexivity.
  - unfold onZoomOut, poseEffect. cbv zeta.
    destruct (Qeqb _ _); [split; reflexivity|].
    rewrite updateCamera_mapRef, updateCamera_fitBoundsLog. split; reflexivity.
  - unfold onPreset, poseEffect.
    destruct (presetIdEqb _ _); [split; reflexivity|].
    rewrite updateCamera_mapRef, updateCamera_fitBoundsLog. split; reflexivity.
  - unfold onSpeed. destruct (Qeqb _ _); split; reflexivity.
Qed.

Lemma run_fitBoundsLog (events : list Event) :
  forall s,
    mapRef (run M s events) = mapRef s /\
    fitBoundsLog (run M s events)
    = if mapRef s then fitBoundsCalls events (fitBoundsLog s) else fitBoundsLog s.
Proof.
  unfold run. induction events as [|e events IH]; intros s.
  - cbn [fold_left fitBoundsCalls]. split; [reflexivity|].
    destruct (mapRef s); reflexivity.
  - cbn [fold_left]. destruct (step_fitBoundsLog s e) as [Hm Hl].
    destruct (IH (step M s e)) as [Hm' Hl'].
    split; [rewrite Hm'; exact Hm|].
    rewrite Hl', Hm, Hl.
    destruct (mapRef s); destruct e; reflexivity.
Qed.
End EngineProperties.

(** C10, as the code has it: the zoom offset starts at 0; an event changes
    it only if it is a zoom command, which sets it to the old value plus or
    minus 0.2, clamped to [[-1.5, 1.5]]: a full step of 0.2 whenever that
    stays in range, a shorter one at the bounds; and after any sequence of
    events it lies in [[-1.5, 1.5]], so that the sum [zoomBase + zoomOffset]
    the zoom clamp receives is within 1.5 of the preset's base zoom. *)
Theorem zoomOffset_stays_bounded (M : MathLib) (mapReady : bool) (events : list Event) :
  zoomOffset (initialEngine mapReady) = 0 /\
  (forall (s : Engine) (e : Event),
      match e with
      | ZoomIn _ => zoomOffset (step M s e) == clamp (zoomOffset s + 0.2) (-1.5) 1.5
      | ZoomOut _ => zoomOffset (step M s e) == clamp (zoomOffset s - 0.2) (-1.5) 1.5
      | _ => zoomOffset (step M s e) = zoomOffset s
      end) /\
  (forall (s : Engine) (nowMs : Q),
      (-1.5 <= zoomOffset s + 0.2 <= 1.5 ->
       zoomOffset (onZoomIn M nowMs s) == zoomOffset s + 0.2) /\
      (-1.5 <= zoomOffset s - 0.2 <= 1.5 ->
       zoomOffset (onZoomOut M nowMs s) == zoomOffset s - 0.2)) /\
  (-1.5 <= zoomOffset (run M (initialEngine mapReady) events) <= 1.5) /\
  (forall preset : CameraPreset,
      zoomBase preset - 1.5
      <= zoomBase preset + zoomOffset (run M (initialEngine mapReady) events)
      <= zoomBase preset + 1.5).
Proof.
  assert (Hrun : -1.5 <= zoomOffset (run M (initialEngine mapReady) events) <= 1.5).
  { apply run_zoomOffset_bounded. cbn [zoomOffset initialEngine]. lra. }
  split; [reflexivity|].
  split; [intros s e; apply step_zoomOffset|].
  split; [|split; [exact Hrun|intros preset; lra]].
  intros s nowMs. split; intros H.
  - rewrite (step_zoomOffset M s (ZoomIn nowMs)). apply clamp_id. exact H.
  - rewrite (step_zoomOffset M s (ZoomOut nowMs)). apply clamp_id. exact H.
Qed.

Lemma lerp_fixed (a b t : Q) : a == b -> lerp a b t == a.
Proof. intros H. unfold lerp. rewrite H. ring. Qed.

(** C3, as the code has it: on a loaded track shown on a map, two successive
    seeks to the same slider value leave the progress where the first seek
    put it, and each sends one pose to the map; the second pose is not the
    first one but the first one moved towards the desired pose by the
    follow factor, 0.28 or 0.14 while playing: position, zoom and pitch
    (which depend on the progress, the preset and the zoom offset only) by
    [lerp], and the bearing by that fraction of the shortest rotation
    towards the next output of the bearing smoother.  A component that
    already sits on its desired value stays there; in particular the two
    poses have the same position, zoom and pitch when there was no camera
    state before the first seek, which then stores the desired pose
    itself. *)
Theorem repeated_seek_moves_towards_desired
    (M : MathLib) (s : Engine) (value now1 now2 : Q) :
  selectedDetails s <> None -> mapRef s = true ->
  (2 <= length (playbackPointsOf s))%nat ->
  let s1 := onScrub M value now1 s in
  let s2 := onScrub M value now2 s1 in
  let playbackPoints := playbackPointsOf s in
  let preset := cameraPresetOf (cameraPresetId s) in
  let follow := followOf (playbackState s) in
  let dLon := desiredLon playbackPoints preset (value / 100) in
  let dLat := desiredLat playbackPoints preset (value / 100) in
  let dZoom := desiredZoom preset (zoomOffset s) in
  let b1 :=
    smoothedBearing (lastBearingRef s)
      (rawBearingOf M playbackPoints preset (lastBearingRef s) (value / 100))
      (bearingSmoothing preset) in
  let b2 :=
    smoothedBearing (Some b1)
      (rawBearingOf M playbackPoints preset (Some b1) (value / 100))
      (bearingSmoothing preset) in
  progressRef s1 = value / 100 /\ progressRef s2 = progressRef s1 /\
  progress s2 = progress s1 /\
  lastBearingRef s1 = Some b1 /\ lastBearingRef s2 = Some b2 /\
  exists c1 c2 : CameraState,
    cameraStateRef s1 = Some c1 /\ cameraStateRef s2 = Some c2 /\
    jumpToLog s2 = c2 :: c1 :: jumpToLog s /\
    cam_lon c2 = lerp (cam_lon c1) dLon follow /\
    cam_lat c2 = lerp (cam_lat c1) dLat follow /\
    cam_zoom c2 = lerp (cam_zoom c1) dZoom follow /\
    cam_pitch c2 = lerp (cam_pitch c1) (pitch preset) follow /\
    cam_bearing c2
    = jsRem (cam_bearing c1 + shortestAngleDiff (cam_bearing c1) b2 * follow + 360) 360 /\
    (cam_lon c1 == dLon -> cam_lon c2 == cam_lon c1) /\
    (cam_lat c1 == dLat -> cam_lat c2 == cam_lat c1) /\
    (cam_zoom c1 == dZoom -> cam_zoom c2 == cam_zoom c1) /\
    (cam_pitch c1 == pitch preset -> cam_pitch c2 == cam_pitch c1) /\
    (cameraStateRef s = None ->
     cam_lon c1 = dLon /\ cam_lat c1 = dLat /\ cam_zoom c1 = dZoom /\
     cam_pitch c1 = pitch preset /\ cam_bearing c1 = b1 /\
     cam_lon c2 == cam_lon c1 /\ cam_lat c2 == cam_lat c1 /\
     cam_zoom c2 == cam_zoom c1 /\ cam_pitch c2 == cam_pitch c1).
Proof.
  intros Hd Hm Hn s1 s2 playbackPoints preset follow dLon dLat dZoom b1 b2.
  assert (E1 : s1 = _) by (unfold s1, onScrub; cbv zeta;
                           apply updateCamera_forced; assumption).
  cbv zeta in E1.
  cbn [cameraPresetId playbackState zoomOffset lastBearingRef cameraStateRef
       setProgressRef setProgress setHasPlayedRef] in E1.
  change (playbackPointsOf (setProgressRef (value / 100)
            (setProgress (value / 100)
               (setHasPlayedRef (hasPlayedRef s || Qltb 0 (value / 100)) s))))
    with playbackPoints in E1.
  fold preset follow dLon dLat dZoom in E1. fold b1 in E1.
  set (c1 := blendCamera _ _ _ _ _ _ _) in E1.
  assert (Hd1 : selectedDetails s1 <> None) by (rewrite E1; exact Hd).
  assert (Hm1 : mapRef s1 = true) by (rewrite E1; exact Hm).
  assert (Hn1 : (2 <= length (playbackPointsOf s1))%nat) by (rewrite E1; exact Hn).
  assert (E2 : s2 = _)
    by (unfold s2, onScrub; cbv zeta;
        apply updateCamera_forced; [exact Hd1 | exact Hm1 | exact Hn1]).
  cbv zeta in E2. rewrite E1 in E2.
  change (playbackPointsOf _) with playbackPoints in E2.
  cbn [cameraPresetId playbackState zoomOffset lastBearingRef cameraStateRef
       setProgressRef setProgress setHasPlayedRef jumpTo setCameraStateRef
       setLastBearingRef setLastCameraUpdateMsRef hasPlayedRef] in E2.
  fold preset follow dLon dLat dZoom in E2. fold b2 in E2.
  set (c2 := blendCamera (Some c1) follow dLon dLat dZoom b2 (pitch preset)) in E2.
  rewrite E2, E1.
  cbn [progressRef progress cameraStateRef lastBearingRef jumpToLog jumpTo
       setCameraStateRef setLastBearingRef setLastCameraUpdateMsRef setProgressRef
       setProgress setHasPlayedRef].
  split; [reflexivity|]. split; [reflexivity|]. split; [reflexivity|].
  split; [reflexivity|]. split; [reflexivity|].
  exists c1, c2.
  split; [reflexivity|]. split; [reflexivity|]. split; [reflexivity|].
  assert (Elon : cam_lon c2 = lerp (cam_lon c1) dLon follow) by reflexivity.
  assert (Elat : cam_lat c2 = lerp (cam_lat c1) dLat follow) by reflexivity.
  assert (Ezoom : cam_zoom c2 = lerp (cam_zoom c1) dZoom follow) by reflexivity.
  assert (Epitch : cam_pitch c2 = lerp (cam_pitch c1) (pitch preset) follow)
    by reflexivity.
  split; [exact Elon|]. split; [exact Elat|]. split; [exact Ezoom|].
  split; [exact Epitch|]. split; [reflexivity|].
  split; [intros H; rewrite Elon; apply lerp_fixed; exact H|].
  split; [intros H; rewrite Elat; apply lerp_fixed; exact H|].
  split; [intros H; rewrite Ezoom; apply lerp_fixed; exact H|].
  split; [intros H; rewrite Epitch; apply lerp_fixed; exact H|].
  intros Hc.
  assert (Ec1 : c1 = {| cam_lon := dLon; cam_lat := dLat; cam_zoom := dZoom;
                        cam_bearing := b1; cam_pitch := pitch preset |})
    by (unfold c1; rewrite Hc; reflexivity).
  rewrite Elon, Elat, Ezoom, Epitch. rewrite Ec1.
  cbn [cam_lon cam_lat cam_zoom cam_pitch cam_bearing].
  split; [reflexivity|]. split; [reflexivity|]. split; [reflexivity|].
  split; [reflexivity|]. split; [reflexivity|].
  split; [apply lerp_fixed; apply Qeq_refl|].
  split; [apply lerp_fixed; apply Qeq_refl|].
  split; apply lerp_fixed; apply Qeq_refl.
Qed.

Lemma repeated_seek_moves_towards_desired_witness :
  let s := onTrackLoaded smallAngleMath threePointTrack 1000 (initialEngine true) in
  let s1 := onScrub smallAngleMath 50 2000 s in
  let s2 := onScrub smallAngleMath 50 3000 s1 in
  let playbackPoints := playbackPointsOf s in
  let preset := cameraPresetOf (cameraPresetId s) in
  let follow := followOf (playbackState s) in
  let dLon := desiredLon playbackPoints preset (50 / 100) in
  let dLat := desiredLat playbackPoints preset (50 / 100) in
  let dZoom := desiredZoom preset (zoomOffset s) in
  let b1 :=
    smoothedBearing (lastBearingRef s)
      (rawBearingOf smallAngleMath playbackPoints preset (lastBearingRef s) (50 / 100))
      (bearingSmoothing preset) in
  let b2 :=
    smoothedBearing (Some b1)
      (rawBearingOf smallAngleMath playbackPoints preset (Some b1) (50 / 100))
      (bearingSmoothing preset) in
  progressRef s1 = 50 / 100 /\ progressRef s2 = progressRef s1 /\
  progress s2 = progress s1 /\
  lastBearingRef s1 = Some b1 /\ lastBearingRef s2 = Some b2 /\
  exists c1 c2 : CameraState,
    cameraStateRef s1 = Some c1 /\ cameraStateRef s2 = Some c2 /\
    jumpToLog s2 = c2 :: c1 :: jumpToLog s /\
    cam_lon c2 = lerp (cam_lon c1) dLon follow /\
    cam_lat c2 = lerp (cam_lat c1) dLat follow /\
    cam_zoom c2 = lerp (cam_zoom c1) dZoom follow /\
    cam_pitch c2 = lerp (cam_pitch c1) (pitch preset) follow /\
    cam_bearing c2
    = jsRem (cam_bearing c1 + shortestAngleDiff (cam_bearing c1) b2 * follow + 360) 360 /\
    (cam_lon c1 == dLon -> cam_lon c2 == cam_lon c1) /\
    (cam_lat c1 == dLat -> cam_lat c2 == cam_lat c1) /\
    (cam_zoom c1 == dZoom -> cam_zoom c2 == cam_zoom c1) /\
    (cam_pitch c1 == pitch preset -> cam_pitch c2 == cam_pitch c1) /\
    (cameraStateRef s = None ->
     cam_lon c1 = dLon /\ cam_lat c1 = dLat /\ cam_zoom c1 = dZoom /\
     cam_pitch c1 = pitch preset /\ cam_bearing c1 = b1 /\
     cam_lon c2 == cam_lon c1 /\ cam_lat c2 == cam_lat c1 /\
     cam_zoom c2 == cam_zoom c1 /\ cam_pitch c2 == cam_pitch c1).
Proof.
  apply (repeated_seek_moves_towards_desired smallAngleMath
           (onTrackLoaded smallAngleMath threePointTrack 1000 (initialEngine true))
           50 2000 3000).
  - vm_compute. discriminate.
  - reflexivity.
  - vm_compute. lia.
Defined.

(** C3 as stated fails: the three-point track is loaded on a ready map,
    which puts the camera on the start of the route, and the slider is
    moved to 50 twice.  The first seek leaves the camera at longitude
    70847/27800000 (about 0.00255), the second at 3046421/695000000 (about
    0.00438): the camera keeps easing towards the desired longitude
    (about 0.00910), so the two camera states differ. *)
Lemma repeated_seek_changes_camera :
  let s := onTrackLoaded smallAngleMath threePointTrack 1000 (initialEngine true) in
  let s1 := onScrub smallAngleMath 50 2000 s in
  let s2 := onScrub smallAngleMath 50 3000 s1 in
  match cameraStateRef s1, cameraStateRef s2 with
  | Some c1, Some c2 =>
      cam_lon c1 == 70847 # 27800000 /\
      cam_lon c2 == 3046421 # 695000000 /\
      ~ sameCamera c2 c1
  | _, _ => False
  end.
Proof.
  vm_compute.
  split; [reflexivity|]. split; [reflexivity|].
  intros [H _]. discriminate H.
Qed.

(** * Further properties of the engine *)

(** ** The distance index on sorted sequences *)

(** The loop invariant of the binary search: on distances that never
    decrease, the search returns the smallest index between [low] and [high]
    whose distance is not below the target, or [high] when there is none
    below [high]. *)
Lemma lowerBound_sorted (points : list TrackPoint) (target : Q) (fuel : nat) :
  (forall i j, (i <= j < length points)%nat ->
               distanceFromStartM (at_ points i) <= distanceFromStartM (at_ points j)) ->
  forall low high,
    (low <= high)%nat -> (high < length points)%nat -> (high - low <= fuel)%nat ->
    let r := lowerBound fuel points target low high in
    (low <= r <= high)%nat /\
    (forall i, (low <= i < r)%nat -> distanceFromStartM (at_ points i) < target) /\
    ((r < high)%nat -> target <= distanceFromStartM (at_ points r)).
Proof.
  intros Hsorted.
  induction fuel as [|fuel IH]; cbn [lowerBound]; intros low high Hle Hn Hf.
  { cbv zeta. repeat split; intros; lia. }
  destruct (Nat.ltb_spec low high) as [Hlt|Hge].
  2:{ cbv zeta. repeat split; intros; lia. }
  pose proof (mid_bounds low high Hlt) as Hm.
  set (mid := ((low + high) / 2)%nat) in *.
  destruct (Qltb_spec (distanceFromStartM (at_ points mid)) target) as [Hc|Hc].
  - assert (H1 : (mid + 1 <= high)%nat) by lia.
    assert (H2 : (high - (mid + 1) <= fuel)%nat) by lia.
    destruct (IH (mid + 1)%nat high H1 Hn H2) as [Hr [Hbelow Hat]].
    cbv zeta. split; [lia|]. split; [|exact Hat].
    intros i Hi. destruct (Nat.le_gt_cases i mid) as [Him|Him].
    + apply Qle_lt_trans with (distanceFromStartM (at_ points mid)); [|exact Hc].
      apply Hsorted. lia.
    + apply Hbelow. lia.
  - assert (H1 : (low <= mid)%nat) by lia.
    assert (H2 : (mid < length points)%nat) by lia.
    assert (H3 : (mid - low <= fuel)%nat) by lia.
    destruct (IH low mid H1 H2 H3) as [Hr [Hbelow Hat]].
    cbv zeta. split; [lia|]. split; [exact Hbelow|].
    intros _.
    destruct (Nat.eq_dec (lowerBound fuel points target low mid) mid) as [E|E].
    + rewrite E. exact Hc.
    + apply Hat. lia.
Qed.

(** X2: on a sequence of two points or more whose distances never decrease
    and start at 0, the lookup at any distance, clamped to the route, uses
    the segment that contains it: the clamped target lies between the
    distances of the two ends, every sample before the left end lies
    strictly before the target unless the left end is the first point, and
    the returned position is the linear interpolation between the two ends
    at the fraction (target - left) / max(right - left, 0.0001). *)
Theorem distance_index_brackets_target (points : list TrackPoint) (targetDistanceM : Q) :
  (2 <= length points)%nat ->
  nondecreasing points = true ->
  distanceFromStartM (at_ points 0) == 0 ->
  let target :=
    clamp targetDistanceM 0
      (Math_max (distanceFromStartM (at_ points (length points - 1))) 0) in
  let r := interpolatePointAtDistance points targetDistanceM in
  let left := at_ points (index r) in
  let right := at_ points (index r + 1) in
  let fraction :=
    (target - distanceFromStartM left)
    / Math_max (distanceFromStartM right - distanceFromStartM left) 0.0001 in
  (index r + 1 < length points)%nat /\
  (distanceFromStartM left <= target <= distanceFromStartM right) /\
  (forall i, (i < index r)%nat -> distanceFromStartM (at_ points i) < target) /\
  (0 <= fraction <= 1) /\
  i_lat r == lat left + (lat right - lat left) * fraction /\
  i_lon r == lon left + (lon right - lon left) * fraction.
Proof.
  intros Hn Hsorted H0. cbv zeta.
  pose proof (nondecreasing_le points Hsorted) as Hle.
  assert (Hpos : forall i, (i < length points)%nat ->
                           0 <= distanceFromStartM (at_ points i)).
  { intros i Hi. rewrite <- H0. apply Hle. lia. }
  rewrite (interpolate_long _ _ Hn). cbv zeta. cbn [index i_lat i_lon].
  set (maxD := distanceFromStartM (at_ points (length points - 1))).
  set (target := clamp targetDistanceM 0 (Math_max maxD 0)).
  assert (HmaxD : 0 <= maxD) by (apply Hpos; lia).
  assert (Htarget : 0 <= target <= maxD).
  { unfold target. unfold clamp, Math_min, Math_max. qcmp; lra. }
  assert (Hfuel : (length points - 1 - 0 <= length points)%nat) by lia.
  assert (Hhigh : (length points - 1 < length points)%nat) by lia.
  destruct (lowerBound_sorted points target (length points) Hle 0 (length points - 1)
              (Nat.le_0_l _) Hhigh Hfuel) as [Hr [Hbelow Hat]].
  set (low := lowerBound (length points) points target 0 (length points - 1)) in *.
  assert (Hupper : target <= distanceFromStartM (at_ points low)).
  { destruct (Nat.eq_dec low (length points - 1)) as [E|E].
    - rewrite E. apply Htarget.
    - apply Hat. lia. }
  set (rightIndex := clampIndex low 1 (length points - 1)).
  assert (Hright : rightIndex = Nat.max low 1) by (unfold rightIndex, clampIndex; lia).
  replace (rightIndex - 1 + 1)%nat with rightIndex by lia.
  set (dl := distanceFromStartM (at_ points (rightIndex - 1))).
  set (dr := distanceFromStartM (at_ points rightIndex)).
  assert (Hbracket : dl <= target <= dr).
  { unfold dl, dr. destruct (Nat.eq_dec low 0) as [E|E].
    - replace rightIndex with 1%nat by lia. cbn [Nat.sub].
      assert (target <= distanceFromStartM (at_ points 0)) by (rewrite <- E; exact Hupper).
      assert (0 <= distanceFromStartM (at_ points 1)) by (apply Hpos; lia).
      lra.
    - replace rightIndex with low by lia. split; [|exact Hupper].
      apply Qlt_le_weak, Hbelow. lia. }
  set (span := Math_max (dr - dl) 0.0001).
  assert (Hspan : 0.0001 <= span /\ dr - dl <= span).
  { unfold span. split; [apply Math_max_ge_r | apply Math_max_ge_l]. }
  assert (Hfrac : 0 <= (target - dl) / span <= 1).
  { split.
    - apply Qle_shift_div_l; lra.
    - apply Qle_shift_div_r; lra. }
  assert (Hclamp : clamp ((target - dl) / span) 0 1 == (target - dl) / span)
    by (apply clamp_id; exact Hfrac).
  split; [lia|]. split; [exact Hbracket|].
  split.
  { intros i Hi. apply Hbelow. lia. }
  split; [exact Hfrac|].
  unfold lerp. split; rewrite Hclamp; apply Qeq_refl.
Qed.

Lemma distance_index_brackets_target_witness :
  let target :=
    clamp 1500 0
      (Math_max (distanceFromStartM (at_ threePoints (length threePoints - 1))) 0) in
  let r := interpolatePointAtDistance threePoints 1500 in
  let left := at_ threePoints (index r) in
  let right := at_ threePoints (index r + 1) in
  let fraction :=
    (target - distanceFromStartM left)
    / Math_max (distanceFromStartM right - distanceFromStartM left) 0.0001 in
  (index r + 1 < length threePoints)%nat /\
  (distanceFromStartM left <= target <= distanceFromStartM right) /\
  (forall i, (i < index r)%nat -> distanceFromStartM (at_ threePoints i) < target) /\
  (0 <= fraction <= 1) /\
  i_lat r == lat left + (lat right - lat left) * fraction /\
  i_lon r == lon left + (lon right - lon left) * fraction.
Proof.
  apply (distance_index_brackets_target threePoints 1500); concrete.
Defined.


(** ** The resampler keeps the order of the distances *)

Lemma nondecreasing_intro (l : list TrackPoint) :
  (forall i, (S i < length l)%nat ->
             distanceFromStartM (at_ l i) <= distanceFromStartM (at_ l (S i))) ->
  nondecreasing l = true.
Proof.
  destruct l as [|p l]; [reflexivity|]. cbn [nondecreasing]. revert p.
  induction l as [|q l IH]; intros p H; [reflexivity|].
  cbn [nondecreasingFrom]. apply andb_true_intro. split.
  - destruct (Qleb_spec (distanceFromStartM p) (distanceFromStartM q)) as [|Hlt];
      [reflexivity|].
    specialize (H 0%nat). cbn in H.
    assert (distanceFromStartM p <= distanceFromStartM q) by (apply H; lia). lra.
  - apply IH. intros i Hi. apply (H (S i)). cbn [length] in *. lia.
Qed.

Lemma ofNat_le (i j : nat) : (i <= j)%nat -> ofNat i <= ofNat j.
Proof. intros H. unfold ofNat. rewrite <- Zle_Qle. lia. Qed.

Lemma ofNat_nonneg (i : nat) : 0 <= ofNat i.
Proof. unfold ofNat. change 0 with (inject_Z 0). rewrite <- Zle_Qle. lia. Qed.

Lemma ofNat_pred (n : nat) : (1 <= n)%nat -> ofNat (n - 1) == ofNat n - 1.
Proof.
  intros H. unfold ofNat. rewrite Nat2Z.inj_sub by lia.
  unfold Z.sub. rewrite inject_Z_plus, inject_Z_opp. reflexivity.
Qed.

(** In exact arithmetic the [Math.min] of the sampling never cuts: the
    distance of the [i]-th sample is [i] intervals from the start. *)
Lemma sampleAt_distance (points : list TrackPoint) (maxPoints i : nat) :
  (i < Nat.max 300 maxPoints)%nat ->
  distanceFromStartM (sampleAt points maxPoints i)
  == ofNat i
     * (Math_max (distanceFromStartM (at_ points (length points - 1))) 1
        / (ofNat (Nat.max 300 maxPoints) - 1)).
Proof.
  intros Hi. unfold sampleAt. cbn [distanceFromStartM].
  set (total := Math_max _ 1).
  assert (Ht : 1 <= total) by apply Math_max_ge_r.
  pose proof (ofNat_ge_300 maxPoints) as HT.
  set (T := ofNat (Nat.max 300 maxPoints)) in *.
  assert (Hle : ofNat i <= T - 1).
  { unfold T. rewrite <- ofNat_pred by lia. apply ofNat_le. lia. }
  pose proof (ofNat_nonneg i) as Hi0.
  assert (Hiv : 0 <= total / (T - 1)) by (apply Qle_shift_div_l; lra).
  assert (Hprod : ofNat i * (total / (T - 1)) <= (T - 1) * (total / (T - 1)))
    by (apply Qmult_le_compat_r; assumption).
  assert (E : (T - 1) * (total / (T - 1)) == total) by (field; lra).
  unfold Math_min. qcmp; lra.
Qed.

(** X4: the playback sequence of a track whose distances never decrease has
    distances that never decrease; when the track is resampled (more than 2
    and more than N points) the [i]-th distance is the code's
    [Math.min(totalDistance, i * interval)], between 0 and
    [totalDistance = Math.max(total, 1)], with
    [interval = totalDistance / (max(300, N) - 1)]. *)
Theorem resampler_keeps_order (points : list TrackPoint) (maxPoints : nat) :
  nondecreasing points = true ->
  let totalDistance :=
    Math_max (distanceFromStartM (at_ points (length points - 1))) 1 in
  let interval := totalDistance / (ofNat (Nat.max 300 maxPoints) - 1) in
  nondecreasing (playbackSequence points maxPoints) = true /\
  ((2 < length points)%nat -> (maxPoints < length points)%nat ->
   forall i, (i < Nat.max 300 maxPoints)%nat ->
     distanceFromStartM (at_ (playbackSequence points maxPoints) i)
     = Math_min totalDistance (ofNat i * interval) /\
     0 <= distanceFromStartM (at_ (playbackSequence points maxPoints) i)
       <= totalDistance).
Proof.
  intros Hsorted totalDistance interval.
  assert (Hsm : forall i, (i < length (buildPlaybackPoints points maxPoints))%nat ->
                distanceFromStartM (at_ (playbackSequence points maxPoints) i)
                = distanceFromStartM (at_ (buildPlaybackPoints points maxPoints) i)).
  { intros i Hi.
    apply (smoothPlaybackPoints_at (buildPlaybackPoints points maxPoints) 2 i Hi). }
  destruct (buildPlaybackPoints_length points maxPoints) as [_ HT].
  split.
  - apply nondecreasing_intro. intros i Hi.
    rewrite playbackSequence_length in Hi.
    rewrite !Hsm by lia.
    destruct (Nat.le_gt_cases (length points) 2) as [H2|H2].
    { rewrite buildPlaybackPoints_short in * by (left; exact H2).
      apply (nondecreasing_le points Hsorted). lia. }
    destruct (Nat.le_gt_cases (length points) maxPoints) as [Hm|Hm].
    { rewrite buildPlaybackPoints_short in * by (right; exact Hm).
      apply (nondecreasing_le points Hsorted). lia. }
    rewrite (HT H2 Hm) in Hi.
    rewrite !buildPlaybackPoints_at by lia.
    rewrite !sampleAt_distance by lia.
    apply Qmult_le_compat_r; [apply ofNat_le; lia|].
    pose proof (ofNat_ge_300 maxPoints).
    pose proof (Math_max_ge_r (distanceFromStartM (at_ points (length points - 1))) 1).
    apply Qle_shift_div_l; lra.
  - intros H2 Hm i Hi.
    rewrite Hsm by (rewrite (HT H2 Hm); exact Hi).
    rewrite buildPlaybackPoints_at by assumption.
    unfold sampleAt. cbn [distanceFromStartM]. fold totalDistance. fold interval.
    split; [reflexivity|].
    assert (Ht : 1 <= totalDistance) by apply Math_max_ge_r.
    pose proof (ofNat_ge_300 maxPoints) as H300.
    pose proof (ofNat_nonneg i) as Hi0.
    assert (Hiv : 0 <= interval) by (unfold interval; apply Qle_shift_div_l; lra).
    assert (Hprod : 0 <= ofNat i * interval) by (apply Qmult_le_0_compat; assumption).
    unfold Math_min. qcmp; lra.
Qed.

Lemma resampler_keeps_order_witness :
  let totalDistance :=
    Math_max (distanceFromStartM (at_ threePoints (length threePoints - 1))) 1 in
  let interval := totalDistance / (ofNat (Nat.max 300 2) - 1) in
  nondecreasing (playbackSequence threePoints 2) = true /\
  ((2 < length threePoints)%nat -> (2 < length threePoints)%nat ->
   forall i, (i < Nat.max 300 2)%nat ->
     distanceFromStartM (at_ (playbackSequence threePoints 2) i)
     = Math_min totalDistance (ofNat i * interval) /\
     0 <= distanceFromStartM (at_ (playbackSequence threePoints 2) i)
       <= totalDistance).
Proof.
  apply (resampler_keeps_order threePoints 2). reflexivity.
Defined.

(** X6: resampling under a cap of 300 or more is idempotent: the resampled
    sequence has at most N points and is returned as it is by a second
    pass. *)
Theorem resampling_twice_changes_nothing (points : list TrackPoint) (maxPoints : nat) :
  (300 <= maxPoints)%nat ->
  buildPlaybackPoints (buildPlaybackPoints points maxPoints) maxPoints
  = buildPlaybackPoints points maxPoints /\
  (length (buildPlaybackPoints points maxPoints) <= maxPoints)%nat.
Proof.
  intros H. destruct (buildPlaybackPoints_length points maxPoints) as [Hlen _].
  assert (Hle : (length (buildPlaybackPoints points maxPoints) <= maxPoints)%nat) by lia.
  split; [|exact Hle]. apply buildPlaybackPoints_short. right. exact Hle.
Qed.

Lemma resampling_twice_changes_nothing_witness :
  (length longTrack = 400)%nat /\
  buildPlaybackPoints (buildPlaybackPoints longTrack 300) 300
  = buildPlaybackPoints longTrack 300 /\
  (length (buildPlaybackPoints longTrack 300) <= 300)%nat.
Proof.
  split; [reflexivity|]. apply (resampling_twice_changes_nothing longTrack 300). lia.
Defined.

(** ** What smoothing changes *)

(** X5: smoothing moves nothing but the positions of the interior points.
    The output has as many points as the input; a sequence of at most 4
    points, or a radius of 0 or less, gives the input back; the first and
    the last point, and the elevation, the time and the distance of every
    point, are left as they are.  With the radius 2 the playback uses, the
    position of an interior point is the mean of the five points around it
    (the index clamped at the ends) with the weights 1, 2, 3, 2, 1, summed
    in that order and divided by the sum of the weights. *)
Theorem smoothing_moves_interior_positions_only (points : list TrackPoint) (radius : Z) :
  let out := smoothPlaybackPoints points radius in
  length out = length points /\
  ((length points <= 4)%nat \/ (radius <= 0)%Z -> out = points) /\
  (forall i, (i < length points)%nat ->
     ele (at_ out i) = ele (at_ points i) /\
     time (at_ out i) = time (at_ points i) /\
     distanceFromStartM (at_ out i) = distanceFromStartM (at_ points i) /\
     (i = 0%nat \/ i = (length points - 1)%nat -> at_ out i = at_ points i)) /\
  (radius = 2%Z -> (4 < length points)%nat ->
   forall i, (0 < i < length points - 1)%nat ->
     let p k := at_ points k in
     let far := Nat.min (i + 2) (length points - 1) in
     lat (at_ out i)
     = (0 + lat (p (i - 2)%nat) * 1 + lat (p (i - 1)%nat) * 2 + lat (p i) * 3
        + lat (p (i + 1)%nat) * 2 + lat (p far) * 1)
       / (0 + 1 + 2 + 3 + 2 + 1) /\
     lon (at_ out i)
     = (0 + lon (p (i - 2)%nat) * 1 + lon (p (i - 1)%nat) * 2 + lon (p i) * 3
        + lon (p (i + 1)%nat) * 2 + lon (p far) * 1)
       / (0 + 1 + 2 + 3 + 2 + 1)).
Proof.
  cbv zeta.
  split; [apply smoothPlaybackPoints_length|].
  split.
  { intros H. unfold smoothPlaybackPoints.
    destruct H as [H|H].
    - destruct (Nat.leb_spec (length points) 4) as [|H4]; [reflexivity|lia].
    - destruct (Z.leb_spec radius 0) as [|Hr]; [|lia].
      rewrite orb_true_r. reflexivity. }
  split; [intros i Hi; exact (smoothPlaybackPoints_at points radius i Hi)|].
  intros Er H4 i Hi. subst radius. unfold smoothPlaybackPoints.
  destruct (Nat.leb_spec (length points) 4) as [|_]; [lia|].
  cbn [orb Z.leb Z.compare].
  rewrite at_mapi by lia.
  destruct (Nat.eqb_spec i 0) as [|_]; [lia|].
  destruct (Nat.eqb_spec i (length points - 1)) as [|_]; [lia|].
  cbn [orb].
  change (window 2) with [(-2)%Z; (-1)%Z; 0%Z; 1%Z; 2%Z].
  cbn [fold_left].
  change (inject_Z (2 + 1 - Z.abs (-2))) with 1.
  change (inject_Z (2 + 1 - Z.abs (-1))) with 2.
  change (inject_Z (2 + 1 - Z.abs 0)) with 3.
  change (inject_Z (2 + 1 - Z.abs 1)) with 2.
  change (inject_Z (2 + 1 - Z.abs 2)) with 1.
  replace (Z.to_nat (clampZ (Z.of_nat i + -2) 0 (Z.of_nat (length points) - 1)))
    with (i - 2)%nat by (unfold clampZ; lia).
  replace (Z.to_nat (clampZ (Z.of_nat i + -1) 0 (Z.of_nat (length points) - 1)))
    with (i - 1)%nat by (unfold clampZ; lia).
  replace (Z.to_nat (clampZ (Z.of_nat i + 0) 0 (Z.of_nat (length points) - 1)))
    with i by (unfold clampZ; lia).
  replace (Z.to_nat (clampZ (Z.of_nat i + 1) 0 (Z.of_nat (length points) - 1)))
    with (i + 1)%nat by (unfold clampZ; lia).
  replace (Z.to_nat (clampZ (Z.of_nat i + 2) 0 (Z.of_nat (length points) - 1)))
    with (Nat.min (i + 2) (length points - 1)) by (unfold clampZ; lia).
  cbn [lat lon]. split; reflexivity.
Qed.

(** ** The playback clock *)

(** What a camera update leaves alone. *)
Lemma updateCamera_frame (M : MathLib) (value nowMs : Q) (force : bool) (s : Engine) :
  let s' := updateCameraAtProgress M value nowMs force s in
  selectedDetails s' = selectedDetails s /\ playbackState s' = playbackState s /\
  progress s' = progress s /\ speed s' = speed s /\
  cameraPresetId s' = cameraPresetId s /\ mapRef s' = mapRef s /\
  playbackPointsRef s' = playbackPointsRef s /\ progressRef s' = progressRef s /\
  hasPlayedRef s' = hasPlayedRef s /\ lastFrameMsRef s' = lastFrameMsRef s /\
  lastUiFrameMsRef s' = lastUiFrameMsRef s.
Proof.
  cbv zeta.
  destruct (updateCamera_cases M value nowMs force s) as [E|[c [b E]]]; rewrite E;
    cbn [selectedDetails playbackState progress speed cameraPresetId mapRef
         playbackPointsRef progressRef hasPlayedRef lastFrameMsRef lastUiFrameMsRef
         jumpTo setCameraStateRef setLastBearingRef setLastCameraUpdateMsRef];
    repeat split; reflexivity.
Qed.

Lemma baseDurationMs_bounds (details : TrackDetails) :
  25000 <= baseDurationMs details <= 150000.
Proof. unfold baseDurationMs. apply clamp_bounds. lra. Qed.

(** A frame on an engine that is not playing does nothing. *)
Lemma tick_stopped (M : MathLib) (timestamp : Q) (s : Engine) :
  isPlaying (playbackState s) = false -> tick M timestamp s = s.
Proof.
  intros H. unfold tick. destruct (selectedDetails s); [|reflexivity].
  rewrite H. reflexivity.
Qed.

Lemma frames_stopped (M : MathLib) (timestamps : list Q) (s : Engine) :
  isPlaying (playbackState s) = false -> run M s (map Frame timestamps) = s.
Proof.
  intros H. unfold run. induction timestamps as [|t ts IH]; [reflexivity|].
  cbn [map fold_left step]. rewrite (tick_stopped M t s H). exact IH.
Qed.

(** One frame of a playing engine. *)
Lemma tick_playing (M : MathLib) (timestamp : Q) (s : Engine) (details : TrackDetails) :
  selectedDetails s = Some details ->
  playbackState s = playing ->
  0 < speed s ->
  0 <= progressRef s <= 1 ->
  let lastFrame := match lastFrameMsRef s with Some t => t | None => timestamp end in
  lastFrame <= timestamp ->
  let raw := progressRef s
             + (timestamp - lastFrame) * (speed s / baseDurationMs details) in
  let s' := tick M timestamp s in
  selectedDetails s' = Some details /\ speed s' = speed s /\
  (raw < 1 ->
   playbackState s' = playing /\ lastFrameMsRef s' = Some timestamp /\
   progressRef s' == raw) /\
  (1 <= raw ->
   playbackState s' = paused /\ lastFrameMsRef s' = None /\
   progressRef s' == 1 /\ progress s' == 1).
Proof.
  intros Hd Hp Hspeed Hprog lastFrame Hle raw.
  pose proof (baseDurationMs_bounds details) as Hbase.
  unfold tick. rewrite Hd, Hp. cbn [isPlaying negb]. cbv zeta.
  fold (baseDurationMs details). fold lastFrame.
  set (next := clamp (progressRef s
                      + (timestamp - lastFrame) / (baseDurationMs details / speed s)) 0 1).
  assert (Eraw : progressRef s
                 + (timestamp - lastFrame) / (baseDurationMs details / speed s)
                 == raw).
  { unfold raw. field. split; lra. }
  assert (Hk : 0 <= (timestamp - lastFrame) * (speed s / baseDurationMs details)).
  { apply Qmult_le_0_compat; [lra|]. apply Qle_shift_div_l; lra. }
  assert (Hnext : next == Math_min raw 1).
  { unfold next. rewrite Eraw. unfold raw in *. unfold clamp, Math_min, Math_max.
    qcmp; lra. }
  set (s1 := setProgressRef next
               (setFrameRefs (Some timestamp) (lastUiFrameMsRef s) s)).
  destruct (updateCamera_frame M next timestamp false s1)
    as [Fd [Fp [Fg [Fs [_ [_ [_ [Fr [_ [Ff Fu]]]]]]]]]].
  set (s2 := updateCameraAtProgress M next timestamp false s1) in *.
  cbn [s1 selectedDetails playbackState progress speed progressRef lastFrameMsRef
       lastUiFrameMsRef setProgressRef setFrameRefs] in Fd, Fp, Fg, Fs, Fr, Ff, Fu.
  destruct (Qleb_spec 1 next) as [Hone|Hone].
  - (* the pass ends *)
    assert (Hpub : match lastUiFrameMsRef s2 with
                   | Some lastUiFrame => Qltb 80 (timestamp - lastUiFrame) || true
                   | None => true
                   end = true)
      by (destruct (lastUiFrameMsRef s2); [apply orb_true_r|reflexivity]).
    rewrite Hpub.
    cbn [selectedDetails playbackState progress speed progressRef lastFrameMsRef
         resetFrames setPlaybackState setProgress setFrameRefs].
    split; [rewrite Fd; exact Hd|]. split; [exact Fs|].
    assert (Hraw1 : 1 <= raw) by (revert Hnext Hone; unfold Math_min; qcmp; lra).
    split; [intros Hlt; lra|]. intros _.
    assert (E1 : next == 1) by (revert Hnext; unfold Math_min; qcmp; lra).
    split; [reflexivity|]. split; [reflexivity|].
    split; [rewrite Fr; exact E1|exact E1].
  - (* the pass goes on *)
    assert (Hraw1 : raw < 1) by (revert Hnext Hone; unfold Math_min; qcmp; lra).
    assert (E1 : next == raw) by (revert Hnext; unfold Math_min; qcmp; lra).
    destruct (match lastUiFrameMsRef s2 with
              | Some lastUiFrame => Qltb 80 (timestamp - lastUiFrame) || false
              | None => true
              end);
      cbn [selectedDetails playbackState progress speed progressRef lastFrameMsRef
           setProgress setFrameRefs];
      (split; [rewrite Fd; exact Hd|]); (split; [exact Fs|]);
      (split; [|intros Hge; lra]); intros _;
      (split; [rewrite Fp; exact Hp|]);
      (split; [first [exact Ff | reflexivity]|]);
      rewrite Fr; exact E1.
Qed.

Lemma ascendingFrom_last (timestamps : list Q) :
  forall start, ascendingFrom start timestamps = true -> start <= last timestamps start.
Proof.
  induction timestamps as [|t ts IH]; intros start H; [apply Qle_refl|].
  cbn [ascendingFrom] in H. apply andb_prop in H as [H1 H2].
  destruct (Qleb_spec start t) as [Hle|]; [|discriminate].
  destruct ts as [|t' ts']; [exact Hle|].
  change (last (t :: t' :: ts') start) with (last (t' :: ts') start).
  assert (E : last (t' :: ts') start = last (t' :: ts') t).
  { clear. revert t'. induction ts' as [|u us IHu]; intros t'; [reflexivity|].
    change (last (t' :: u :: us) start) with (last (u :: us) start).
    change (last (t' :: u :: us) t) with (last (u :: us) t). apply IHu. }
  rewrite E. apply Qle_trans with t; [exact Hle|]. apply IH. exact H2.
Qed.

(** The frames of a playing engine: the progress follows the clock. *)
Lemma frames_playing (M : MathLib) (details : TrackDetails) (timestamps : list Q) :
  forall (s : Engine) (t0 : Q),
    selectedDetails s = Some details ->
    playbackState s = playing ->
    lastFrameMsRef s = Some t0 ->
    0 < speed s ->
    0 <= progressRef s < 1 ->
    ascendingFrom t0 timestamps = true ->
    let raw := progressRef s
               + (last timestamps t0 - t0) * (speed s / baseDurationMs details) in
    let s' := run M s (map Frame timestamps) in
    (raw < 1 -> playbackState s' = playing /\ progressRef s' == raw) /\
    (1 <= raw -> playbackState s' = paused /\ progressRef s' == 1 /\ progress s' == 1).
Proof.
  induction timestamps as [|t ts IH]; intros s t0 Hd Hp Hf Hspeed Hprog Hasc raw s'.
  { unfold raw, s'. cbn [last map run fold_left].
    assert (E : progressRef s + (t0 - t0) * (speed s / baseDurationMs details)
                == progressRef s) by ring.
    split; intros H.
    - split; [exact Hp|]. symmetry. exact E.
    - rewrite E in H. lra. }
  pose proof (baseDurationMs_bounds details) as Hbase.
  assert (Hk : 0 < speed s / baseDurationMs details)
    by (apply Qlt_shift_div_l; lra).
  cbn [ascendingFrom] in Hasc. apply andb_prop in Hasc as [H1 H2].
  destruct (Qleb_spec t0 t) as [Hle|]; [|discriminate].
  pose proof (ascendingFrom_last ts t H2) as Hlast.
  assert (Hprog' : 0 <= progressRef s <= 1) by lra.
  pose proof (tick_playing M t s details Hd Hp Hspeed Hprog') as Htick.
  rewrite Hf in Htick. cbv zeta in Htick.
  destruct (Htick Hle) as [Hd1 [Hs1 [Hgo Hend]]].
  assert (Elast : last (t :: ts) t0 = last ts t).
  { destruct ts as [|u us]; [reflexivity|].
    change (last (t :: u :: us) t0) with (last (u :: us) t0).
    clear. revert u. induction us as [|v vs IHv]; intros u; [reflexivity|].
    change (last (u :: v :: vs) t0) with (last (v :: vs) t0).
    change (last (u :: v :: vs) t) with (last (v :: vs) t). apply IHv. }
  unfold raw, s'. rewrite Elast. cbn [map run fold_left step].
  fold (run M (tick M t s) (map Frame ts)).
  set (raw1 := progressRef s + (t - t0) * (speed s / baseDurationMs details)) in *.
  assert (Hmono : (t - t0) * (speed s / baseDurationMs details)
                  <= (last ts t - t0) * (speed s / baseDurationMs details))
    by (apply Qmult_le_compat_r; lra).
  destruct (Qlt_le_dec raw1 1) as [Hlt|Hge].
  - destruct (Hgo Hlt) as [Hp1 [Hf1 Hr1]].
    assert (Hk1 : 0 <= (t - t0) * (speed s / baseDurationMs details))
      by (apply Qmult_le_0_compat; lra).
    assert (Hprog1 : 0 <= progressRef (tick M t s) < 1) by (rewrite Hr1; unfold raw1 in *; lra).
    assert (Hspeed1 : 0 < speed (tick M t s)) by (rewrite Hs1; exact Hspeed).
    destruct (IH (tick M t s) t Hd1 Hp1 Hf1 Hspeed1 Hprog1 H2) as [Hgo' Hend'].
    rewrite Hs1, Hr1 in Hgo', Hend'.
    assert (E : raw1 + (last ts t - t) * (speed s / baseDurationMs details)
                == progressRef s
                   + (last ts t - t0) * (speed s / baseDurationMs details))
      by (unfold raw1; ring).
    rewrite E in Hgo', Hend'.
    split; intros H.
    + destruct (Hgo' H) as [A B]. split; [exact A|exact B].
    + exact (Hend' H).
  - destruct (Hend Hge) as [Hp1 [_ [Hr1 Hg1]]].
    rewrite frames_stopped by (rewrite Hp1; reflexivity).
    split; intros H.
    + unfold raw1 in Hge. lra.
    + split; [exact Hp1|]. split; [exact Hr1|exact Hg1].
Qed.

(** One frame of a playing engine moves the progress by the time since the
    last frame over the duration of a pass, whatever the track. *)
Lemma tick_progressRef (M : MathLib) (timestamp : Q) (s : Engine) (details : TrackDetails) :
  selectedDetails s = Some details ->
  playbackState s = playing ->
  let lastFrame := match lastFrameMsRef s with Some t => t | None => timestamp end in
  progressRef (tick M timestamp s)
  = clamp (progressRef s + (timestamp - lastFrame) / (baseDurationMs details / speed s)) 0 1.
Proof.
  intros Hd Hp lastFrame. unfold tick. rewrite Hd, Hp. cbn [isPlaying negb]. cbv zeta.
  fold (baseDurationMs details). fold lastFrame.
  set (next := clamp (progressRef s
                      + (timestamp - lastFrame) / (baseDurationMs details / speed s)) 0 1).
  set (s1 := setProgressRef next
               (setFrameRefs (Some timestamp) (lastUiFrameMsRef s) s)).
  destruct (updateCamera_frame M next timestamp false s1)
    as [_ [_ [_ [_ [_ [_ [_ [Fr _]]]]]]]].
  set (s2 := updateCameraAtProgress M next timestamp false s1) in *.
  cbn [s1 progressRef setProgressRef setFrameRefs] in Fr.
  destruct (Qleb 1 next);
    destruct (match lastUiFrameMsRef s2 with
              | Some lastUiFrame => _
              | None => true
              end);
    cbn [progressRef resetFrames setPlaybackState setProgress setFrameRefs];
    exact Fr.
Qed.


(** X7: playing follows the clock and ends at 1.  On a loaded track, with
    the engine stopped at a published progress below 1, the play button
    followed by animation frames whose timestamps never decrease never
    moves the progress backwards nor beyond 1; afterwards the engine is
    either still playing, with the progress below 1, or paused with the
    progress, stored and published, equal to 1, and then further frames
    change nothing.  Each frame of a playing engine moves the progress by
    the time since the frame before, over the duration of a pass
    [baseDurationMs / speed], clamped to [[0, 1]]. *)
Theorem playback_follows_clock
    (M : MathLib) (s : Engine) (details : TrackDetails) (nowMs t1 : Q)
    (timestamps : list Q) :
  selectedDetails s = Some details ->
  isPlaying (playbackState s) = false ->
  0 <= progress s < 1 ->
  0 < speed s ->
  ascendingFrom t1 timestamps = true ->
  let s' := run M s (TogglePlay nowMs :: map Frame (t1 :: timestamps)) in
  (progress s <= progressRef s' <= 1) /\
  ((playbackState s' = playing /\ progressRef s' < 1) \/
   (playbackState s' = paused /\ progressRef s' == 1 /\ progress s' == 1 /\
    forall more : list Q, run M s' (map Frame more) = s')) /\
  (forall (p : Engine) (timestamp : Q),
      selectedDetails p = Some details -> playbackState p = playing ->
      progressRef (tick M timestamp p)
      = clamp (progressRef p
               + (timestamp
                  - match lastFrameMsRef p with Some t => t | None => timestamp end)
                 / (baseDurationMs details / speed p)) 0 1).
Proof.
  intros Hd Hp Hprog Hspeed Hasc s'.
  unfold s'. cbn [run fold_left step map].
  fold (run M (tick M t1 (togglePlay M nowMs s)) (map Frame timestamps)).
  set (s0 := togglePlay M nowMs s).
  assert (E0 : s0 = resetFrames
                      (setPlaybackState playing
                         (setHasPlayedRef true (setProgressRef (progress s) s)))).
  { unfold s0, togglePlay. rewrite Hd, Hp.
    destruct (Qleb_spec 1 (progress s)); [lra|].
    destruct (Qltb_spec (progress s) 1); [reflexivity|lra]. }
  assert (Hd0 : selectedDetails s0 = Some details) by (rewrite E0; exact Hd).
  assert (Hp0 : playbackState s0 = playing) by (rewrite E0; reflexivity).
  assert (Hs0 : speed s0 = speed s) by (rewrite E0; reflexivity).
  assert (Hr0 : progressRef s0 = progress s) by (rewrite E0; reflexivity).
  assert (Hf0 : lastFrameMsRef s0 = None) by (rewrite E0; reflexivity).
  assert (Hspeed0 : 0 < speed s0) by (rewrite Hs0; exact Hspeed).
  assert (Hprog0 : 0 <= progressRef s0 <= 1) by (rewrite Hr0; lra).
  pose proof (tick_playing M t1 s0 details Hd0 Hp0 Hspeed0 Hprog0) as Htick.
  rewrite Hf0 in Htick. cbv zeta in Htick.
  destruct (Htick (Qle_refl t1)) as [Hd1 [Hs1 [Hgo _]]].
  assert (Eraw1 : progressRef s0 + (t1 - t1) * (speed s0 / baseDurationMs details)
                  == progress s) by (rewrite Hr0; ring).
  rewrite Eraw1 in Hgo.
  destruct (Hgo (proj2 Hprog)) as [Hp1 [Hf1 Hr1]].
  set (s1 := tick M t1 s0) in *.
  assert (Hspeed1 : 0 < speed s1) by (rewrite Hs1; exact Hspeed0).
  assert (Hprog1 : 0 <= progressRef s1 < 1) by (rewrite Hr1; exact Hprog).
  destruct (frames_playing M details timestamps s1 t1 Hd1 Hp1 Hf1 Hspeed1 Hprog1 Hasc)
    as [Hgo' Hend'].
  rewrite Hs1, Hs0, Hr1 in Hgo', Hend'.
  pose proof (baseDurationMs_bounds details) as Hbase.
  pose proof (ascendingFrom_last timestamps t1 Hasc) as Hlast.
  assert (Hk : 0 <= (last timestamps t1 - t1) * (speed s / baseDurationMs details)).
  { apply Qmult_le_0_compat; [lra|]. apply Qle_shift_div_l; lra. }
  set (raw := progress s
              + (last timestamps t1 - t1) * (speed s / baseDurationMs details)) in *.
  set (s2 := run M s1 (map Frame timestamps)) in *.
  destruct (Qlt_le_dec raw 1) as [Hlt|Hge].
  - destruct (Hgo' Hlt) as [Hp2 Hr2].
    split; [rewrite Hr2; unfold raw in *; lra|].
    split; [|intros p timestamp Hdp Hpp; apply tick_progressRef; assumption].
    left. split; [exact Hp2|]. rewrite Hr2. exact Hlt.
  - destruct (Hend' Hge) as [Hp2 [Hr2 Hg2]].
    split; [rewrite Hr2; lra|].
    split; [|intros p timestamp Hdp Hpp; apply tick_progressRef; assumption].
    right. split; [exact Hp2|]. split; [exact Hr2|]. split; [exact Hg2|].
    intros more. apply frames_stopped. rewrite Hp2. reflexivity.
Qed.

(** The specification's completion scenario: a 10 km track at speed 1 and
    frames spanning 60 s, the base duration of that track. *)
Lemma playback_follows_clock_witness :
  let s := run boundedMath (initialEngine true) [TrackLoaded tenKilometres 0; Speed 1] in
  let s' := run boundedMath s (TogglePlay 500 :: map Frame [1000; 31000; 61000]) in
  (progress s <= progressRef s' <= 1) /\
  ((playbackState s' = playing /\ progressRef s' < 1) \/
   (playbackState s' = paused /\ progressRef s' == 1 /\ progress s' == 1 /\
    forall more : list Q, run boundedMath s' (map Frame more) = s')) /\
  (forall (p : Engine) (timestamp : Q),
      selectedDetails p = Some tenKilometres -> playbackState p = playing ->
      progressRef (tick boundedMath timestamp p)
      = clamp (progressRef p
               + (timestamp
                  - match lastFrameMsRef p with Some t => t | None => timestamp end)
                 / (baseDurationMs tenKilometres / speed p)) 0 1).
Proof.
  apply (playback_follows_clock boundedMath
           (run boundedMath (initialEngine true) [TrackLoaded tenKilometres 0; Speed 1])
           tenKilometres 500 1000 [31000; 61000]).
  - reflexivity.
  - reflexivity.
  - vm_compute. split; [discriminate|reflexivity].
  - vm_compute. reflexivity.
  - reflexivity.
Defined.

(** ** Invariants of the camera cells *)

(** The pose and the bearing a camera update stores, when it stores any. *)
Lemma updateCamera_shape (M : MathLib) (value nowMs : Q) (force : bool) (s : Engine) :
  let cameraPreset := cameraPresetOf (cameraPresetId s) in
  let playbackPoints := playbackPointsOf s in
  let smoothed :=
    smoothedBearing (lastBearingRef s)
      (rawBearingOf M playbackPoints cameraPreset (lastBearingRef s) value)
      (bearingSmoothing cameraPreset) in
  let smoothedCamera :=
    blendCamera (cameraStateRef s) (followOf (playbackState s))
      (desiredLon playbackPoints cameraPreset value)
      (desiredLat playbackPoints cameraPreset value)
      (desiredZoom cameraPreset (zoomOffset s))
      smoothed (pitch cameraPreset) in
  updateCameraAtProgress M value nowMs force s = s \/
  updateCameraAtProgress M value nowMs force s
  = jumpTo smoothedCamera
      (setCameraStateRef (Some smoothedCamera)
         (setLastBearingRef (Some smoothed) (setLastCameraUpdateMsRef nowMs s))).
Proof.
  cbv zeta. unfold updateCameraAtProgress.
  destruct (selectedDetails s); [|left; reflexivity].
  destruct (_ || _); [left; reflexivity|].
  destruct (_ && _); [left; reflexivity|].
  right. reflexivity.
Qed.

Ltac cells :=
  cbn [lastBearingRef cameraStateRef jumpToLog jumpTo
       setSelectedDetails setPlaybackState setProgress setSpeed setZoomOffset
       setCameraPresetId setPlaybackPointsRef setProgressRef setHasPlayedRef
       setLastBearingRef setCameraStateRef setLastCameraUpdateMsRef setFrameRefs
       fitBounds resetFrames poseEffect].

Section CellInvariant.
Variable M : MathLib.
(** A property of the three cells a camera update writes. *)
Variable P : option Q -> option CameraState -> list CameraState -> Prop.

Hypothesis P_update : forall (value nowMs : Q) (force : bool) (s : Engine),
  P (lastBearingRef s) (cameraStateRef s) (jumpToLog s) ->
  P (lastBearingRef (updateCameraAtProgress M value nowMs force s))
    (cameraStateRef (updateCameraAtProgress M value nowMs force s))
    (jumpToLog (updateCameraAtProgress M value nowMs force s)).
Hypothesis P_no_bearing : forall b c l, P b c l -> P None c l.
Hypothesis P_no_camera : forall b c l, P b c l -> P b None l.

Ltac inv H :=
  repeat (cells;
          match goal with
          | |- P (lastBearingRef (updateCameraAtProgress _ _ _ _ _)) _ _ =>
              apply P_update
          | |- _ => exact H
          | |- P None None _ => apply (P_no_bearing None)
          | |- P None _ _ => eapply P_no_bearing; exact H
          | |- P _ None _ => eapply P_no_camera
          end).

Lemma step_cells (s : Engine) (e : Event) :
  P (lastBearingRef s) (cameraStateRef s) (jumpToLog s) ->
  P (lastBearingRef (step M s e)) (cameraStateRef (step M s e)) (jumpToLog (step M s e)).
Proof.
  intros H. destruct e; cbn [step].
  - unfold onTrackLoaded. cbv zeta. destruct (mapRef _); inv H.
    + apply (P_no_bearing (lastBearingRef s)). apply (P_no_camera _ (cameraStateRef s)).
      exact H.
    + apply (P_no_bearing (lastBearingRef s)). apply (P_no_camera _ (cameraStateRef s)).
      exact H.
  - unfold togglePlay. destruct (selectedDetails s); [|exact H].
    destruct (isPlaying _); [inv H|]. cbv zeta.
    destruct (Qleb 1 (progress s)), (Qltb (progress s) 1); inv H.
  - unfold tick. destruct (selectedDetails s); [|exact H].
    destruct (negb _); [exact H|]. cbv zeta.
    destruct (Qleb 1 _);
      destruct (match lastUiFrameMsRef _ with Some _ => _ | None => _ end); inv H.
  - unfold onScrub. cbv zeta. inv H.
  - unfold onZoomIn, poseEffect. cbv zeta. destruct (Qeqb _ _); inv H.
  - unfold onZoomOut, poseEffect. cbv zeta. destruct (Qeqb _ _); inv H.
  - unfold onPreset, poseEffect. destruct (presetIdEqb _ _); inv H.
  - unfold onSpeed. destruct (Qeqb _ _); inv H.
Qed.

Lemma run_cells (events : list Event) :
  forall s, P (lastBearingRef s) (cameraStateRef s) (jumpToLog s) ->
            P (lastBearingRef (run M s events)) (cameraStateRef (run M s events))
              (jumpToLog (run M s events)).
Proof.
  unfold run. induction events as [|e events IH]; intros s H; [exact H|].
  cbn [fold_left]. apply IH, step_cells, H.
Qed.
End CellInvariant.

Lemma blendCamera_pose (prevCamera : option CameraState) (state : PlaybackState)
    (presetId : CameraPresetId) (dLon dLat offset smoothed : Q) :
  (forall c, prevCamera = Some c -> poseInRange c) ->
  poseInRange
    (blendCamera prevCamera (followOf state) dLon dLat
       (desiredZoom (cameraPresetOf presetId) offset) smoothed
       (pitch (cameraPresetOf presetId))).
Proof.
  intros Hprev. unfold poseInRange.
  assert (Hz : 11.5 <= desiredZoom (cameraPresetOf presetId) offset <= 14.5).
  { unfold desiredZoom.
    destruct presetId; cbn [cameraPresetOf cameraPresets find presetIdEqb id zoomBase
                            zoomMin zoomMax].
    - pose proof (clamp_bounds (13.6 + offset) 11.5 14.2). lra.
    - pose proof (clamp_bounds (13.8 + offset) 11.6 14.3). lra.
    - pose proof (clamp_bounds (14.1 + offset) 11.8 14.5). lra. }
  assert (Hp : 62 <= pitch (cameraPresetOf presetId) <= 72).
  { destruct presetId; cbn [cameraPresetOf cameraPresets find presetIdEqb id pitch]; lra. }
  set (z := desiredZoom _ _) in *. set (p := pitch _) in *.
  destruct prevCamera as [c|]; cbn [blendCamera cam_zoom cam_pitch]; [|split; assumption].
  destruct (Hprev c eq_refl) as [Hcz Hcp]. unfold lerp.
  destruct state; cbn [followOf isPlaying]; split; lra.
Qed.

(** X8: whatever the user does, the zoom of every pose the engine stores or
    passes to [map.jumpTo] lies in [[11.5, 14.5]] and its pitch in
    [[62, 72]], the ranges the three presets span. *)
Theorem camera_zoom_pitch_in_range (M : MathLib) (mapReady : bool) (events : list Event) :
  let s := run M (initialEngine mapReady) events in
  (forall c, cameraStateRef s = Some c -> poseInRange c) /\
  Forall poseInRange (jumpToLog s).
Proof.
  cbv zeta.
  apply (run_cells M
           (fun (_ : option Q) (c : option CameraState) (l : list CameraState) =>
              (forall cam, c = Some cam -> poseInRange cam) /\ Forall poseInRange l)).
  - intros value nowMs force s [Hc Hl].
    destruct (updateCamera_shape M value nowMs force s) as [E|E]; rewrite E.
    + split; assumption.
    + cbv zeta. cells.
      assert (Hnew := blendCamera_pose (cameraStateRef s) (playbackState s)
                        (cameraPresetId s)
                        (desiredLon (playbackPointsOf s) (cameraPresetOf (cameraPresetId s))
                           value)
                        (desiredLat (playbackPointsOf s) (cameraPresetOf (cameraPresetId s))
                           value)
                        (zoomOffset s)
                        (smoothedBearing (lastBearingRef s)
                           (rawBearingOf M (playbackPointsOf s)
                              (cameraPresetOf (cameraPresetId s)) (lastBearingRef s) value)
                           (bearingSmoothing (cameraPresetOf (cameraPresetId s))))
                        Hc).
      split.
      * intros cam Hcam. injection Hcam as <-. exact Hnew.
      * constructor; assumption.
  - intros b c l H. exact H.
  - intros b c l [_ Hl]. split; [discriminate|exact Hl].
  - cbn [initialEngine cameraStateRef jumpToLog]. split; [discriminate|constructor].
Qed.

(** ** Bearings *)

Lemma bearingDeg_range (M : MathLib) (lat1 lon1 lat2 lon2 : Q) :
  atan2InRange M -> bearingInRange (bearingDeg M lat1 lon1 lat2 lon2).
Proof.
  intros [Hpi Hatan]. unfold bearingInRange, bearingDeg. cbv zeta.
  set (a := Math_atan2 M _ _).
  destruct (Hatan (Math_sin M (toRad M lon2 - toRad M lon1) * Math_cos M (toRad M lat2))
              (Math_cos M (toRad M lat1) * Math_sin M (toRad M lat2)
               - Math_sin M (toRad M lat1) * Math_cos M (toRad M lat2)
                 * Math_cos M (toRad M lon2 - toRad M lon1))) as [Hlo Hhi].
  fold a in Hlo, Hhi.
  assert (Hdeg : -180 <= toDeg M a).
  { unfold toDeg. apply Qle_shift_div_l; [exact Hpi|]. lra. }
  apply jsRem_nonneg; lra.
Qed.

Lemma blendCamera_bearing (prevCamera : option CameraState) (state : PlaybackState)
    (dLon dLat zoom smoothed desiredPitch : Q) :
  (forall c, prevCamera = Some c -> bearingInRange (cam_bearing c)) ->
  bearingInRange smoothed ->
  bearingInRange
    (cam_bearing
       (blendCamera prevCamera (followOf state) dLon dLat zoom smoothed desiredPitch)).
Proof.
  unfold bearingInRange. intros Hprev Hs.
  destruct prevCamera as [c|]; cbn [blendCamera cam_bearing]; [|exact Hs].
  specialize (Hprev c eq_refl).
  assert (Hd : -540 <= smoothed - cam_bearing c) by lra.
  destruct (shortestAngleDiff_spec (cam_bearing c) smoothed Hd) as [Hr _].
  set (d := shortestAngleDiff (cam_bearing c) smoothed) in *.
  destruct state; cbn [followOf isPlaying]; apply jsRem_nonneg; lra.
Qed.

(** X9: provided the host's [atan2] returns angles in [[-PI, PI]], every
    bearing the engine keeps is a compass bearing in [[0, 360)], whatever
    the user does: the smoothed bearing it remembers, the bearing of the
    camera state and the bearing of every pose passed to [map.jumpTo]. *)
Theorem bearings_stay_in_range (M : MathLib) (mapReady : bool) (events : list Event) :
  atan2InRange M ->
  let s := run M (initialEngine mapReady) events in
  (forall b, lastBearingRef s = Some b -> bearingInRange b) /\
  (forall c, cameraStateRef s = Some c -> bearingInRange (cam_bearing c)) /\
  Forall (fun c => bearingInRange (cam_bearing c)) (jumpToLog s).
Proof.
  intros HM. cbv zeta.
  apply (run_cells M
           (fun (b : option Q) (c : option CameraState) (l : list CameraState) =>
              (forall x, b = Some x -> bearingInRange x) /\
              (forall cam, c = Some cam -> bearingInRange (cam_bearing cam)) /\
              Forall (fun cam => bearingInRange (cam_bearing cam)) l)).
  - intros value nowMs force s [Hb [Hc Hl]].
    destruct (updateCamera_shape M value nowMs force s) as [E|E]; rewrite E.
    + split; [|split]; assumption.
    + cbv zeta. cells.
      set (preset := cameraPresetOf (cameraPresetId s)).
      set (raw := rawBearingOf M (playbackPointsOf s) preset (lastBearingRef s) value).
      assert (Hsm : bearingInRange
                      (smoothedBearing (lastBearingRef s) raw (bearingSmoothing preset))).
      { destruct (lastBearingRef s) as [last|] eqn:El.
        - apply smoothedBearing_range. apply (Hb last). reflexivity.
        - cbn [smoothedBearing]. unfold raw, rawBearingOf. cbv zeta.
          apply bearingDeg_range. exact HM. }
      set (sm := smoothedBearing _ raw _) in *.
      assert (Hnew := blendCamera_bearing (cameraStateRef s) (playbackState s)
                        (desiredLon (playbackPointsOf s) preset value)
                        (desiredLat (playbackPointsOf s) preset value)
                        (desiredZoom preset (zoomOffset s)) sm (pitch preset) Hc Hsm).
      split; [|split].
      * intros x Hx. injection Hx as <-. exact Hsm.
      * intros cam Hcam. injection Hcam as <-. exact Hnew.
      * constructor; assumption.
  - intros b c l [_ [Hc Hl]]. split; [discriminate|]. split; assumption.
  - intros b c l [Hb [_ Hl]]. split; [exact Hb|]. split; [discriminate|exact Hl].
  - cbn [initialEngine lastBearingRef cameraStateRef jumpToLog].
    split; [discriminate|]. split; [discriminate|constructor].
Qed.

Lemma boundedMath_atan2InRange : atan2InRange boundedMath.
Proof.
  unfold atan2InRange, boundedMath. cbn [Math_PI Math_atan2]. split; [reflexivity|].
  intros y x.
  pose proof (clamp_bounds (if Qeqb x 0 then 0 else y / x)
                (-3.141592653589793) 3.141592653589793) as H.
  lra.
Qed.

Lemma bearings_stay_in_range_witness :
  let s := run boundedMath (initialEngine true)
             [TrackLoaded threePointTrack 0; Scrub 50 100; TogglePlay 200;
              Frame 300; Frame 400; Preset chase 500] in
  (forall b, lastBearingRef s = Some b -> bearingInRange b) /\
  (forall c, cameraStateRef s = Some c -> bearingInRange (cam_bearing c)) /\
  Forall (fun c => bearingInRange (cam_bearing c)) (jumpToLog s).
Proof.
  apply (bearings_stay_in_range boundedMath true
           [TrackLoaded threePointTrack 0; Scrub 50 100; TogglePlay 200;
            Frame 300; Frame 400; Preset chase 500]).
  exact boundedMath_atan2InRange.
Defined.

(** ** The GPX parser *)

Lemma loop_invariant (M : MathLib) (P : Gpx.Loop -> Prop) :
  (forall st raw, P st -> P (Gpx.visit M st raw)) ->
  forall raws st, P st -> P (fold_left (Gpx.visit M) raws st).
Proof.
  intros Hstep raws. induction raws as [|raw raws IH]; intros st H; [exact H|].
  cbn [fold_left]. apply IH, Hstep, H.
Qed.

Lemma visit_skip (M : MathLib) (st : Gpx.Loop) (raw : Gpx.RawPoint) :
  Gpx.hasCoordinates raw = false -> Gpx.visit M st raw = st.
Proof.
  unfold Gpx.hasCoordinates, Gpx.visit.
  destruct (Gpx.raw_lat raw), (Gpx.raw_lon raw); intros H;
    [discriminate H|reflexivity..].
Qed.

Lemma visit_points (M : MathLib) (st : Gpx.Loop) (raw : Gpx.RawPoint) :
  Gpx.hasCoordinates raw = true ->
  exists p, Gpx.acc_points (Gpx.visit M st raw) = Gpx.acc_points st ++ [p] /\
            Gpx.carries p raw.
Proof.
  unfold Gpx.hasCoordinates, Gpx.visit, Gpx.carries.
  destruct (Gpx.raw_lat raw) as [lat_|], (Gpx.raw_lon raw) as [lon_|]; intros H;
    try discriminate H.
  cbv zeta. eexists. cbn [Gpx.acc_points]. split; [reflexivity|].
  cbn [lat lon ele time]. split; [reflexivity|]. split; [reflexivity|].
  split; reflexivity.
Qed.

Lemma loop_points (M : MathLib) (raws : list Gpx.RawPoint) :
  forall (st : Gpx.Loop) (base : list Gpx.RawPoint),
    Forall2 Gpx.carries (Gpx.acc_points st) base ->
    Forall2 Gpx.carries (Gpx.acc_points (fold_left (Gpx.visit M) raws st))
      (base ++ filter Gpx.hasCoordinates raws).
Proof.
  induction raws as [|raw raws IH]; intros st base H.
  - cbn [fold_left filter]. rewrite app_nil_r. exact H.
  - cbn [fold_left filter]. destruct (Gpx.hasCoordinates raw) eqn:Ev.
    + destruct (visit_points M st raw Ev) as [p [Ep Hp]].
      replace (base ++ raw :: filter Gpx.hasCoordinates raws)
        with ((base ++ [raw]) ++ filter Gpx.hasCoordinates raws)
        by (rewrite <- app_assoc; reflexivity).
      apply IH. rewrite Ep. apply Forall2_app; [exact H|].
      constructor; [exact Hp|constructor].
    + rewrite (visit_skip M st raw Ev). apply IH, H.
Qed.

(** What [parseGpx] returns when it returns. *)
Lemma parseGpx_ok (M : MathLib) (trk rte : list Gpx.RawPoint) (parsed : Gpx.ParsedGpx) :
  Gpx.parseGpx M trk rte = Gpx.Ok parsed ->
  let st := fold_left (Gpx.visit M) (Gpx.rawPointsOf trk rte) Gpx.start in
  (2 <= length (Gpx.acc_points st))%nat /\
  Gpx.points parsed = Gpx.acc_points st /\
  Gpx.distanceM parsed = Gpx.acc_distanceM st /\
  Gpx.minEleM parsed = Gpx.finiteOrNull (Gpx.acc_minEleM st) /\
  Gpx.maxEleM parsed = Gpx.finiteOrNull (Gpx.acc_maxEleM st) /\
  Gpx.bounds parsed = Gpx.acc_bounds st.
Proof.
  unfold Gpx.parseGpx. cbv zeta.
  destruct (_ <? 2)%nat; [discriminate|].
  destruct (_ <? 2)%nat eqn:E; [discriminate|].
  apply Nat.ltb_ge in E. intros H. injection H as <-.
  cbn [Gpx.points Gpx.distanceM Gpx.minEleM Gpx.maxEleM Gpx.bounds].
  split; [exact E|]. split; [reflexivity|]. split; [reflexivity|].
  split; [reflexivity|]. split; reflexivity.
Qed.

(** X10: [parseGpx] keeps exactly the raw points that have a finite
    latitude and longitude, in their order and with their numbers, and it
    fails exactly when fewer than two of them remain.  The raw points are
    the track's when the file has any track point and the route's
    otherwise. *)
Theorem parseGpx_keeps_valid_points (M : MathLib) (trk rte : list Gpx.RawPoint) :
  let valid := filter Gpx.hasCoordinates (Gpx.rawPointsOf trk rte) in
  match Gpx.parseGpx M trk rte with
  | Gpx.Ok parsed =>
      (2 <= length valid)%nat /\ Forall2 Gpx.carries (Gpx.points parsed) valid
  | Gpx.Error _ => (length valid < 2)%nat
  end.
Proof.
  cbv zeta. unfold Gpx.parseGpx. cbv zeta.
  set (raws := Gpx.rawPointsOf trk rte).
  assert (Hp := loop_points M raws Gpx.start [] (Forall2_nil _)).
  cbn [app] in Hp.
  destruct (length raws <? 2)%nat eqn:E1.
  - apply Nat.ltb_lt in E1.
    pose proof (filter_length_le Gpx.hasCoordinates raws). lia.
  - pose proof (Forall2_length Hp) as El.
    destruct (length (Gpx.acc_points _) <? 2)%nat eqn:E2.
    + apply Nat.ltb_lt in E2. lia.
    + apply Nat.ltb_ge in E2. cbv beta iota. cbn [Gpx.points]. split; [lia|exact Hp].
Qed.

(** *** Distances *)

Lemma haversineMeters_nonneg (M : MathLib) (lat1 lon1 lat2 lon2 : Q) :
  distanceMath M -> 0 <= Gpx.haversineMeters M lat1 lon1 lat2 lon2.
Proof.
  intros [Hsqrt Hatan]. unfold Gpx.haversineMeters. cbv zeta.
  set (a := _ + _ * _ * _).
  pose proof (Hatan (Math_sqrt M a) (Math_sqrt M (1 - a)) (Hsqrt a)) as H.
  set (t := Math_atan2 M _ _) in *. lra.
Qed.

Lemma last_cons (rest : list TrackPoint) :
  forall q first : TrackPoint, last (q :: rest) first = last rest q.
Proof.
  induction rest as [|r rest IH]; intros q first; [reflexivity|].
  change (last (q :: r :: rest) first) with (last (r :: rest) first).
  rewrite (IH r first), (IH r q). reflexivity.
Qed.

Lemma last_at (first : TrackPoint) (rest : list TrackPoint) :
  last rest first = at_ (first :: rest) (length rest).
Proof.
  unfold at_. revert first. induction rest as [|q rest IH]; intros first; [reflexivity|].
  rewrite last_cons, (IH q). reflexivity.
Qed.

Lemma at_app_old (pts : list TrackPoint) (p : TrackPoint) (i : nat) :
  (i < length pts)%nat -> at_ (pts ++ [p]) i = at_ pts i.
Proof. intros H. unfold at_. apply app_nth1, H. Qed.

Lemma at_app_new (pts : list TrackPoint) (p : TrackPoint) :
  at_ (pts ++ [p]) (length pts) = p.
Proof. unfold at_. rewrite app_nth2, Nat.sub_diag by lia. reflexivity. Qed.

Lemma visit_distancesChained (M : MathLib) (st : Gpx.Loop) (raw : Gpx.RawPoint) :
  distancesChained M st -> distancesChained M (Gpx.visit M st raw).
Proof.
  intros [Hnil [Hcons Hchain]]. unfold Gpx.visit.
  destruct (Gpx.raw_lat raw) as [lat_|]; [|split; [exact Hnil|split; assumption]].
  destruct (Gpx.raw_lon raw) as [lon_|]; [|split; [exact Hnil|split; assumption]].
  cbv zeta. unfold distancesChained. cbv zeta.
  cbn [Gpx.acc_points Gpx.acc_distanceM].
  destruct (Gpx.acc_points st) as [|first rest] eqn:Ep.
  - rewrite (Hnil eq_refl). cbn [app length Nat.sub at_ nth distanceFromStartM].
    split; [intros H; discriminate H|]. split; [intros _; split; reflexivity|].
    intros i Hi. lia.
  - destruct (Hcons ltac:(discriminate)) as [H0 Hlast].
    rewrite last_at.
    set (pts := first :: rest) in *.
    assert (Hlen : length pts = S (length rest)) by reflexivity.
    replace (length pts - 1)%nat with (length rest) in Hlast by lia.
    set (prev := at_ pts (length rest)) in *.
    set (p := {| lat := lat_; lon := lon_; ele := Gpx.raw_ele raw;
                 time := Gpx.raw_time raw;
                 distanceFromStartM :=
                   Gpx.acc_distanceM st
                   + Gpx.haversineMeters M (lat prev) (lon prev) lat_ lon_ |}).
    split; [intros H; apply app_eq_nil in H; destruct H as [_ H]; discriminate H|].
    split.
    + intros _. rewrite length_app. cbn [length].
      replace (length pts + 1 - 1)%nat with (length pts) by lia.
      rewrite at_app_new, at_app_old by lia. split; [exact H0|reflexivity].
    + intros i Hi. rewrite length_app in Hi. cbn [length] in Hi.
      destruct (Nat.eq_dec (S i) (length pts)) as [E|E].
      * rewrite E, at_app_new. rewrite at_app_old by lia.
        assert (Ei : i = length rest) by lia. rewrite Ei. fold prev.
        rewrite Hlast. reflexivity.
      * rewrite !at_app_old by lia. apply Hchain. lia.
Qed.

(** X11: the distances [parseGpx] stores are the cumulative great-circle
    distances along the points it keeps.  When it returns, there are at
    least two points, the first is at distance 0, each further point lies
    one [haversineMeters] step beyond the one before it, and the track's
    [distanceM] is the distance of the last point; provided the host's
    square root and [atan2] are not negative where the real ones are not,
    the distances never decrease, which is what the playback resampler and
    the distance index assume of a track. *)
Theorem parseGpx_distances
    (M : MathLib) (trk rte : list Gpx.RawPoint) (parsed : Gpx.ParsedGpx) :
  distanceMath M ->
  Gpx.parseGpx M trk rte = Gpx.Ok parsed ->
  let pts := Gpx.points parsed in
  (2 <= length pts)%nat /\
  distanceFromStartM (at_ pts 0) == 0 /\
  (forall i, (S i < length pts)%nat ->
     distanceFromStartM (at_ pts (S i))
     == distanceFromStartM (at_ pts i)
        + Gpx.haversineMeters M (lat (at_ pts i)) (lon (at_ pts i))
            (lat (at_ pts (S i))) (lon (at_ pts (S i)))) /\
  nondecreasing pts = true /\
  Gpx.distanceM parsed == distanceFromStartM (at_ pts (length pts - 1)).
Proof.
  intros HM Hok. cbv zeta.
  destruct (parseGpx_ok M trk rte parsed Hok) as [Hlen [Ep [Ed _]]].
  rewrite Ep, Ed.
  set (st := fold_left (Gpx.visit M) (Gpx.rawPointsOf trk rte) Gpx.start) in *.
  assert (Hinv : distancesChained M st).
  { apply loop_invariant; [apply visit_distancesChained|].
    split; [reflexivity|]. split; [intros H; contradiction H; reflexivity|].
    intros i Hi. cbn [Gpx.start Gpx.acc_points length] in Hi. lia. }
  destruct Hinv as [_ [Hcons Hchain]].
  assert (Hne : Gpx.acc_points st <> []).
  { intros E. rewrite E in Hlen. cbn [length] in Hlen. lia. }
  destruct (Hcons Hne) as [H0 Hlast].
  split; [exact Hlen|].
  split; [rewrite H0; apply Qeq_refl|].
  split; [intros i Hi; rewrite (Hchain i Hi); apply Qeq_refl|].
  split; [|rewrite Hlast; apply Qeq_refl].
  apply nondecreasing_intro. intros i Hi. rewrite (Hchain i Hi).
  pose proof (haversineMeters_nonneg M (lat (at_ (Gpx.acc_points st) i))
                (lon (at_ (Gpx.acc_points st) i))
                (lat (at_ (Gpx.acc_points st) (S i)))
                (lon (at_ (Gpx.acc_points st) (S i))) HM) as Hh.
  set (h := Gpx.haversineMeters M _ _ _ _) in *. lra.
Qed.

Lemma flatMath_distanceMath : distanceMath flatMath.
Proof.
  split; cbn [flatMath Math_sqrt Math_atan2].
  - intros x. apply Qabs_nonneg.
  - intros y _ H. exact H.
Qed.

Lemma parseGpx_distances_witness :
  let pts := Gpx.points (parsedOf (Gpx.parseGpx flatMath rawTrack [])) in
  (2 <= length pts)%nat /\
  distanceFromStartM (at_ pts 0) == 0 /\
  (forall i, (S i < length pts)%nat ->
     distanceFromStartM (at_ pts (S i))
     == distanceFromStartM (at_ pts i)
        + Gpx.haversineMeters flatMath (lat (at_ pts i)) (lon (at_ pts i))
            (lat (at_ pts (S i))) (lon (at_ pts (S i)))) /\
  nondecreasing pts = true /\
  Gpx.distanceM (parsedOf (Gpx.parseGpx flatMath rawTrack []))
  == distanceFromStartM (at_ pts (length pts - 1)).
Proof.
  apply (parseGpx_distances flatMath rawTrack []
           (parsedOf (Gpx.parseGpx flatMath rawTrack []))).
  - exact flatMath_distanceMath.
  - vm_compute. reflexivity.
Defined.

(** *** Bounds *)

Lemma below_ext_min (running : Gpx.Extended) (x y : Q) :
  Gpx.below running x -> Gpx.below (Gpx.ext_min running y) x.
Proof.
  destruct running as [|q|]; cbn [Gpx.below Gpx.ext_min]; intros H;
    [contradiction|qminmax|contradiction].
Qed.

Lemma above_ext_max (running : Gpx.Extended) (x y : Q) :
  Gpx.above running x -> Gpx.above (Gpx.ext_max running y) x.
Proof.
  destruct running as [|q|]; cbn [Gpx.above Gpx.ext_max]; intros H;
    [contradiction|qminmax|contradiction].
Qed.

Lemma below_ext_min_new (running : Gpx.Extended) (y : Q) :
  running <> Gpx.NegativeInfinity -> Gpx.below (Gpx.ext_min running y) y.
Proof.
  destruct running as [|q|]; cbn [Gpx.below Gpx.ext_min]; intros H;
    [contradiction H; reflexivity|qminmax|apply Qle_refl].
Qed.

Lemma above_ext_max_new (running : Gpx.Extended) (y : Q) :
  running <> Gpx.PositiveInfinity -> Gpx.above (Gpx.ext_max running y) y.
Proof.
  destruct running as [|q|]; cbn [Gpx.above Gpx.ext_max]; intros H;
    [apply Qle_refl|qminmax|contradiction H; reflexivity].
Qed.

Lemma ext_min_not_low (running : Gpx.Extended) (y : Q) :
  running <> Gpx.NegativeInfinity -> Gpx.ext_min running y <> Gpx.NegativeInfinity.
Proof. destruct running; cbn [Gpx.ext_min]; intros H; [exact H|discriminate..]. Qed.

Lemma ext_max_not_high (running : Gpx.Extended) (y : Q) :
  running <> Gpx.PositiveInfinity -> Gpx.ext_max running y <> Gpx.PositiveInfinity.
Proof. destruct running; cbn [Gpx.ext_max]; intros H; [discriminate..|exact H]. Qed.

Lemma visit_boxed (M : MathLib) (st : Gpx.Loop) (raw : Gpx.RawPoint) :
  boxed st -> boxed (Gpx.visit M st raw).
Proof.
  intros [[H1 [H2 [H3 H4]]] Hall]. unfold Gpx.visit.
  destruct (Gpx.raw_lat raw) as [lat_|]; [|split; [tauto|exact Hall]].
  destruct (Gpx.raw_lon raw) as [lon_|]; [|split; [tauto|exact Hall]].
  cbv zeta. unfold boxed. cbv zeta.
  cbn [Gpx.acc_bounds Gpx.acc_points Gpx.minLat Gpx.minLon Gpx.maxLat Gpx.maxLon].
  split.
  - split; [apply ext_min_not_low, H1|]. split; [apply ext_min_not_low, H2|].
    split; [apply ext_max_not_high, H3|apply ext_max_not_high, H4].
  - apply Forall_app. split.
    + apply (Forall_impl _ (P := Gpx.inBounds (Gpx.acc_bounds st))); [|exact Hall].
      intros p [Ha [Hb [Hc Hd]]]. unfold Gpx.inBounds.
      cbn [Gpx.minLat Gpx.minLon Gpx.maxLat Gpx.maxLon].
      split; [apply below_ext_min, Ha|]. split; [apply above_ext_max, Hb|].
      split; [apply below_ext_min, Hc|apply above_ext_max, Hd].
    + constructor; [|constructor]. unfold Gpx.inBounds.
      cbn [Gpx.minLat Gpx.minLon Gpx.maxLat Gpx.maxLon lat lon].
      split; [apply below_ext_min_new, H1|]. split; [apply above_ext_max_new, H3|].
      split; [apply below_ext_min_new, H2|apply above_ext_max_new, H4].
Qed.

Lemma visit_elevationsTracked (M : MathLib) (st : Gpx.Loop) (raw : Gpx.RawPoint) :
  elevationsTracked st -> elevationsTracked (Gpx.visit M st raw).
Proof.
  intros H. unfold Gpx.visit.
  destruct (Gpx.raw_lat raw) as [lat_|]; [|exact H].
  destruct (Gpx.raw_lon raw) as [lon_|]; [|exact H].
  cbv zeta. unfold elevationsTracked in *.
  cbn [Gpx.acc_minEleM Gpx.acc_maxEleM Gpx.acc_points].
  destruct (Gpx.raw_ele raw) as [e|].
  - destruct (Gpx.acc_minEleM st) as [|l|], (Gpx.acc_maxEleM st) as [|h|];
      try contradiction; cbn [Gpx.ext_min Gpx.ext_max].
    + destruct H as [Hall Hex]. split.
      * apply Forall_app. split.
        -- apply (Forall_impl _ (P := fun p => forall e0, ele p = Some e0 -> l <= e0 <= h));
             [|exact Hall].
           intros p Hp e0 He0. specialize (Hp e0 He0). qminmax.
        -- constructor; [|constructor]. cbn [ele]. intros e0 He0.
           injection He0 as <-. qminmax.
      * apply Exists_app. left. exact Hex.
    + split.
      * apply Forall_app. split.
        -- apply (Forall_impl _ (P := fun p => ele p = None)); [|exact H].
           intros p Hp e0 He0. rewrite Hp in He0. discriminate He0.
        -- constructor; [|constructor]. cbn [ele]. intros e0 He0.
           injection He0 as <-. split; apply Qle_refl.
      * apply Exists_app. right. constructor. cbn [ele]. discriminate.
  - destruct (Gpx.acc_minEleM st) as [|l|], (Gpx.acc_maxEleM st) as [|h|];
      try contradiction.
    + destruct H as [Hall Hex]. split.
      * apply Forall_app. split; [exact Hall|].
        constructor; [|constructor]. cbn [ele]. intros e0 He0. discriminate He0.
      * apply Exists_app. left. exact Hex.
    + apply Forall_app. split; [exact H|]. constructor; [reflexivity|constructor].
Qed.

(** X12: the summary [parseGpx] returns with the points is sound.  Every
    point it keeps lies inside the bounding box it reports, whose four
    sides are finite; and the reported minimum and maximum elevation
    enclose the elevation of every point that has one, and are [null]
    exactly when no point has an elevation. *)
Theorem parseGpx_summary_sound
    (M : MathLib) (trk rte : list Gpx.RawPoint) (parsed : Gpx.ParsedGpx) :
  Gpx.parseGpx M trk rte = Gpx.Ok parsed ->
  Forall (Gpx.inBounds (Gpx.bounds parsed)) (Gpx.points parsed) /\
  Gpx.elevationsWithin (Gpx.minEleM parsed) (Gpx.maxEleM parsed) (Gpx.points parsed).
Proof.
  intros Hok.
  destruct (parseGpx_ok M trk rte parsed Hok) as [Hlen [Ep [_ [Elo [Ehi Eb]]]]].
  rewrite Ep, Elo, Ehi, Eb.
  set (st := fold_left (Gpx.visit M) (Gpx.rawPointsOf trk rte) Gpx.start) in *.
  split.
  - assert (Hinv : boxed st).
    { apply loop_invariant; [apply visit_boxed|].
      split; [|constructor].
      cbn [Gpx.start Gpx.acc_bounds Gpx.minLat Gpx.minLon Gpx.maxLat Gpx.maxLon].
      split; [discriminate|]. split; [discriminate|]. split; discriminate. }
    exact (proj2 Hinv).
  - assert (Hinv : elevationsTracked st).
    { apply loop_invariant; [apply visit_elevationsTracked|]. constructor. }
    unfold elevationsTracked in Hinv. unfold Gpx.elevationsWithin.
    destruct (Gpx.acc_minEleM st), (Gpx.acc_maxEleM st);
      cbn [Gpx.finiteOrNull]; try contradiction; exact Hinv.
Qed.

Lemma parseGpx_summary_sound_witness :
  let parsed := parsedOf (Gpx.parseGpx flatMath rawTrack []) in
  Forall (Gpx.inBounds (Gpx.bounds parsed)) (Gpx.points parsed) /\
  Gpx.elevationsWithin (Gpx.minEleM parsed) (Gpx.maxEleM parsed) (Gpx.points parsed).
Proof.
  apply (parseGpx_summary_sound flatMath rawTrack []
           (parsedOf (Gpx.parseGpx flatMath rawTrack []))).
  vm_compute. reflexivity.
Defined.

(** ** Runs of the code's arithmetic on binary64 *)

Section Binary64Runs.
Import PrimFloat.
#[local] Set Warnings "-inexact-float".
#[local] Open Scope float_scope.


(** The interpolation at the fraction 1 is the right end only up to the
  rounding of [a + (b - a) * 1]. *)
Lemma lerp_at_one_on_binary64 :
Binary64.lerp (-0.0005) (-0.00024) 1 = -0.00023999999999999998 /\
(Binary64.lerp (-0.0005) (-0.00024) 1 =? -0.00024) = false /\
Binary64.lerp (-0.0005) (-0.00024) 0 = -0.0005.
Proof. vm_compute. repeat split; reflexivity. Qed.

(** The distance of the last of 300 samples on a track of 7 m is the
  rounded product 299 * (7 / 299), just below 7. *)
Lemma last_sample_distance_on_binary64 :
Binary64.targetDistanceAt 7 300 299 = 6.999999999999999 /\
(Binary64.targetDistanceAt 7 300 299 <? 7) = true /\
Binary64.targetDistanceAt 7 300 0 = 0.
Proof. vm_compute. repeat split; reflexivity. Qed.

End Binary64Runs.

(** ** Tracks of fewer than two points *)

(** C2, as the code has it: while the playback points number fewer than two
    (and every track loaded later is as short), every camera update returns
    at once and no event makes the engine pass a pose to [map.jumpTo].
    What the map does get is one [map.fitBounds] for every track loaded,
    however short, with pitch 68 and bearing 0.  [togglePlay] is a no-op
    while no track is loaded; on a loaded track, however short, it
    switches a stopped engine to ["playing"], and each frame of a playing
    engine then moves the progress by the time elapsed over the duration of
    a pass. *)
Theorem short_track_gets_no_camera_update (M : MathLib) (s : Engine) (events : list Event) :
  (length (playbackPointsOf s) < 2)%nat ->
  Forall loadsShortTracks events ->
  let s' := run M s events in
  jumpToLog s' = jumpToLog s /\
  (forall (value nowMs : Q) (force : bool),
      updateCameraAtProgress M value nowMs force s' = s') /\
  fitBoundsLog s'
  = (if mapRef s then fitBoundsCalls events (fitBoundsLog s) else fitBoundsLog s) /\
  (forall (details : TrackDetails) (nowMs : Q),
      mapRef s = true ->
      fitBoundsLog (step M s (TrackLoaded details nowMs))
      = fitBoundsOf details :: fitBoundsLog s /\
      fit_pitch (fitBoundsOf details) = 68 /\ fit_bearing (fitBoundsOf details) = 0) /\
  (forall nowMs : Q,
      (selectedDetails s = None -> togglePlay M nowMs s = s) /\
      (selectedDetails s <> None -> isPlaying (playbackState s) = false ->
       playbackState (togglePlay M nowMs s) = playing)) /\
  (forall (details : TrackDetails) (timestamp : Q),
      selectedDetails s = Some details -> playbackState s = playing ->
      progressRef (tick M timestamp s)
      = clamp (progressRef s
               + (timestamp
                  - match lastFrameMsRef s with Some t => t | None => timestamp end)
                 / (baseDurationMs details / speed s)) 0 1).
Proof.
  intros H Hev s'. unfold s'.
  destruct (run_inert M events s H Hev) as [H1 H2].
  split; [exact H2|].
  split; [intros value nowMs force; apply updateCamera_inert; exact H1|].
  split; [exact (proj2 (run_fitBoundsLog M events s))|].
  split.
  { intros details nowMs Hm.
    rewrite (proj2 (step_fitBoundsLog M s (TrackLoaded details nowMs))), Hm.
    split; [reflexivity|]. split; reflexivity. }
  split.
  { intros nowMs. unfold togglePlay. split.
    - intros E. rewrite E. reflexivity.
    - intros E Hp. destruct (selectedDetails s); [|congruence].
      rewrite Hp. reflexivity. }
  intros details timestamp Hd Hp. apply tick_progressRef; assumption.
Qed.

Lemma short_track_gets_no_camera_update_witness :
  let s := onTrackLoaded smallAngleMath onePoint 1000 (initialEngine true) in
  let events := [TogglePlay 2000; Frame 3000; Frame 4000; Scrub 50 5000;
                 TrackLoaded onePoint 6000] in
  let s' := run smallAngleMath s events in
  jumpToLog s' = jumpToLog s /\
  (forall (value nowMs : Q) (force : bool),
      updateCameraAtProgress smallAngleMath value nowMs force s' = s') /\
  fitBoundsLog s'
  = (if mapRef s then fitBoundsCalls events (fitBoundsLog s) else fitBoundsLog s) /\
  (forall (details : TrackDetails) (nowMs : Q),
      mapRef s = true ->
      fitBoundsLog (step smallAngleMath s (TrackLoaded details nowMs))
      = fitBoundsOf details :: fitBoundsLog s /\
      fit_pitch (fitBoundsOf details) = 68 /\ fit_bearing (fitBoundsOf details) = 0) /\
  (forall nowMs : Q,
      (selectedDetails s = None -> togglePlay smallAngleMath nowMs s = s) /\
      (selectedDetails s <> None -> isPlaying (playbackState s) = false ->
       playbackState (togglePlay smallAngleMath nowMs s) = playing)) /\
  (forall (details : TrackDetails) (timestamp : Q),
      selectedDetails s = Some details -> playbackState s = playing ->
      progressRef (tick smallAngleMath timestamp s)
      = clamp (progressRef s
               + (timestamp
                  - match lastFrameMsRef s with Some t => t | None => timestamp end)
                 / (baseDurationMs details / speed s)) 0 1).
Proof.
  apply (short_track_gets_no_camera_update smallAngleMath
           (onTrackLoaded smallAngleMath onePoint 1000 (initialEngine true))
           [TogglePlay 2000; Frame 3000; Frame 4000; Scrub 50 5000;
            TrackLoaded onePoint 6000]).
  - vm_compute. lia.
  - repeat constructor.
Defined.

(** The play button on a one-point track, whatever the host's [Math]. *)
Lemma one_point_track_plays (M : MathLib) :
  let s := onTrackLoaded M onePoint 1000 (initialEngine true) in
  playbackState s = idle /\
  progressRef s == 0 /\
  jumpToLog s = [] /\
  fitBoundsLog s = [fitBoundsOf onePoint] /\
  playbackState (togglePlay M 2000 s) = playing /\
  progressRef (run M s [TogglePlay 2000; Frame 3000; Frame 4000]) == 0.08.
Proof.
  cbv zeta. split; [reflexivity|]. split; [reflexivity|]. split; [reflexivity|].
  split; [reflexivity|]. split; reflexivity.
Qed.

(** C2 as stated fails: a track of one point is loaded on a ready map,
    which fits the map to the track's bounds (no pose goes to
    [map.jumpTo]); the play button is clicked and two frames arrive one
    second apart; the state is ["playing"] and the progress has advanced
    from 0 to 0.08. *)
Lemma short_track_play_starts :
  let s := onTrackLoaded smallAngleMath onePoint 1000 (initialEngine true) in
  (length (points onePoint) < 2)%nat /\
  playbackState s = idle /\
  progressRef s == 0 /\
  jumpToLog s = [] /\
  fitBoundsLog s = [fitBoundsOf onePoint] /\
  playbackState (togglePlay smallAngleMath 2000 s) = playing /\
  progressRef (run smallAngleMath s [TogglePlay 2000; Frame 3000; Frame 4000]) == 0.08.
Proof.
  cbv zeta. split; [vm_compute; lia|]. exact (one_point_track_plays smallAngleMath).
Qed.

(** ** The zoom offset at its bounds *)

(** C10 as stated fails: not every change of the zoom offset is a step of
    0.2.  Seven presses of the zoom-in button take the offset from 0 to
    1.4; the eighth sets it to [clamp(1.4 + 0.2, -1.5, 1.5) = 1.5], a step
    of 0.1. *)
Lemma zoom_step_cut_short_at_bound :
  let s7 := run smallAngleMath (initialEngine false) (repeat (ZoomIn 0) 7) in
  let s8 := step smallAngleMath s7 (ZoomIn 0) in
  (1.39 < zoomOffset s7 < 1.41) /\
  zoomOffset s8 == 1.5 /\
  ~ zoomOffset s8 == zoomOffset s7 + 0.2 /\
  ~ zoomOffset s8 == zoomOffset s7 - 0.2 /\
  (0.09 < zoomOffset s8 - zoomOffset s7 < 0.11).
Proof.
  vm_compute.
  split; [split; reflexivity|]. split; [reflexivity|].
  split; [discriminate|]. split; [discriminate|]. split; reflexivity.
Qed.
